(** * dropper: signaling relay, peer session orchestrator and transfer engine

    A shallow embedding of the stateful parts of the repository:

    - [Relay]: the in-memory signaling server (rooms, join, signal
      forwarding, disconnect cleanup);
    - [Peers] and [PeersMore]: the initiator decision, the data-channel
      registry, the teardown of a peer and the two effects of
      [usePeers.js];
    - [Transfer]: the pending-send queue, the chunked send loop with its
      backpressure poll and the receive-side reassembly of
      [useFileTransfer.js];
    - [Signaling]: the presence list, the connection handlers and the
      reconnect timer of [useSignaling.js];
    - [App]: the room id of [App.jsx].

    JavaScript [Map] and [Set] objects whose iteration order cannot be
    observed by a single client are finite maps and sets; the one map whose
    iteration order decides behaviour ([incomingStateRef]) is an
    insertion-ordered association list. *)

From Stdlib Require Import QArith Qminmax Qpower Lqa.
From stdpp Require Import gmap strings list fin_maps pretty.

Open Scope string_scope.
Open Scope list_scope.
Open Scope nat_scope.

#[local] Set Warnings "-clear-no-such-hyp".

(** ** JavaScript values of optional string fields

    A field of a parsed JSON frame that the protocol types as a string is
    [None] when it is missing (or [null]) and [Some s] otherwise.  The
    server tests such fields only for truthiness and for equality. *)

Definition JsStr : Type := option string.

Definition truthy (v : JsStr) : bool :=
  match v with
  | Some s => negb (bool_decide (s = EmptyString))
  | None => false
  end.

(** [a || b] on two such values. *)
Definition js_or (a b : JsStr) : JsStr := if truthy a then a else b.

(** ** The signaling relay *)

Module Relay.

(** A socket is identified by the identity of its [WebSocket] object. *)
Abbreviation Socket := nat.

Record Device := mkDevice {
  deviceId : string;
  deviceName : JsStr;
  color : JsStr;
}.

Record Room := mkRoom {
  devices : gmap string Device;
  sockets : gset Socket;
  socketToDeviceId : gmap Socket string;
}.

Definition emptyRoom : Room := mkRoom ∅ ∅ ∅.

(** Frames the server receives. *)
Record JoinMsg := mkJoin {
  j_roomId : JsStr;
  j_deviceId : JsStr;
  j_deviceName : JsStr;
  j_color : JsStr;
}.

Record SignalMsg := mkSignal {
  s_roomId : JsStr;
  s_from : JsStr;
  s_to : JsStr;
  s_signalType : JsStr;
  s_payload : JsStr;
}.

(** What [JSON.parse(data)] makes of a frame.  [Other] stands for data that
    does not parse (the [catch] returns) and for every parsed value other
    than [null] whose [type] is neither join nor signal.  [Null] is the
    JSON text [null]: it parses, and reading [msg.type] of it, which is
    done outside the [try], throws. *)
Inductive Msg :=
| Join (m : JoinMsg)
| Signal (m : SignalMsg)
| Other
| Null.

(** Frames the server sends. *)
Inductive Frame :=
| PeersSync (roomId : string) (peers : list Device)
| PeerJoined (roomId : string) (peer : Device)
| PeerLeft (deviceId roomId : string)
| SignalFwd (roomId from to : string) (signalType payload : JsStr)
| SignalError (to : string) (signalType : JsStr).

#[global] Instance Device_eq_dec : EqDecision Device.
Proof. solve_decision. Defined.

#[global] Instance Frame_eq_dec : EqDecision Frame.
Proof. solve_decision. Defined.

(** One [socket.send(frame)] call. *)
Definition Sent : Type := Socket * Frame.

(** [readyState] of every socket, as the [ws] library reports it when a
    handler runs: 0 connecting, 1 open, 2 closing, 3 closed. *)
Definition ReadyStates : Type := Socket → nat.

Definition isOpen (rs : ReadyStates) (s : Socket) : bool := Nat.eqb (rs s) 1.

(** The registry [rooms] and, for every connection, the [roomId] variable
    its handlers close over ([null] until a join frame assigns it). *)
Record Server := mkServer {
  rooms : gmap string Room;
  connRoomId : gmap Socket JsStr;
}.

Definition init : Server := mkServer ∅ ∅.

Definition roomIdOf (st : Server) (ws : Socket) : JsStr :=
  default None (connRoomId st !! ws).

Definition getOrCreateRoom (roomId : string) (rms : gmap string Room)
  : gmap string Room * Room :=
  match rms !! roomId with
  | Some r => (rms, r)
  | None => (<[roomId := emptyRoom]> rms, emptyRoom)
  end.

(** [cleanupSocket(ws, roomId)].  The room object is shared with the
    registry, so the mutated room is written back unless the room is
    deleted. *)
Definition cleanupSocket (rs : ReadyStates) (ws : Socket) (roomId : JsStr)
    (rms : gmap string Room) : gmap string Room * list Sent :=
  match roomId with
  | Some r =>
    if negb (truthy roomId) then (rms, []) else
    match rms !! r with
    | None => (rms, [])
    | Some room =>
      let deviceId := socketToDeviceId room !! ws in
      let sockets' := sockets room ∖ {[ws]} in
      let s2d' := delete ws (socketToDeviceId room) in
      let '(devices', out) :=
        match deviceId with
        | Some d =>
          if truthy (Some d) && bool_decide (is_Some (devices room !! d))
          then (delete d (devices room),
                (λ client, (client, PeerLeft d r))
                  <$> filter (λ client, isOpen rs client = true)
                        (elements sockets'))
          else (devices room, [])
        | None => (devices room, [])
        end in
      let room' := mkRoom devices' sockets' s2d' in
      if bool_decide (size sockets' = 0)
      then (delete r rms, out)
      else (<[r := room']> rms, out)
    end
  | None => (rms, [])
  end.

(** The [join] branch of the message handler.  Returns the new value of
    the connection's [roomId] variable, the registry and the frames sent. *)
Definition onJoin (rs : ReadyStates) (ws : Socket) (m : JoinMsg)
    (rms : gmap string Room) : JsStr * gmap string Room * list Sent :=
  let roomId := j_roomId m in
  match roomId with
  | Some r =>
    if negb (truthy roomId) then (roomId, rms, []) else
    let '(rms1, room) := getOrCreateRoom r rms in
    let sockets' := {[ws]} ∪ sockets room in
    let '(devices', s2d') :=
      match j_deviceId m with
      | Some d =>
        if truthy (j_deviceId m)
        then (<[d := mkDevice d (j_deviceName m) (j_color m)]> (devices room),
              <[ws := d]> (socketToDeviceId room))
        else (devices room, socketToDeviceId room)
      | None => (devices room, socketToDeviceId room)
      end in
    let room' := mkRoom devices' sockets' s2d' in
    let peers :=
      filter (λ d : Device, truthy (Some (deviceId d)) = true
                            ∧ Some (deviceId d) ≠ j_deviceId m)
             ((map_to_list devices').*2) in
    let sync := (ws, PeersSync r peers) in
    let joined :=
      match j_deviceId m with
      | Some d =>
        if truthy (j_deviceId m)
        then (λ client,
                (client, PeerJoined r (mkDevice d (j_deviceName m) (j_color m))))
               <$> filter (λ client, client ≠ ws ∧ isOpen rs client = true)
                     (elements sockets')
        else []
      | None => []
      end in
    (roomId, <[r := room']> rms1, sync :: joined)
  | None => (roomId, rms, [])
  end.

(** The [signal] branch of the message handler; it changes no state. *)
Definition onSignal (rs : ReadyStates) (ws : Socket) (connRoom : JsStr)
    (m : SignalMsg) (rms : gmap string Room) : list Sent :=
  let activeRoomId := js_or (s_roomId m) connRoom in
  match activeRoomId, s_to m, s_from m with
  | Some r, Some to, Some from =>
    if negb (truthy activeRoomId) || negb (bool_decide (is_Some (rms !! r)))
       || negb (truthy (s_to m)) || negb (truthy (s_from m))
    then []
    else
      match rms !! r with
      | None => []
      | Some room =>
        match devices room !! to with
        | None =>
          if isOpen rs ws
          then [(ws, SignalError to (s_signalType m))]
          else []
        | Some _ =>
          let payloadToSend := SignalFwd r from to (s_signalType m) (s_payload m) in
          (λ e : Socket * string, (e.1, payloadToSend))
            <$> filter (λ e : Socket * string,
                          e.2 = to ∧ isOpen rs e.1 = true)
                  (map_to_list (socketToDeviceId room))
        end
      end
  | _, _, _ => []
  end.

(** What one connection can make the server do.

    The [TypeError] of a [Null] frame is thrown inside the listener and
    caught by nobody, so the process exits: every room and every
    connection is gone and nothing is sent.  [step] gives that outcome as
    the initial state, which is also what a process started again begins
    with; a run that goes on after a [Null] frame is the run of such a
    process. *)
Inductive Event :=
| Message (ws : Socket) (msg : Msg)
| Close (ws : Socket).

Definition step (rs : ReadyStates) (ev : Event) (st : Server)
  : Server * list Sent :=
  match ev with
  | Message ws (Join m) =>
    let '(roomId, rms, out) := onJoin rs ws m (rooms st) in
    (mkServer rms (<[ws := roomId]> (connRoomId st)), out)
  | Message ws (Signal m) =>
    (st, onSignal rs ws (roomIdOf st ws) m (rooms st))
  | Message ws Other => (st, [])
  | Message ws Null => (init, [])
  | Close ws =>
    let '(rms, out) := cleanupSocket rs ws (roomIdOf st ws) (rooms st) in
    (mkServer rms (connRoomId st), out)
  end.

(** A run of the server over a sequence of events, with the frames sent. *)
Fixpoint run (rs : ReadyStates) (evs : list Event) (st : Server)
  : Server * list Sent :=
  match evs with
  | [] => (st, [])
  | ev :: evs' =>
    let '(st1, out1) := step rs ev st in
    let '(st2, out2) := run rs evs' st1 in
    (st2, out1 ++ out2)
  end.

(** Every socket reports [OPEN]. *)
Definition allOpen : ReadyStates := λ _, 1.

End Relay.

(** ** The peer session orchestrator ([usePeers.js]) *)

Module Peers.

(** [a < b] on JavaScript strings: the first position where the two strings
    differ decides, by character code; a proper prefix is smaller. *)
Fixpoint js_lt (a b : string) : bool :=
  match a, b with
  | EmptyString, EmptyString => false
  | EmptyString, String _ _ => true
  | String _ _, EmptyString => false
  | String x a', String y b' =>
    if Ascii.nat_of_ascii x <? Ascii.nat_of_ascii y then true
    else if Ascii.nat_of_ascii y <? Ascii.nat_of_ascii x then false
    else js_lt a' b'
  end.

Inductive ChannelState :=
| ch_connecting | ch_open | ch_closing | ch_closed | ch_error.

(** A data channel object: its identity, label and [readyState]. *)
Record Channel := mkChannel {
  ch_obj : nat;
  ch_label : string;
  ch_readyState : ChannelState;
}.

(** The refs and state of the hook that the modelled functions touch.
    [peerConnectionsRef] is kept as the set of its keys. *)
Record Hook := mkHook {
  peerConnections : gset string;
  dataChannels : gmap string Channel;
  connectingPeers : gset string;
  channelsVersion : nat;
  webrtcStateByPeer : gmap string ChannelState;
}.

Definition emptyHook : Hook := mkHook ∅ ∅ ∅ 0 ∅.

(** [handleDataChannelReady(peerId, channel)]; the handlers it installs on
    the channel run later and are not part of this call. *)
Definition handleDataChannelReady (peerId : string) (channel : Channel)
    (h : Hook) : Hook :=
  if bool_decide (is_Some (dataChannels h !! peerId)) then h
  else mkHook (peerConnections h)
              (<[peerId := channel]> (dataChannels h))
              (connectingPeers h)
              (S (channelsVersion h))
              (<[peerId := ch_readyState channel]> (webrtcStateByPeer h)).

(** What the initiator does for one peer, in order. *)
Inductive Initiation :=
| CreatePeerConnection (peerId : string)
| CreateDataChannel (peerId label : string)
| CreateOffer (peerId : string).

Definition iAmInitiator (deviceId peerId : string) : bool :=
  js_lt deviceId peerId.

(** The body of the initiator effect for one entry of [signalingPeers].
    [fresh] is the identity of the channel object [createDataChannel]
    returns. *)
Definition initiateTo (deviceId : string) (fresh : nat) (peerId : JsStr)
    (h : Hook) : Hook * list Initiation :=
  match peerId with
  | None => (h, [])
  | Some p =>
    if negb (truthy peerId) || bool_decide (p = deviceId) then (h, [])
    else if bool_decide (p ∈ peerConnections h)
            || bool_decide (p ∈ connectingPeers h) then (h, [])
    else if negb (iAmInitiator deviceId p) then (h, [])
    else
      let h1 := mkHook ({[p]} ∪ peerConnections h) (dataChannels h)
                       ({[p]} ∪ connectingPeers h) (channelsVersion h)
                       (webrtcStateByPeer h) in
      (handleDataChannelReady p (mkChannel fresh "files" ch_connecting) h1,
       [CreatePeerConnection p; CreateDataChannel p "files"; CreateOffer p])
  end.

End Peers.

(** ** Insertion-ordered maps

    A JavaScript [Map] iterates in insertion order; [set] on a key that is
    present replaces the value in place, on a new key it appends. *)

Module JsMap.
Section Ops.
Context {K V : Type} `{EqDecision K}.

Fixpoint get (k : K) (m : list (K * V)) : option V :=
  match m with
  | [] => None
  | (k', v) :: m' => if decide (k' = k) then Some v else get k m'
  end.

Fixpoint set (k : K) (v : V) (m : list (K * V)) : list (K * V) :=
  match m with
  | [] => [(k, v)]
  | (k', v') :: m' =>
    if decide (k' = k) then (k, v) :: m' else (k', v') :: set k v m'
  end.

Fixpoint delete (k : K) (m : list (K * V)) : list (K * V) :=
  match m with
  | [] => []
  | (k', v') :: m' =>
    if decide (k' = k) then delete k m' else (k', v') :: delete k m'
  end.

End Ops.
End JsMap.

(** ** The transfer engine ([useFileTransfer.js]) *)

Module Transfer.

Definition CHUNK_SIZE : nat := 128 * 1024.

(** The high-water mark of [sendChunk], in bytes. *)
Definition HIGH_WATER : N := 4 * 1024 * 1024.

(** Delay of the re-poll timer of [sendChunk], in milliseconds. *)
Definition POLL_MS : nat := 50.

(** [`tx-${Date.now()}-${transferCounter}`] *)
Inductive TransferId := Tx (now : N) (counter : nat).

#[global] Instance TransferId_eq_dec : EqDecision TransferId.
Proof. solve_decision. Defined.

(** A [File]: the identity of the object, its name, MIME type and bytes.
    [file.size] is the number of bytes. *)
Record File := mkFile {
  f_obj : nat;
  f_name : string;
  f_type : string;
  f_bytes : list Byte.byte;
}.

Definition f_size (f : File) : nat := length (f_bytes f).

(** [file.slice(start, end)] *)
Definition slice (f : File) (start stop : nat) : list Byte.byte :=
  take (stop - start) (drop start (f_bytes f)).

Inductive Direction := dir_send | dir_receive.

Inductive Status := queued | in_progress | completed | failed.

(** An entry of [transfers].  [t_progress] is the exact fraction (bytes done,
    total bytes), [(0, 1)] for 0 and [(1, 1)] for 1; the throughput estimate
    [speedBps] is a function of wall-clock readings and is left out. *)
Record TransferRec := mkTransfer {
  t_id : TransferId;
  t_direction : Direction;
  t_peerId : string;
  t_name : string;
  t_size : nat;
  t_status : Status;
  t_progress : nat * nat;
}.

Definition setStatus (s : Status) (t : TransferRec) : TransferRec :=
  mkTransfer (t_id t) (t_direction t) (t_peerId t) (t_name t) (t_size t) s
             (t_progress t).

Definition setProgress (p : nat * nat) (t : TransferRec) : TransferRec :=
  mkTransfer (t_id t) (t_direction t) (t_peerId t) (t_name t) (t_size t)
             (t_status t) p.

(** [prev.map((t) => t.id === id ? f(t) : t)] *)
Definition updateTransfer (id : TransferId) (f : TransferRec → TransferRec)
    (prev : list TransferRec) : list TransferRec :=
  (λ t, if decide (t_id t = id) then f t else t) <$> prev.

(** [size ? done / size : 0] *)
Definition ratio (done size : nat) : nat * nat :=
  if size =? 0 then (0, 1) else (done, size).

(** Frames on a data channel, as the receiving handler sees them: the two
    JSON control frames, a raw binary chunk, and any other string.  A
    binary message reaches the handler in the form the channel's
    [binaryType] asks for, and the hook never sets [binaryType]: [Chunk] is
    a chunk delivered as an [ArrayBuffer] (what the sender passes to
    [channel.send]), [BlobChunk] the same bytes delivered as a [Blob]. *)
Inductive Frame :=
| FileMeta (id : TransferId) (name : string) (size : nat) (mimeType : string)
           (from : string)
| FileComplete (id : TransferId)
| Chunk (data : list Byte.byte)
| BlobChunk (data : list Byte.byte)
| OtherText.

(** An object of a per-peer pending array: [{file, transferId, retries}]. *)
Record Pending := mkPending {
  p_file : File;
  p_transferId : TransferId;
  p_retries : nat;
}.

(** An entry of [incomingStateRef]. *)
Record Incoming := mkIncoming {
  i_peerId : string;
  i_name : string;
  i_size : nat;
  i_mimeType : string;
  i_receivedBytes : nat;
  i_chunks : list (list Byte.byte);
}.

(** The state of the hook.  The pending arrays hold references into
    [objects], the store of the pending objects, because the reconciliation
    pass keeps a second array ([filesToSend]) of the same objects while
    [sendFileToPeerInternal] updates their [retries]. *)
Record Engine := mkEngine {
  transfers : list TransferRec;
  pendingFiles : gmap string (list nat);
  objects : gmap nat Pending;
  nextObject : nat;
  transferCounter : nat;
  incomingState : list (TransferId * Incoming);
}.

Definition emptyEngine : Engine := mkEngine [] ∅ ∅ 0 0 [].

Definition withTransfers (ts : list TransferRec) (e : Engine) : Engine :=
  mkEngine ts (pendingFiles e) (objects e) (nextObject e) (transferCounter e)
           (incomingState e).

(** [createTransferId()] with the clock reading [now]. *)
Definition createTransferId (now : N) (e : Engine) : TransferId * Engine :=
  let c := S (transferCounter e) in
  (Tx now c,
   mkEngine (transfers e) (pendingFiles e) (objects e) (nextObject e) c
            (incomingState e)).

(** What a call makes the outside do: a frame handed to a peer's channel,
    and the start of the reader loop ([readSlice()]) for a file. *)
Inductive Action :=
| ChannelSend (peerId : string) (f : Frame)
| StartReader (peerId : string) (id : TransferId) (file : File).

(** The two identical queueing branches of [sendFileToPeerInternal]. *)
Definition enqueue (now : N) (peerId : string) (file : File) (e : Engine)
    : Engine :=
  let '(transferId, e1) := createTransferId now e in
  let arr := default [] (pendingFiles e1 !! peerId) in
  let ref := nextObject e1 in
  mkEngine
    (mkTransfer transferId dir_send peerId (f_name file) (f_size file) queued
                (0, 1) :: transfers e1)
    (<[peerId := arr ++ [ref]]> (pendingFiles e1))
    (<[ref := mkPending file transferId 0]> (objects e1))
    (S ref) (transferCounter e1) (incomingState e1).

(** [pendingFiles.findIndex((p) => p.file === file || p.file.name === file.name)],
    returning the object found. *)
Definition findPending (objs : gmap nat Pending) (file : File)
    (arr : list nat) : option nat :=
  List.find
    (λ ref, match objs !! ref with
            | Some p => bool_decide (f_obj (p_file p) = f_obj file)
                        || bool_decide (f_name (p_file p) = f_name file)
            | None => false
            end) arr.

(** [sendFileToPeerInternal(peerId, file, isRetry)] up to and including the
    first [readSlice()]; [channelsByPeer] is the map the hook was given. *)
Definition sendFileToPeerInternal (now : N) (localDeviceId : string)
    (channelsByPeer : gmap string Peers.Channel)
    (peerId : string) (file : File) (isRetry : bool) (e : Engine)
    : Engine * list Action :=
  match channelsByPeer !! peerId with
  | None => if isRetry then (e, []) else (enqueue now peerId file e, [])
  | Some channel =>
    match Peers.ch_readyState channel with
    | Peers.ch_open =>
      let found :=
        if isRetry
        then arr ← pendingFiles e !! peerId; findPending (objects e) file arr
        else None in
      let '(id, existing, e1) :=
        match found with
        | Some ref =>
          match objects e !! ref with
          | Some p =>
            (p_transferId p, true,
             mkEngine (transfers e) (pendingFiles e)
               (<[ref := mkPending (p_file p) (p_transferId p)
                                   (S (p_retries p))]> (objects e))
               (nextObject e) (transferCounter e) (incomingState e))
          | None => let '(i, e') := createTransferId now e in (i, false, e')
          end
        | None => let '(i, e') := createTransferId now e in (i, false, e')
        end in
      let meta :=
        FileMeta id (f_name file) (f_size file) (f_type file) localDeviceId in
      let ts :=
        if isRetry && existing
        then updateTransfer id
               (λ t, setProgress (0, 1) (setStatus in_progress t))
               (transfers e1)
        else mkTransfer id dir_send peerId (f_name file) (f_size file)
                        in_progress (0, 1) :: transfers e1 in
      (withTransfers ts e1,
       [ChannelSend peerId meta; StartReader peerId id file])
    | _ => if isRetry then (e, []) else (enqueue now peerId file e, [])
    end
  end.

(** [sendFilesToPeer(peerId, files)] *)
Fixpoint sendFilesToPeer (now : N) (localDeviceId : string)
    (channelsByPeer : gmap string Peers.Channel)
    (peerId : string) (files : list File) (e : Engine)
    : Engine * list Action :=
  match files with
  | [] => (e, [])
  | file :: files' =>
    let '(e1, a1) :=
      sendFileToPeerInternal now localDeviceId channelsByPeer peerId file
                             false e in
    let '(e2, a2) :=
      sendFilesToPeer now localDeviceId channelsByPeer peerId files' e1 in
    (e2, a1 ++ a2)
  end.

Definition retriesOf (objs : gmap nat Pending) (ref : nat) : nat :=
  default 0 (p_retries <$> objs !! ref).

(** The body of the reconciliation effect for one entry
    [(pendingFiles, peerId)] of [pendingFilesRef]. *)
Definition reconcilePeer (now : N) (localDeviceId : string)
    (channelsByPeer : gmap string Peers.Channel)
    (peerId : string) (arr : list nat) (e : Engine)
    : Engine * list Action :=
  match channelsByPeer !! peerId with
  | Some (Peers.mkChannel _ _ Peers.ch_open) =>
    let filesToSend := filter (λ ref, retriesOf (objects e) ref < 5) arr in
    let exhausted := filter (λ ref, ¬ retriesOf (objects e) ref < 5) arr in
    (* the else branch of the first loop *)
    let e1 :=
      foldl (λ acc ref,
               match objects acc !! ref with
               | Some p => withTransfers
                             (updateTransfer (p_transferId p) (setStatus failed)
                                             (transfers acc)) acc
               | None => acc
               end) e exhausted in
    (* filesToSend.forEach(({ file }) => sendFileToPeerInternal(peerId, file, true)) *)
    let '(e2, acts) :=
      foldl (λ '(acc, out) ref,
               match objects e !! ref with
               | Some p =>
                 let '(acc', out') :=
                   sendFileToPeerInternal now localDeviceId channelsByPeer
                                          peerId (p_file p) true acc in
                 (acc', out ++ out')
               | None => (acc, out)
               end) (e1, []) filesToSend in
    (* splice every object of filesToSend out of the array *)
    let arr' := filter (λ ref, ref ∉ filesToSend) arr in
    let pf :=
      if bool_decide (length arr' = 0)
      then delete peerId (pendingFiles e2)
      else <[peerId := arr']> (pendingFiles e2) in
    (mkEngine (transfers e2) pf (objects e2) (nextObject e2)
              (transferCounter e2) (incomingState e2), acts)
  | _ => (e, [])
  end.

(** One run of the reconciliation effect:
    [pendingFilesRef.current.forEach(...)]. *)
Definition reconcile (now : N) (localDeviceId : string)
    (channelsByPeer : gmap string Peers.Channel) (e : Engine)
    : Engine * list Action :=
  foldl (λ '(acc, out) '(peerId, arr),
           let '(acc', out') :=
             reconcilePeer now localDeviceId channelsByPeer peerId arr acc in
           (acc', out ++ out'))
        (e, []) (map_to_list (pendingFiles e)).

(** *** The reader loop of [sendFileToPeerInternal]

    After [readSlice()] the code runs from callbacks.  What the environment
    shows each callback is an [Observation]: whether the read succeeded
    ([reader.onload] rather than [reader.onerror]), whether the channel is
    still open when [reader.onload] runs, and [channel.bufferedAmount] when
    [sendChunk] runs.  The first two are looked at only by a callback of the
    reader, not by a timer callback. *)
Record Observation := mkObs {
  o_loaded : bool;
  o_open : bool;
  o_buffered : N;
}.

(** What the loop does, in order. *)
Inductive Effect :=
| Send (f : Frame)
| SetTimeout (ms : nat)
| Progress (p : nat * nat)
| Mark (s : Status).

(** How [sendChunk] ends. *)
Inductive Next :=
| ReadSlice (offset : nat)
| PollAgain
| Finished.

(** [sendChunk()] with [buffer] the slice just read at [offset]. *)
Definition sendChunk (file : File) (id : TransferId) (offset : nat)
    (buffered : N) : list Effect * Next :=
  if (HIGH_WATER <? buffered)%N then ([SetTimeout POLL_MS], PollAgain)
  else
    let buffer := slice file offset (offset + CHUNK_SIZE) in
    let offset' := offset + CHUNK_SIZE in
    let sentBytes := offset' `min` f_size file in
    let sent := [Send (Chunk buffer); Progress (ratio sentBytes (f_size file))] in
    if offset' <? f_size file then (sent, ReadSlice offset')
    else (sent ++ [Send (FileComplete id); Mark completed; Progress (1, 1)],
          Finished).

(** The callbacks that follow [readSlice()] at [offset], one observation
    each.  [fromReader] tells whether the next callback is the reader's or
    the poll timer's.  The run stops when the observations are used up. *)
Fixpoint readerLoop (file : File) (id : TransferId) (offset : nat)
    (fromReader : bool) (obs : list Observation) : list Effect :=
  match obs with
  | [] => []
  | o :: obs' =>
    if fromReader && negb (o_loaded o) then [Mark failed]
    else if fromReader && negb (o_open o) then [Mark failed]
    else
      match sendChunk file id offset (o_buffered o) with
      | (effs, ReadSlice offset') => effs ++ readerLoop file id offset' true obs'
      | (effs, PollAgain) => effs ++ readerLoop file id offset false obs'
      | (effs, Finished) => effs
      end
  end.

(** The frames a list of effects puts on the channel. *)
Definition framesOf (effs : list Effect) : list Frame :=
  omap (λ e, match e with Send f => Some f | _ => None end) effs.

(** Everything a send over an open channel puts on it: the [file-meta]
    frame of [sendFileToPeerInternal], then the frames of the reader loop. *)
Definition sentFrames (localDeviceId : string) (id : TransferId)
    (file : File) (obs : list Observation) : list Frame :=
  FileMeta id (f_name file) (f_size file) (f_type file) localDeviceId
  :: framesOf (readerLoop file id 0 true obs).

(** *** The receive path: [channel.onmessage] of the channel of [peerId] *)

(** A finished download: the name, the MIME type and the bytes of the blob. *)
Record Artifact := mkArtifact {
  a_name : string;
  a_type : string;
  a_bytes : list Byte.byte;
}.


(** [x || fallback] on strings. *)
Definition orElse (x fallback : string) : string :=
  if bool_decide (x = EmptyString) then fallback else x.

(** [event.data.byteLength] of a binary frame: an [ArrayBuffer] has the
    property, a [Blob] has not ([undefined]). *)
Definition byteLength (f : Frame) : option nat :=
  match f with
  | Chunk data => Some (length data)
  | _ => None
  end.

(** [state.chunks.push(event.data);
     state.receivedBytes += event.data.byteLength || 0],
    with [len] the value of [event.data.byteLength]. *)
Definition storeChunk (len : option nat) (data : list Byte.byte)
    (state : Incoming) : Incoming :=
  mkIncoming (i_peerId state) (i_name state) (i_size state) (i_mimeType state)
             (i_receivedBytes state
              + match len with Some n => n | None => 0 end)
             (i_chunks state ++ [data]).

(** [storeChunk] for a chunk that arrived as an [ArrayBuffer], whose
    [byteLength] is the number of its bytes.  A chunk that arrived as a
    [Blob] is stored with [storeChunk None]. *)
Definition appendChunk (data : list Byte.byte) (state : Incoming) : Incoming :=
  storeChunk (Some (length data)) data state.

(** The loop over [incomingStateRef.current.entries()] for a binary frame:
    the first entry of this peer with [receivedBytes < size] takes the
    chunk.  Returns the id it went to and the updated map. *)
Fixpoint attribute (peerId : string) (len : option nat)
    (data : list Byte.byte) (m : list (TransferId * Incoming))
    : option TransferId * list (TransferId * Incoming) :=
  match m with
  | [] => (None, [])
  | (id, state) :: m' =>
    if bool_decide (i_peerId state = peerId)
       && (i_receivedBytes state <? i_size state)
    then (Some id, (id, storeChunk len data state) :: m')
    else let '(r, m'') := attribute peerId len data m' in
         (r, (id, state) :: m'')
  end.

Definition onmessage (peerId : string) (f : Frame) (e : Engine)
    : Engine * list Artifact :=
  match f with
  | FileMeta id name size mimeType _ =>
    (mkEngine
       (mkTransfer id dir_receive peerId name size in_progress (0, 1)
        :: transfers e)
       (pendingFiles e) (objects e) (nextObject e) (transferCounter e)
       (JsMap.set id (mkIncoming peerId name size mimeType 0 [])
                  (incomingState e)), [])
  | FileComplete id =>
    match JsMap.get id (incomingState e) with
    | None => (e, [])
    | Some state =>
      let blob :=
        mkArtifact (orElse (i_name state) "file")
                   (orElse (i_mimeType state) "application/octet-stream")
                   (concat (i_chunks state)) in
      (mkEngine
         (updateTransfer id (λ t, setProgress (1, 1) (setStatus completed t))
                         (transfers e))
         (pendingFiles e) (objects e) (nextObject e) (transferCounter e)
         (JsMap.delete id (incomingState e)), [blob])
    end
  | Chunk data | BlobChunk data =>
    match attribute peerId (byteLength f) data (incomingState e) with
    | (Some id, inc) =>
      let p := match JsMap.get id inc with
               | Some state => ratio (i_receivedBytes state) (i_size state)
               | None => (0, 1)
               end in
      (mkEngine (updateTransfer id (setProgress p) (transfers e))
                (pendingFiles e) (objects e) (nextObject e)
                (transferCounter e) inc, [])
    | (None, _) => (e, [])
    end
  | OtherText => (e, [])
  end.

(** The frames of one channel, handled in arrival order. *)
Fixpoint receive (peerId : string) (fs : list Frame) (e : Engine)
    : Engine * list Artifact :=
  match fs with
  | [] => (e, [])
  | f :: fs' =>
    let '(e1, d1) := onmessage peerId f e in
    let '(e2, d2) := receive peerId fs' e1 in
    (e2, d1 ++ d2)
  end.


(** *** The hook as a whole

    What can happen to the hook's state: the user hands files to
    [sendFilesToPeer], the reconciliation effect runs, or a frame arrives on
    the channel of a peer.  Each call comes with the clock reading and the
    channel map of that moment. *)
Inductive Call :=
| CallSend (now : N) (channelsByPeer : gmap string Peers.Channel)
           (peerId : string) (files : list File)
| CallReconcile (now : N) (channelsByPeer : gmap string Peers.Channel)
| CallMessage (peerId : string) (f : Frame).

Definition call (localDeviceId : string) (c : Call) (e : Engine) : Engine :=
  match c with
  | CallSend now channelsByPeer peerId files =>
    (sendFilesToPeer now localDeviceId channelsByPeer peerId files e).1
  | CallReconcile now channelsByPeer =>
    (reconcile now localDeviceId channelsByPeer e).1
  | CallMessage peerId f => (onmessage peerId f e).1
  end.

Definition calls (localDeviceId : string) (cs : list Call) (e : Engine)
    : Engine :=
  foldl (λ acc c, call localDeviceId c acc) e cs.

End Transfer.

(** ** Properties as the specification words them

    The statements below transcribe sentences of the specification that the
    code is then checked against. *)

Module Stated.
Import Relay Transfer.

(** Room invariant: a device is in the directory iff some socket maps to
    it; every mapped socket is in [sockets]; a registered room has a
    socket. *)
Definition room_invariant (st : Server) : Prop :=
  ∀ r room, rooms st !! r = Some room →
    (∀ d, is_Some (devices room !! d)
          ↔ ∃ s, socketToDeviceId room !! s = Some d)
    ∧ dom (socketToDeviceId room) ⊆ sockets room
    ∧ sockets room ≠ ∅.

(** The part of the room invariant that speaks of sockets only. *)
Definition socket_invariant (st : Server) : Prop :=
  ∀ r room, rooms st !! r = Some room →
    dom (socketToDeviceId room) ⊆ sockets room ∧ sockets room ≠ ∅.

(** Relay forwarding, for every signal frame addressed to a registered
    room: a target absent from the directory yields exactly one
    [signal-error] to the sender and nothing else; a present target yields
    frames to exactly the sockets mapped to it and no error. *)
Definition signal_claim : Prop :=
  ∀ (rs : ReadyStates) (ws : Socket) (st : Server) (m : SignalMsg) r room to,
    js_or (s_roomId m) (roomIdOf st ws) = Some r →
    rooms st !! r = Some room →
    s_to m = Some to →
    let out := (step rs (Message ws (Signal m)) st).2 in
    (devices room !! to = None →
       out = [(ws, SignalError to (s_signalType m))])
    ∧ (is_Some (devices room !! to) →
       (∀ s, (∃ f, (s, f) ∈ out) ↔ socketToDeviceId room !! s = Some to)
       ∧ ∀ f, (ws, f) ∈ out → f ≠ SignalError to (s_signalType m)).

(** Departure cleanup, for every socket of a room of a reachable state with
    a known device id: its disconnect sends exactly one [peer-left] for
    that id to every other socket of the room, and the room is deleted
    when it was the last socket.  All sockets are open. *)
Definition departure_claim : Prop :=
  ∀ (evs : list Event) (ws : Socket) r room d,
    let st := (run allOpen evs init).1 in
    rooms st !! r = Some room →
    ws ∈ sockets room →
    socketToDeviceId room !! ws = Some d →
    let res := step allOpen (Close ws) st in
    (∀ s, s ∈ sockets room → s ≠ ws →
       length (filter (λ x, x = (s, PeerLeft d r)) res.2) = 1)
    ∧ (sockets room = {[ws]} → rooms res.1 !! r = None).


(** An assembly of [peerId] that still waits for bytes. *)
Definition incomplete (peerId : string) (state : Incoming) : Prop :=
  i_peerId state = peerId ∧ i_receivedBytes state < i_size state.

#[global] Instance incomplete_dec peerId state : Decision (incomplete peerId state).
Proof. unfold incomplete. apply _. Defined.

Definition stillIncomplete (peerId : string) (e : Engine) (id : TransferId)
    : Prop :=
  match JsMap.get id (incomingState e) with
  | Some state => incomplete peerId state
  | None => False
  end.

#[global] Instance stillIncomplete_dec peerId e id :
  Decision (stillIncomplete peerId e id).
Proof. unfold stillIncomplete. destruct (JsMap.get id (incomingState e)); apply _. Defined.

(** The receiver is assembling [file] under [id] and has its first [offset]
    bytes, and no other assembly of the peer waits for bytes. *)
Definition assembling (peerId : string) (id : TransferId) (file : File)
    (offset : nat) (e : Engine) : Prop :=
  ∃ m1 state m2,
    incomingState e = m1 ++ (id, state) :: m2
    ∧ (id ∉ m1.*1)
    ∧ Forall (λ x, ¬ incomplete peerId x.2) (m1 ++ m2)
    ∧ i_peerId state = peerId
    ∧ i_name state = f_name file
    ∧ i_mimeType state = f_type file
    ∧ i_size state = f_size file
    ∧ i_receivedBytes state = offset `min` f_size file
    ∧ concat (i_chunks state) = take offset (f_bytes file).

(** The download the receiver should end up with for [file]. *)
Definition artifactOf (file : File) : Artifact :=
  mkArtifact (orElse (f_name file) "file")
             (orElse (f_type file) "application/octet-stream")
             (f_bytes file).

(** No peer has a channel whose [readyState] is ["open"]. *)
Definition noOpenChannel (channelsByPeer : gmap string Peers.Channel) : Prop :=
  ∀ p channel, channelsByPeer !! p = Some channel →
               Peers.ch_readyState channel ≠ Peers.ch_open.

(** Every entry of every pending array is an object that counts no retry,
    the arrays of different peers share no object, objects are allocated
    below [nextObject], and no transfer is marked [failed]. *)
Definition untouchedQueue (e : Engine) : Prop :=
  (∀ p arr ref, pendingFiles e !! p = Some arr → ref ∈ arr →
     ref < nextObject e
     ∧ ∃ pending, objects e !! ref = Some pending ∧ p_retries pending = 0)
  ∧ (∀ p q arrp arrq ref, p ≠ q →
       pendingFiles e !! p = Some arrp → pendingFiles e !! q = Some arrq →
       ref ∈ arrp → ref ∉ arrq)
  ∧ Forall (λ t, t_status t ≠ failed) (transfers e).


End Stated.

(** ** Sample inputs *)

Module Samples.
Import Relay.

Definition joinAs (roomId deviceId : string) : Msg :=
  Join (mkJoin (Some roomId) (Some deviceId) None None).

(** Sockets 1 and 2 are in room R as devices a and b. *)
Definition twoPeers : Server :=
  (run allOpen [Message 1 (joinAs "R" "a"); Message 2 (joinAs "R" "b")] init).1.

(** Sockets 1 and 2 joined room R with the same device id d (two tabs of
    one browser, or a reconnect before the old socket is seen closed);
    socket 3 joined as e. *)
Definition sharedDevice : list Event :=
  [Message 1 (joinAs "R" "d"); Message 2 (joinAs "R" "d");
   Message 3 (joinAs "R" "e")].

(** A signal frame for room R that names no sender. *)
Definition anonymousSignal (to : string) : SignalMsg :=
  mkSignal (Some "R") None (Some to) (Some "offer") (Some "sdp").

(** Room R in [twoPeers]. *)
Definition roomR : Room := default emptyRoom (rooms twoPeers !! "R").

(** The state after socket 1 of [sharedDevice] has disconnected, and its
    room R. *)
Definition afterFirstLeft : Server :=
  (run allOpen (sharedDevice ++ [Close 1]) init).1.

Definition roomAfterFirstLeft : Room :=
  default emptyRoom (rooms afterFirstLeft !! "R").

Definition signalFromTo (from to : string) : SignalMsg :=
  mkSignal (Some "R") (Some from) (Some to) (Some "offer") (Some "sdp").

(** A file of three bytes, and one of none. *)
Definition abc : Transfer.File :=
  Transfer.mkFile 1 "a.txt" "text/plain" [Byte.x61; Byte.x62; Byte.x63].

Definition noBytes : Transfer.File := Transfer.mkFile 2 "empty.bin" EmptyString [].

(** Observations with the channel drained, congested, and exactly at the
    high-water mark. *)
Definition drained : Transfer.Observation := Transfer.mkObs true true 0.

Definition congested : Transfer.Observation :=
  Transfer.mkObs true true 5000000.

Definition atMark : Transfer.Observation :=
  Transfer.mkObs true true 4194304.


(** The hook after one file was handed to [sendFilesToPeer] for peer p
    while no channel to p exists. *)
Definition oneQueued : Transfer.Engine :=
  (Transfer.sendFilesToPeer 7 "me" ∅ "p" [abc] Transfer.emptyEngine).1.

(** A hook whose queue for p holds an entry that already counts five
    retries. *)
Definition exhaustedEntry : Transfer.Engine :=
  Transfer.mkEngine
    [Transfer.mkTransfer (Transfer.Tx 7 1) Transfer.dir_send "p" "a.txt" 3
                         Transfer.queued (0, 1)]
    {[ "p" := [0] ]}
    {[ 0 := Transfer.mkPending abc (Transfer.Tx 7 1) 5 ]}
    1 1 [].

(** A channel to p that is still connecting, and one that is open. *)
Definition connectingChannel : gmap string Peers.Channel :=
  {[ "p" := Peers.mkChannel 0 "files" Peers.ch_connecting ]}.

Definition openChannel : gmap string Peers.Channel :=
  {[ "p" := Peers.mkChannel 0 "files" Peers.ch_open ]}.

End Samples.

(** ** Further invariants of the relay *)

Module RelayProps.
Import Relay.

(** Room ids, directory keys and mapped device ids are never empty, and a
    directory entry is stored under its own device id. *)
Definition directory_wf (st : Server) : Prop :=
  ∀ r room, rooms st !! r = Some room →
    r ≠ EmptyString
    ∧ (∀ k dev, devices room !! k = Some dev →
         deviceId dev = k ∧ k ≠ EmptyString)
    ∧ (∀ s d, socketToDeviceId room !! s = Some d → d ≠ EmptyString).

(** The device record a join frame stores and announces. *)
Definition joinedDevice (m : JoinMsg) (d : string) : Device :=
  mkDevice d (j_deviceName m) (j_color m).

(** The room an event is about: the room a join frame names, the room a
    signal frame names or else the connection's, the connection's room for
    a disconnect; any other frame is about no room. *)
Definition addressedRoom (ev : Event) (st : Server) : JsStr :=
  match ev with
  | Message ws (Join m) => j_roomId m
  | Message ws (Signal m) => js_or (s_roomId m) (roomIdOf st ws)
  | Message ws Other => None
  | Message ws Null => None
  | Close ws => roomIdOf st ws
  end.

(** The event is a [Null] frame: the one the process does not survive. *)
Definition fatal (ev : Event) : Prop :=
  match ev with
  | Message _ Null => True
  | _ => False
  end.

Definition socketOf (ev : Event) : Socket :=
  match ev with Message ws _ => ws | Close ws => ws end.

(** [s] belongs to [room]: it is in its socket set or in its
    socket-to-device map. *)
Definition memberOf (s : Socket) (room : Room) : Prop :=
  s ∈ sockets room ∨ is_Some (socketToDeviceId room !! s).

End RelayProps.

(** ** Further invariants of the transfer engine *)

Module TransferProps.
Import Transfer.

Definition counterOf (id : TransferId) : nat :=
  match id with Tx _ c => c end.

(** The ids of the outgoing entries of [transfers]. *)
Definition sendIds (ts : list TransferRec) : list TransferId :=
  omap (λ t, match t_direction t with
             | dir_send => Some (t_id t)
             | dir_receive => None
             end) ts.

(** The outgoing transfers carry pairwise different counters, none above
    [transferCounter]. *)
Definition sendIdsFresh (e : Engine) : Prop :=
  NoDup (counterOf <$> sendIds (transfers e))
  ∧ Forall (λ id, counterOf id ≤ transferCounter e) (sendIds (transfers e)).

(** No assembly counts more bytes than it holds. *)
Definition bytesCounted (e : Engine) : Prop :=
  Forall (λ x : TransferId * Incoming,
            i_receivedBytes x.2 ≤ length (concat (i_chunks x.2)))
         (incomingState e).

(** Every assembly counts exactly the bytes it holds. *)
Definition bytesExact (e : Engine) : Prop :=
  Forall (λ x : TransferId * Incoming,
            i_receivedBytes x.2 = length (concat (i_chunks x.2)))
         (incomingState e).

(** The frames among the calls, in arrival order. *)
Definition received (cs : list Call) : list Frame :=
  omap (λ c, match c with CallMessage _ f => Some f | _ => None end) cs.

(** The frame is not a binary message delivered as a [Blob]. *)
Definition notBlob (f : Frame) : Prop :=
  match f with BlobChunk _ => False | _ => True end.

End TransferProps.

(** ** More of the peer session orchestrator ([usePeers.js]) *)

Module PeersMore.
Import Peers.

(** What tearing a peer down does to the outside. *)
Inductive Teardown :=
| ClosePeerConnection (peerId : string)
| CloseChannel (peerId : string).

(** [cleanupPeer(peerId)] *)
Definition cleanupPeer (peerId : string) (h : Hook) : Hook * list Teardown :=
  let hasPc := bool_decide (peerId ∈ peerConnections h) in
  let closePc := if hasPc then [ClosePeerConnection peerId] else [] in
  let pcs := if hasPc then peerConnections h ∖ {[peerId]}
             else peerConnections h in
  match dataChannels h !! peerId with
  | Some channel =>
    (mkHook pcs (delete peerId (dataChannels h))
            (connectingPeers h ∖ {[peerId]}) (S (channelsVersion h))
            (delete peerId (webrtcStateByPeer h)),
     closePc ++ [CloseChannel peerId])
  | None =>
    (mkHook pcs (dataChannels h) (connectingPeers h ∖ {[peerId]})
            (channelsVersion h) (delete peerId (webrtcStateByPeer h)),
     closePc)
  end.

(** The [channel.onclose] handler [handleDataChannelReady] installs on the
    channel of [peerId]. *)
Definition channelClosed (peerId : string) (h : Hook) : Hook :=
  mkHook (peerConnections h) (delete peerId (dataChannels h))
         (connectingPeers h) (S (channelsVersion h))
         (delete peerId (webrtcStateByPeer h)).

(** [new Set(signalingPeers.map((p) => p.deviceId).filter(Boolean))], as a
    test on a peer id; [signalingPeers] is given by its [deviceId] fields. *)
Definition isCurrent (signalingPeers : list JsStr) (peerId : string) : Prop :=
  Some peerId ∈ signalingPeers ∧ peerId ≠ EmptyString.

#[global] Instance isCurrent_dec signalingPeers peerId :
  Decision (isCurrent signalingPeers peerId).
Proof. unfold isCurrent. apply _. Defined.

(** The effect that removes the connections of peers that are no longer in
    the signaling list: [peerConnectionsRef.current.forEach(...)]. *)
Definition prunePeers (deviceId : string) (signalingPeers : list JsStr)
    (h : Hook) : Hook * list Teardown :=
  foldl (λ '(acc, out) peerId,
           if bool_decide (peerId ≠ deviceId
                           ∧ ¬ isCurrent signalingPeers peerId)
           then let '(acc', out') := cleanupPeer peerId acc in
                (acc', out ++ out')
           else (acc, out))
        (h, []) (elements (peerConnections h)).

(** The initiator effect: [signalingPeers.forEach(...)], with [fresh] the
    identity of the next channel object [createDataChannel] returns. *)
Fixpoint initiateAll (deviceId : string) (fresh : nat)
    (signalingPeers : list JsStr) (h : Hook) : Hook * list Initiation :=
  match signalingPeers with
  | [] => (h, [])
  | peerId :: rest =>
    let '(h1, a1) := initiateTo deviceId fresh peerId h in
    let '(h2, a2) := initiateAll deviceId (S fresh) rest h1 in
    (h2, a1 ++ a2)
  end.

(** The peer an initiation step is for. *)
Definition initiationPeer (a : Initiation) : string :=
  match a with
  | CreatePeerConnection p => p
  | CreateDataChannel p _ => p
  | CreateOffer p => p
  end.

(** The initiator effect passes over [peerId]: it is empty or the own id,
    a connection to it exists or is being made, or it is not the larger id. *)
Definition passedOver (deviceId peerId : string) (h : Hook) : Prop :=
  peerId = EmptyString ∨ peerId = deviceId
  ∨ peerId ∈ peerConnections h ∨ peerId ∈ connectingPeers h
  ∨ js_lt deviceId peerId = false.

End PeersMore.

(** ** The signaling client ([useSignaling.js])

    The hook keeps one current [WebSocket], a presence list and a reconnect
    timer.  Its handlers are functions on the record of its refs and state;
    the browser's side (which socket objects and timers exist, and the
    [readyState] a handler observes) is passed in.  The identity is fixed:
    [App.jsx] memoises it once. *)

Module Signaling.
Import Relay.

(** [reconnectDelayRef] holds a JavaScript number.  It is kept here as the
    exact rational; the only use of it is [Math.min(_, RECONNECT_DELAY_MAX)],
    and the double agrees with the rational on that value: the products
    1000, 1500, 2250, 3375, 5062.5, 7593.75 and 11390.625 are exact, and
    from there on both stay above the maximum. *)
Definition RECONNECT_DELAY_INITIAL : Q := 1000%Q.
Definition RECONNECT_DELAY_MAX : Q := 10000%Q.

Inductive SignalingState :=
| sig_connecting | sig_open | sig_closed | sig_error.

(** [WebSocket.readyState] *)
Inductive WsState := WS_CONNECTING | WS_OPEN | WS_CLOSING | WS_CLOSED.

Record Identity := mkIdentity {
  id_deviceId : string;
  id_deviceName : string;
  id_color : string;
  id_roomId : string;
}.

(** What a handler does to the outside. *)
Inductive Effect :=
| NewWebSocket (socket : Socket)
| SocketSend (socket : Socket) (msg : Msg)
| SocketClose (socket : Socket)
| SetTimeout (timer : nat) (delay : Q)
| ClearTimeout (timer : nat)
| OnPeersUpdate (next : list Device)
| OnSignal (msg : Frame).

(** The state and refs of the hook, and what the browser holds for it:
    [created] counts the [WebSocket] objects made so far (the next one gets
    that number as its identity), [timersSet] the timers, and [pending]
    lists the timers that were set and have neither fired nor been
    cleared. *)
Record Client := mkClient {
  state : SignalingState;
  peers : list Device;
  socketRef : option Socket;
  reconnectTimeoutRef : option nat;
  reconnectDelayRef : Q;
  isIntentionallyClosingRef : bool;
  identityKeyRef : option string;
  created : nat;
  timersSet : nat;
  pending : list nat;
}.

Definition initial : Client :=
  mkClient sig_connecting [] None None RECONNECT_DELAY_INITIAL false None
           0 0 [].

(** *** The presence list *)

(** [(msg.peers || []).filter((p) => p.deviceId && p.deviceId !== deviceId)] *)
Definition syncPeers (localId : string) (ps : list Device) : list Device :=
  filter (λ p : Device, truthy (Some (deviceId p)) = true
                        ∧ deviceId p ≠ localId) ps.

(** The updater of the [peer-joined] branch: the first entry with the id of
    [peer] is replaced, or [peer] is appended. *)
Fixpoint upsertPeer (peer : Device) (prev : list Device) : list Device :=
  match prev with
  | [] => [peer]
  | p :: rest =>
    if bool_decide (deviceId p = deviceId peer) then peer :: rest
    else p :: upsertPeer peer rest
  end.

(** [prev.filter((p) => p.deviceId !== leftId)] *)
Definition removePeer (leftId : string) (prev : list Device) : list Device :=
  filter (λ p : Device, deviceId p ≠ leftId) prev.

(** The branches of [handleMessage] on the type of a frame of the relay:
    the next presence list and the callbacks made. *)
Definition dispatch (localId : string) (frame : Frame) (prev : list Device)
  : list Device * list Effect :=
  match frame with
  | PeersSync _ ps =>
    let next := syncPeers localId ps in (next, [OnPeersUpdate next])
  | PeerJoined _ peer =>
    if bool_decide (deviceId peer = localId) then (prev, [])
    else let next := upsertPeer peer prev in (next, [OnPeersUpdate next])
  | PeerLeft leftId _ =>
    let next := removePeer leftId prev in (next, [OnPeersUpdate next])
  | SignalFwd _ _ _ _ _ => (prev, [OnSignal frame])
  | SignalError _ _ => (prev, [])
  end.

(** *** The connection *)

Definition withSocket (c : Client) (s : option Socket) : Client :=
  mkClient (state c) (peers c) s (reconnectTimeoutRef c)
           (reconnectDelayRef c) (isIntentionallyClosingRef c)
           (identityKeyRef c) (created c) (timersSet c) (pending c).

Definition withState (c : Client) (st : SignalingState) : Client :=
  mkClient st (peers c) (socketRef c) (reconnectTimeoutRef c)
           (reconnectDelayRef c) (isIntentionallyClosingRef c)
           (identityKeyRef c) (created c) (timersSet c) (pending c).

Definition withPeers (c : Client) (ps : list Device) : Client :=
  mkClient (state c) ps (socketRef c) (reconnectTimeoutRef c)
           (reconnectDelayRef c) (isIntentionallyClosingRef c)
           (identityKeyRef c) (created c) (timersSet c) (pending c).

Definition withClosing (c : Client) (b : bool) : Client :=
  mkClient (state c) (peers c) (socketRef c) (reconnectTimeoutRef c)
           (reconnectDelayRef c) b
           (identityKeyRef c) (created c) (timersSet c) (pending c).

(** [new WebSocket(url)] and [socketRef.current = socket]. *)
Definition openSocket (c : Client) : Client * list Effect :=
  (mkClient (state c) (peers c) (Some (created c)) (reconnectTimeoutRef c)
            (reconnectDelayRef c) (isIntentionallyClosingRef c)
            (identityKeyRef c) (S (created c)) (timersSet c) (pending c),
   [NewWebSocket (created c)]).

(** [connect()] *)
Definition connect (readyState : Socket → WsState) (c : Client)
  : Client * list Effect :=
  match socketRef c with
  | Some s =>
    match readyState s with
    | WS_CONNECTING | WS_OPEN => (c, [])
    | WS_CLOSING | WS_CLOSED => openSocket (withSocket c None)
    end
  | None => openSocket c
  end.

(** The join frame of [handleOpen]. *)
Definition joinFrame (i : Identity) : JoinMsg :=
  mkJoin (Some (id_roomId i)) (Some (id_deviceId i))
         (Some (id_deviceName i)) (Some (id_color i)).

(** The listeners [connect] adds to the socket it makes; [socket] is that
    socket. *)
Definition handleOpen (i : Identity) (socket : Socket) (c : Client)
  : Client * list Effect :=
  if bool_decide (socketRef c ≠ Some socket) then (c, [])
  else
    (mkClient sig_open (peers c) (socketRef c) (reconnectTimeoutRef c)
              RECONNECT_DELAY_INITIAL (isIntentionallyClosingRef c)
              (identityKeyRef c) (created c) (timersSet c) (pending c),
     [SocketSend socket (Join (joinFrame i))]).

Definition handleClose (socket : Socket) (wasClean : bool) (c : Client)
  : Client * list Effect :=
  if bool_decide (socketRef c ≠ Some socket) then (c, [])
  else if negb (isIntentionallyClosingRef c) && negb wasClean then
    let delay := Qmin (reconnectDelayRef c) RECONNECT_DELAY_MAX in
    (mkClient sig_connecting (peers c) None (Some (timersSet c))
              (reconnectDelayRef c * 1.5)%Q (isIntentionallyClosingRef c)
              (identityKeyRef c) (created c) (S (timersSet c))
              (pending c ++ [timersSet c]),
     [SetTimeout (timersSet c) delay])
  else
    (mkClient sig_closed [] None (reconnectTimeoutRef c)
              (reconnectDelayRef c) (isIntentionallyClosingRef c)
              (identityKeyRef c) (created c) (timersSet c) (pending c),
     [OnPeersUpdate []]).

Definition handleError (socket : Socket) (c : Client)
  : Client * list Effect :=
  if bool_decide (socketRef c ≠ Some socket) then (c, [])
  else if negb (isIntentionallyClosingRef c) then (withState c sig_error, [])
  else (c, []).

Definition handleMessage (i : Identity) (socket : Socket) (frame : Frame)
    (c : Client) : Client * list Effect :=
  if bool_decide (socketRef c ≠ Some socket) then (c, [])
  else let '(next, out) := dispatch (id_deviceId i) frame (peers c) in
       (withPeers c next, out).

(** The callback of the reconnect timer: it runs only if the timer is still
    pending, and calls [connect]. *)
Definition onTimeout (readyState : Socket → WsState) (timer : nat)
    (c : Client) : Client * list Effect :=
  if bool_decide (timer ∈ pending c) then
    connect readyState
      (mkClient (state c) (peers c) (socketRef c) (reconnectTimeoutRef c)
                (reconnectDelayRef c) (isIntentionallyClosingRef c)
                (identityKeyRef c) (created c) (timersSet c)
                (filter (λ t, t ≠ timer) (pending c)))
  else (c, []).

Definition identityKey (i : Identity) : string :=
  id_roomId i +:+ "-" +:+ id_deviceId i.

(** [socket.close(1000, ...)], done for an [OPEN] socket only. *)
Definition closeIfOpen (readyState : Socket → WsState) (s : Socket)
  : list Effect :=
  match readyState s with
  | WS_OPEN => [SocketClose s]
  | _ => []
  end.

(** The body of the connection lifecycle effect. *)
Definition lifecycleEffect (readyState : Socket → WsState) (i : Identity)
    (c : Client) : Client * list Effect :=
  let identityChanged :=
    negb (bool_decide (identityKeyRef c = Some (identityKey i))) in
  let c0 :=
    mkClient (state c) (peers c) (socketRef c) (reconnectTimeoutRef c)
             (reconnectDelayRef c) (isIntentionallyClosingRef c)
             (Some (identityKey i)) (created c) (timersSet c) (pending c) in
  let '(c1, out1) :=
    match socketRef c0 with
    | Some oldSocket =>
      if identityChanged
      then (withSocket (withClosing c0 true) None,
            closeIfOpen readyState oldSocket)
      else (c0, [])
    | None => (c0, [])
    end in
  let '(c2, out2) := connect readyState (withClosing c1 false) in
  (c2, out1 ++ out2).

(** The cleanup function the effect returns. *)
Definition lifecycleCleanup (readyState : Socket → WsState) (c : Client)
  : Client * list Effect :=
  let c0 := withClosing c true in
  let '(c1, out1) :=
    match reconnectTimeoutRef c0 with
    | Some t =>
      (mkClient (state c0) (peers c0) (socketRef c0) None
                (reconnectDelayRef c0) (isIntentionallyClosingRef c0)
                (identityKeyRef c0) (created c0) (timersSet c0)
                (filter (λ t', t' ≠ t) (pending c0)),
       [ClearTimeout t])
    | None => (c0, [])
    end in
  match socketRef c1 with
  | Some socket => (withSocket c1 None, out1 ++ closeIfOpen readyState socket)
  | None => (c1, out1)
  end.

(** [sendSignal(to, signalType, payload)] *)
Definition sendSignal (readyState : Socket → WsState) (i : Identity)
    (to signalType payload : JsStr) (c : Client) : list Effect :=
  match socketRef c with
  | Some s =>
    match readyState s with
    | WS_OPEN =>
      [SocketSend s (Signal (mkSignal (Some (id_roomId i))
                                      (Some (id_deviceId i))
                                      to signalType payload))]
    | _ => []
    end
  | None => []
  end.

(** What can happen to a mounted hook.  React runs the cleanup of an effect
    and then its body in one step when it re-runs the effect. *)
Inductive Event :=
| Opened (socket : Socket)
| Closed (socket : Socket) (wasClean : bool)
| Errored (socket : Socket)
| Received (socket : Socket) (frame : Frame)
| TimerFired (timer : nat)
| EffectRerun
| Unmounted.

Definition step (readyState : Socket → WsState) (i : Identity) (ev : Event)
    (c : Client) : Client * list Effect :=
  match ev with
  | Opened s => handleOpen i s c
  | Closed s wasClean => handleClose s wasClean c
  | Errored s => handleError s c
  | Received s frame => handleMessage i s frame c
  | TimerFired t => onTimeout readyState t c
  | EffectRerun =>
    let '(c1, out1) := lifecycleCleanup readyState c in
    let '(c2, out2) := lifecycleEffect readyState i c1 in
    (c2, out1 ++ out2)
  | Unmounted => lifecycleCleanup readyState c
  end.

(** A run: every event comes with the [readyState] the browser reports while
    its handler runs. *)
Fixpoint run (i : Identity) (evs : list ((Socket → WsState) * Event))
    (c : Client) : Client * list Effect :=
  match evs with
  | [] => (c, [])
  | (rs, ev) :: evs' =>
    let '(c1, out1) := step rs i ev c in
    let '(c2, out2) := run i evs' c1 in
    (c2, out1 ++ out2)
  end.

(** The hook after its first render: the effect body has run once. *)
Definition mounted (i : Identity) : Client :=
  (lifecycleEffect (λ _, WS_CONNECTING) i initial).1.

End Signaling.

(** ** Statements about the signaling client *)

Module SignalingProps.
Import Relay Signaling.

(** The presence list a client with id [localId] holds after the frames
    [frames] arrived on its socket. *)
Definition peersAfter (localId : string) (frames : list Frame) : list Device :=
  foldl (λ ps frame, (dispatch localId frame ps).1) [] frames.

(** The frames the relay sent to [ws], in order. *)
Definition delivered (ws : Socket) (out : list Sent) : list Frame :=
  (filter (λ e : Sent, e.1 = ws) out).*2.

(** The sockets that send a join frame, in order. *)
Definition joiners (evs : list Relay.Event) : list Socket :=
  omap (λ ev, match ev with
              | Message ws (Join _) => Some ws
              | _ => None
              end) evs.

(** The delay of the reconnect timer after [k] failed attempts in a row. *)
Definition retryDelay (k : nat) : Q :=
  Qmin (1000 * (3 # 2) ^ Z.of_nat k)%Q 10000%Q.

(** The current socket drops without a clean close and the reconnect timer
    fires. *)
Definition dropAndRetry (readyState : Socket → WsState) (c : Client)
  : Client * list Effect :=
  match socketRef c with
  | Some s =>
    let '(c1, out1) := handleClose s false c in
    match reconnectTimeoutRef c1 with
    | Some t =>
      let '(c2, out2) := onTimeout readyState t c1 in (c2, out1 ++ out2)
    | None => (c1, out1)
    end
  | None => (c, [])
  end.

(** The timer delays among the effects. *)
Definition delaysOf (out : list Effect) : list Q :=
  omap (λ e, match e with SetTimeout _ d => Some d | _ => None end) out.

(** What holds of the hook at all times: the current socket is the one made
    last; a reconnect timer is pending only while there is no current
    socket, it is the only one, and [reconnectTimeoutRef] names it; the
    stored delay is at least the initial one. *)
Definition coherent (c : Client) : Prop :=
  (∀ s, socketRef c = Some s → S s = created c)
  ∧ (pending c = []
     ∨ (socketRef c = None
        ∧ ∃ t, pending c = [t] ∧ reconnectTimeoutRef c = Some t))
  ∧ (RECONNECT_DELAY_INITIAL <= reconnectDelayRef c)%Q.

(** A delay the reconnect timer may be set to. *)
Definition inRange (d : Q) : Prop :=
  (RECONNECT_DELAY_INITIAL <= d)%Q ∧ (d <= RECONNECT_DELAY_MAX)%Q.

(** The hook after [k] failed attempts in a row. *)
Definition afterFailures (readyState : Socket → WsState) (k : nat)
    (c : Client) : Client :=
  Nat.iter k (λ c', (dropAndRetry readyState c').1) c.

(** The socket an event is about, if any. *)
Definition eventSocket (ev : Signaling.Event) : option Socket :=
  match ev with
  | Opened s | Closed s _ | Errored s | Received s _ => Some s
  | _ => None
  end.

End SignalingProps.

(** ** Statements that relate the relay and its clients *)

Module MirrorProps.
Import Relay Signaling SignalingProps.

(** A socket is in the socket set of the room its connection joined
    only. *)
Definition homed (st : Server) : Prop :=
  ∀ r room ws, rooms st !! r = Some room → ws ∈ sockets room →
    connRoomId st !! ws = Some (Some r : JsStr).

(** The presence list of [ws], known to the relay as device [d] of [room],
    built from the frames in [log], holds the directory of [room] without
    [d]. *)
Definition mirrors (room : Room) (ws : Socket) (d : string)
    (log : list Sent) : Prop :=
  let ps := peersAfter d (delivered ws log) in
  NoDup (deviceId <$> ps)
  ∧ ∀ dev, dev ∈ ps ↔ ∃ k, devices room !! k = Some dev ∧ k ≠ d.

Definition mirrored (st : Server) (log : list Sent) : Prop :=
  ∀ r room ws d, rooms st !! r = Some room →
    socketToDeviceId room !! ws = Some d → mirrors room ws d log.

(** The frames that carry presence. *)
Definition isPresence (f : Frame) : bool :=
  match f with
  | PeersSync _ _ | PeerJoined _ _ | PeerLeft _ _ => true
  | _ => false
  end.

End MirrorProps.

(** ** The room id of a page ([App.jsx]) *)

Module App.

(** [ToInt32]: the value modulo 2^32, taken in the signed 32-bit range. *)
Definition toInt32 (z : Z) : Z :=
  ((z + 2147483648) mod 4294967296 - 2147483648)%Z.

(** [key.charCodeAt(i)] for every position of [key].  The key is the origin
    and the path of the page's URL, which are ASCII. *)
Fixpoint charCodes (key : string) : list Z :=
  match key with
  | EmptyString => []
  | String a rest => Z.of_nat (Ascii.nat_of_ascii a) :: charCodes rest
  end.

(** One round of the loop:
    [hash = (hash << 5) - hash + key.charCodeAt(i); hash |= 0]. *)
Definition hashStep (hash code : Z) : Z :=
  toInt32 (toInt32 (Z.shiftl hash 5) - hash + code)%Z.

Definition hashOf (key : string) : Z := foldl hashStep 0%Z (charCodes key).

(** [deriveRoomId()] for the page whose origin and path make [key]. *)
Definition deriveRoomId (key : string) : string :=
  "room-" +:+ pretty (Z.abs (hashOf key)).

(** The identity [App] hands to its hooks, given what the page and the
    local storage hold. *)
Definition identityOf (key deviceId deviceName color : string)
  : Signaling.Identity :=
  Signaling.mkIdentity deviceId deviceName color (deriveRoomId key).

End App.

(** ** Statements about the room id *)

Module AppProps.

(** The value of the polynomial with the character codes as coefficients
    at 31, by Horner's rule. *)
Definition horner31 (codes : list Z) : Z :=
  foldl (λ acc code, 31 * acc + code)%Z 0%Z codes.

End AppProps.

(** ** More sample inputs *)

Module MoreSamples.

(** Two files sent back to back, the second one empty and held up once by
    congestion. *)
Definition twoJobs
    : list (Transfer.TransferId * Transfer.File * list Transfer.Observation) :=
  [(Transfer.Tx 7 1, Samples.abc, [Samples.drained]);
   (Transfer.Tx 7 2, Samples.noBytes, [Samples.congested; Samples.drained])].

(** A transfer of ten bytes is announced by p; two of its bytes arrive as
    an [ArrayBuffer] and one more as a [Blob]. *)
Definition partialReceive : list Transfer.Call :=
  [Transfer.CallMessage "p"
     (Transfer.FileMeta (Transfer.Tx 0 1) "first" 10 EmptyString "p");
   Transfer.CallMessage "p" (Transfer.Chunk [Byte.x61; Byte.x62]);
   Transfer.CallMessage "p" (Transfer.BlobChunk [Byte.x63])].

(** The assembly that [partialReceive] leaves: three bytes held, two
    counted. *)
Definition partialAssembly : Transfer.Incoming :=
  Transfer.mkIncoming "p" "first" 10 EmptyString 2
                      [[Byte.x61; Byte.x62]; [Byte.x63]].

(** A second file with the name of [Samples.abc] and other bytes. *)
Definition abcAgain : Transfer.File :=
  Transfer.mkFile 5 "a.txt" "text/plain" [Byte.x7a].

End MoreSamples.

(** * Proofs *)

Lemma truthy_Some (v : JsStr) :
  truthy v = true ↔ ∃ s, v = Some s ∧ s ≠ EmptyString.
Proof.
  destruct v as [s|]; simpl.
  - rewrite negb_true_iff, bool_decide_eq_false. split.
    + intros Hs. exists s. by split.
    + intros (s' & [= <-] & Hs). exact Hs.
  - split; [done | by intros (s & ? & _)].
Qed.

Lemma truthy_Some_ne (s : string) : s ≠ EmptyString → truthy (Some s) = true.
Proof. intros Hs. apply truthy_Some. by exists s. Qed.

Section RelayProofs.
Import Relay.

(** The [signal] branch never changes the server state. *)
Lemma step_signal_state rs ws m st :
  (step rs (Message ws (Signal m)) st).1 = st.
Proof. reflexivity. Qed.

Lemma onSignal_no_from rs ws c m rms :
  truthy (s_from m) = false → onSignal rs ws c m rms = [].
Proof.
  intros Hf. unfold onSignal.
  destruct (js_or (s_roomId m) c) as [r|]; [|done].
  destruct (s_to m) as [to|]; [|done].
  destruct (s_from m) as [from|]; [|done].
  rewrite Hf. simpl. by rewrite !orb_true_r.
Qed.

(** C10: a [signal] frame whose [from] is missing or empty is dropped:
    the server state is unchanged and no frame is sent to anyone, whatever
    the room and the target are. *)
Theorem signal_without_from_is_dropped rs ws st m :
  truthy (s_from m) = false →
  step rs (Message ws (Signal m)) st = (st, []).
Proof.
  intros Hf. simpl. by rewrite onSignal_no_from.
Qed.

(** Witness for C10: in a room where the target b is present, an
    anonymous signal to b produces nothing. *)
Lemma signal_without_from_is_dropped_witness :
  truthy (s_from (Samples.anonymousSignal "b")) = false
  ∧ (room ← rooms Samples.twoPeers !! "R"; devices room !! "b")
    = Some (mkDevice "b" None None)
  ∧ step allOpen (Message 1 (Signal (Samples.anonymousSignal "b")))
         Samples.twoPeers
    = (Samples.twoPeers, []).
Proof.
  split; [reflexivity|]. split; [vm_compute; reflexivity|].
  apply (signal_without_from_is_dropped allOpen 1 Samples.twoPeers
           (Samples.anonymousSignal "b")).
  reflexivity.
Defined.

(** [onSignal] once its guard is passed. *)
Lemma onSignal_guarded rs ws c m rms r room to from :
  s_from m = Some from → from ≠ EmptyString →
  s_to m = Some to → to ≠ EmptyString →
  js_or (s_roomId m) c = Some r → r ≠ EmptyString →
  rms !! r = Some room →
  onSignal rs ws c m rms =
    match devices room !! to with
    | None => if isOpen rs ws then [(ws, SignalError to (s_signalType m))] else []
    | Some _ =>
      (λ e : Socket * string,
         (e.1, SignalFwd r from to (s_signalType m) (s_payload m)))
        <$> filter (λ e : Socket * string, e.2 = to ∧ isOpen rs e.1 = true)
              (map_to_list (socketToDeviceId room))
    end.
Proof.
  intros Hfrom Hf Hto Ht Hr Hrne Hroom. unfold onSignal.
  rewrite Hr, Hto, Hfrom, Hroom.
  rewrite (truthy_Some_ne r Hrne), (truthy_Some_ne to Ht),
    (truthy_Some_ne from Hf).
  rewrite bool_decide_eq_true_2 by eauto. reflexivity.
Qed.

(** The frames of a broadcast over the entries of a finite map are pairwise
    distinct, because the sockets are. *)
Lemma NoDup_forward {A} (f : Relay.Frame) (P : Socket * A → Prop)
    `{∀ e, Decision (P e)} (m : gmap Socket A) :
  NoDup ((λ e : Socket * A, (e.1, f)) <$> filter P (map_to_list m)).
Proof.
  apply (NoDup_fmap_1 fst).
  rewrite <- list_fmap_compose.
  change (fst ∘ (λ e : Socket * A, (e.1, f))) with (fst (A:=Socket) (B:=A)).
  eapply sublist_NoDup; [apply (NoDup_fst_map_to_list m)|].
  apply fmap_sublist, sublist_filter.
Qed.

Lemma onSignal_no_to rs ws c m rms :
  truthy (s_to m) = false → onSignal rs ws c m rms = [].
Proof.
  intros Ht. unfold onSignal.
  destruct (js_or (s_roomId m) c) as [r|]; [|done].
  destruct (s_to m) as [to|]; [|done].
  destruct (s_from m) as [from|]; [|done].
  rewrite Ht. simpl. by rewrite orb_true_r.
Qed.

(** C4, amended: a [signal] frame never changes the server state.  A frame
    whose [from] or [to] is missing or empty is dropped: nothing is sent
    to anyone, whatever the room and the directory hold.  A frame that
    names a sender and a target and is addressed to a registered room is
    answered as follows.  If the target is not in the room's directory,
    the sender gets exactly one [signal-error] (when its socket is open)
    and nothing is forwarded.  If it is, every open socket mapped to the
    target gets the frame exactly once, and nothing else is sent. *)
Theorem signal_forwarding rs ws st m :
  let res := step rs (Message ws (Signal m)) st in
  res.1 = st
  ∧ (truthy (s_from m) = false ∨ truthy (s_to m) = false → res.2 = [])
  ∧ ∀ r room to from,
      s_from m = Some from → from ≠ EmptyString →
      s_to m = Some to → to ≠ EmptyString →
      js_or (s_roomId m) (roomIdOf st ws) = Some r → r ≠ EmptyString →
      rooms st !! r = Some room →
      (devices room !! to = None →
         res.2 = if isOpen rs ws
                 then [(ws, SignalError to (s_signalType m))] else [])
      ∧ (is_Some (devices room !! to) →
         NoDup res.2
         ∧ ∀ s f, (s, f) ∈ res.2 ↔
             socketToDeviceId room !! s = Some to ∧ isOpen rs s = true
             ∧ f = SignalFwd r from to (s_signalType m) (s_payload m)).
Proof.
  cbv zeta. split; [reflexivity|]. split.
  - cbn [step snd].
    intros [Hf|Ht]; [by apply onSignal_no_from | by apply onSignal_no_to].
  - intros r room to from Hfrom Hf Hto Ht Hr Hrne Hroom. cbn [step snd].
    rewrite (onSignal_guarded rs ws _ m _ r room to from) by done.
    split.
    + intros ->. reflexivity.
    + intros [dev ->]. split; [apply NoDup_forward|].
      intros s f. rewrite list_elem_of_fmap. split.
      * intros ([s' d'] & [= -> ->] & Hin).
        apply list_elem_of_filter in Hin as [[Hd Ho] Hin]. simpl in *.
        apply elem_of_map_to_list in Hin. by subst.
      * intros (Hs & Ho & ->). exists (s, to). split; [done|].
        apply list_elem_of_filter. split; [done|].
        by apply elem_of_map_to_list.
Qed.

(** Witness for C4 in the room of devices a and b: a signal from a to the
    absent device ghost is answered with one [signal-error] to the sender;
    a signal from a to b reaches exactly the socket of b; a signal from a
    with an empty target is dropped, and so is one to b without sender. *)
Lemma signal_forwarding_witness :
  rooms Samples.twoPeers !! "R" = Some Samples.roomR
  ∧ devices Samples.roomR !! "ghost" = None
  ∧ (step allOpen (Message 1 (Signal (Samples.signalFromTo "a" "ghost")))
          Samples.twoPeers).2
    = [(1, SignalError "ghost" (Some "offer"))]
  ∧ (∀ s f,
       (s, f) ∈ (step allOpen (Message 1 (Signal (Samples.signalFromTo "a" "b")))
                      Samples.twoPeers).2
       ↔ socketToDeviceId Samples.roomR !! s = Some "b"
         ∧ isOpen allOpen s = true
         ∧ f = SignalFwd "R" "a" "b" (Some "offer") (Some "sdp"))
  ∧ (step allOpen
          (Message 1 (Signal (Samples.signalFromTo "a" EmptyString)))
          Samples.twoPeers).2 = []
  ∧ (step allOpen (Message 1 (Signal (Samples.anonymousSignal "b")))
          Samples.twoPeers).2 = [].
Proof.
  assert (Hroom : rooms Samples.twoPeers !! "R" = Some Samples.roomR)
    by (vm_compute; reflexivity).
  assert (Hghost : devices Samples.roomR !! "ghost" = None)
    by (vm_compute; reflexivity).
  assert (Hb : is_Some (devices Samples.roomR !! "b"))
    by (vm_compute; eexists; reflexivity).
  split; [exact Hroom|]. split; [exact Hghost|]. split; [|split; [|split]].
  - exact (proj1 (proj2 (proj2
             (signal_forwarding allOpen 1 Samples.twoPeers
                (Samples.signalFromTo "a" "ghost")))
             "R" Samples.roomR "ghost" "a" eq_refl ltac:(discriminate)
             eq_refl ltac:(discriminate) eq_refl ltac:(discriminate) Hroom)
           Hghost).
  - exact (proj2 (proj2 (proj2 (proj2
             (signal_forwarding allOpen 1 Samples.twoPeers
                (Samples.signalFromTo "a" "b")))
             "R" Samples.roomR "b" "a" eq_refl ltac:(discriminate)
             eq_refl ltac:(discriminate) eq_refl ltac:(discriminate) Hroom)
           Hb)).
  - exact (proj1 (proj2
             (signal_forwarding allOpen 1 Samples.twoPeers
                (Samples.signalFromTo "a" EmptyString)))
             (or_intror eq_refl)).
  - exact (proj1 (proj2
             (signal_forwarding allOpen 1 Samples.twoPeers
                (Samples.anonymousSignal "b")))
             (or_introl eq_refl)).
Defined.

(** C4 as worded fails: a signal frame without [from], addressed to a
    device that is not in the room, gets no [signal-error]. *)
Lemma signal_claim_fails : ¬ Stated.signal_claim.
Proof.
  intros H.
  destruct (H allOpen 1 Samples.twoPeers (Samples.anonymousSignal "ghost")
              "R" Samples.roomR "ghost") as [Herr _];
    [reflexivity | vm_compute; reflexivity | reflexivity |].
  specialize (Herr ltac:(vm_compute; reflexivity)).
  vm_compute in Herr. discriminate Herr.
Qed.

(** [cleanupSocket] for a connection whose [roomId] names a registered
    room, as the pair of the new registry and the frames sent. *)
Lemma cleanupSocket_registered rs ws r room rms :
  r ≠ EmptyString → rms !! r = Some room →
  cleanupSocket rs ws (Some r) rms =
    (let sockets' := sockets room ∖ {[ws]} in
     let devices' :=
       match socketToDeviceId room !! ws with
       | Some d =>
         if truthy (Some d) && bool_decide (is_Some (devices room !! d))
         then delete d (devices room) else devices room
       | None => devices room
       end in
     if bool_decide (size sockets' = 0) then delete r rms
     else <[r := mkRoom devices' sockets'
                   (delete ws (socketToDeviceId room))]> rms,
     match socketToDeviceId room !! ws with
     | Some d =>
       if truthy (Some d) && bool_decide (is_Some (devices room !! d))
       then (λ client, (client, PeerLeft d r))
              <$> filter (λ client, isOpen rs client = true)
                    (elements (sockets room ∖ {[ws]}))
       else []
     | None => []
     end).
Proof.
  intros Hr Hroom. unfold cleanupSocket.
  rewrite (truthy_Some_ne r Hr), Hroom. cbn [negb].
  destruct (socketToDeviceId room !! ws) as [d|];
    [destruct (truthy (Some d) && bool_decide (is_Some (devices room !! d)))|];
    cbv zeta; by case_bool_decide.
Qed.

(** C5, at the failing input: sockets 1 and 2 join room R with the same
    device id d, socket 3 joins as e, and socket 1 disconnects.  Socket 2
    still maps to d and socket 3 is still in the room, yet the disconnect
    of socket 2 sends nothing: socket 3 gets no [peer-left] for d.  So the
    departure claim does not hold of the relay. *)
Theorem departure_claim_fails :
  socketToDeviceId Samples.roomAfterFirstLeft !! 2 = Some "d"
  ∧ 3 ∈ sockets Samples.roomAfterFirstLeft
  ∧ (step allOpen (Close 2) Samples.afterFirstLeft).2 = []
  ∧ ¬ Stated.departure_claim.
Proof.
  assert (H3 : 3 ∈ sockets Samples.roomAfterFirstLeft)
    by (refine (bool_decide_unpack _ _); vm_compute; exact I).
  split; [vm_compute; reflexivity|]. split; [exact H3|].
  split; [vm_compute; reflexivity|].
  intros H.
  destruct (H (Samples.sharedDevice ++ [Close 1]) 2 "R"
              Samples.roomAfterFirstLeft "d") as [Hn _].
  - vm_compute. reflexivity.
  - refine (bool_decide_unpack _ _). vm_compute. exact I.
  - vm_compute. reflexivity.
  - specialize (Hn 3 H3 ltac:(discriminate)).
    vm_compute in Hn. discriminate Hn.
Qed.

(** C2, at the failing input: two sockets join room R with the same
    device id and the first one disconnects.  The second socket still maps
    to the device id, which is no longer in the directory, so the room
    invariant does not hold in the state reached. *)
Theorem room_invariant_broken :
  socketToDeviceId Samples.roomAfterFirstLeft !! 2 = Some "d"
  ∧ devices Samples.roomAfterFirstLeft !! "d" = None
  ∧ ¬ Stated.room_invariant Samples.afterFirstLeft.
Proof.
  split; [vm_compute; reflexivity|]. split; [vm_compute; reflexivity|].
  intros H.
  destruct (H "R" Samples.roomAfterFirstLeft) as [Hd _];
    [vm_compute; reflexivity|].
  destruct (proj2 (Hd "d")) as [dev Hdev].
  - exists 2. vm_compute. reflexivity.
  - vm_compute in Hdev. discriminate Hdev.
Qed.

(** The socket part of the invariant holds initially and is kept by every
    event. *)
Lemma socket_invariant_init : Stated.socket_invariant init.
Proof. intros r room Hr. simpl in Hr. by rewrite lookup_empty in Hr. Qed.

Lemma getOrCreateRoom_lookup r rms :
  (getOrCreateRoom r rms).1 !! r = Some (getOrCreateRoom r rms).2
  ∧ (∀ r', r' ≠ r → (getOrCreateRoom r rms).1 !! r' = rms !! r')
  ∧ (rms !! r = Some (getOrCreateRoom r rms).2
     ∨ (getOrCreateRoom r rms).2 = emptyRoom).
Proof.
  unfold getOrCreateRoom. destruct (rms !! r) as [room|] eqn:Hr; simpl.
  - auto.
  - rewrite lookup_insert_eq. split; [done|]. split; [|by right].
    intros r' Hne. by rewrite lookup_insert_ne.
Qed.

Lemma onJoin_rooms rs ws m rms r :
  j_roomId m = Some r → r ≠ EmptyString →
  ∃ room',
    (onJoin rs ws m rms).1.2 = <[r := room']> (getOrCreateRoom r rms).1
    ∧ sockets room' = {[ws]} ∪ sockets (getOrCreateRoom r rms).2
    ∧ (socketToDeviceId room' = socketToDeviceId (getOrCreateRoom r rms).2
       ∨ ∃ d, socketToDeviceId room'
              = <[ws := d]> (socketToDeviceId (getOrCreateRoom r rms).2)).
Proof.
  intros Hr Hne. unfold onJoin. rewrite Hr, (truthy_Some_ne r Hne).
  cbn [negb]. destruct (getOrCreateRoom r rms) as [rms1 room].
  destruct (j_deviceId m) as [d|]; [destruct (truthy (Some d))|];
    eexists; (split; [reflexivity|]); (split; [reflexivity|]); eauto.
Qed.

Lemma onJoin_rooms_dropped rs ws m rms :
  truthy (j_roomId m) = false → (onJoin rs ws m rms).1.2 = rms.
Proof.
  intros Hr. unfold onJoin. destruct (j_roomId m) as [r|]; [|done].
  by rewrite Hr.
Qed.

Lemma socket_invariant_step rs ev st :
  Stated.socket_invariant st → Stated.socket_invariant (step rs ev st).1.
Proof.
  intros Hinv. destruct ev as [ws [m| m | |]|ws]; try exact Hinv;
    try apply socket_invariant_init.
  - (* join *)
    assert (Hrooms : rooms (step rs (Message ws (Join m)) st).1
                     = (onJoin rs ws m (rooms st)).1.2).
    { simpl. by destruct (onJoin rs ws m (rooms st)) as [[? ?] ?]. }
    intros r' room'. rewrite Hrooms.
    destruct (truthy (j_roomId m)) eqn:Ht.
    + apply truthy_Some in Ht as (r & Hr & Hne).
      destruct (onJoin_rooms rs ws m (rooms st) r Hr Hne)
        as (new & -> & Hsock & Hs2d).
      destruct (getOrCreateRoom_lookup r (rooms st)) as (_ & Hother & Hold).
      destruct (decide (r' = r)) as [->|Hneq].
      * rewrite lookup_insert_eq. intros [= <-].
        assert (Hdom : dom (socketToDeviceId (getOrCreateRoom r (rooms st)).2)
                       ⊆ sockets (getOrCreateRoom r (rooms st)).2).
        { destruct Hold as [Hold| ->]; [by apply (Hinv r)|].
          simpl. rewrite dom_empty_L. set_solver. }
        split; [|rewrite Hsock; set_solver].
        rewrite Hsock. destruct Hs2d as [->|[d ->]].
        -- set_solver.
        -- rewrite dom_insert_L. set_solver.
      * rewrite lookup_insert_ne, Hother by done. apply Hinv.
    + rewrite onJoin_rooms_dropped by done. apply Hinv.
  - (* close *)
    assert (Hrooms : rooms (step rs (Close ws) st).1
                     = (cleanupSocket rs ws (roomIdOf st ws) (rooms st)).1).
    { simpl. by destruct (cleanupSocket rs ws (roomIdOf st ws) (rooms st)). }
    intros r' room'. rewrite Hrooms.
    destruct (roomIdOf st ws) as [r|] eqn:Hc; [|apply Hinv].
    destruct (decide (r = EmptyString)) as [->|Hne]; [apply Hinv|].
    destruct (rooms st !! r) as [room|] eqn:Hroom.
    + rewrite (cleanupSocket_registered rs ws r room) by done.
      cbv zeta. cbn [fst]. case_bool_decide as Hsz.
      * intros Hl. apply lookup_delete_Some in Hl as [_ Hl]. exact (Hinv r' room' Hl).
      * destruct (decide (r' = r)) as [->|Hneq].
        -- rewrite lookup_insert_eq. intros [= <-]. cbn [sockets socketToDeviceId].
           destruct (Hinv r room Hroom) as [Hdom _]. split.
           ++ rewrite dom_delete_L. set_solver.
           ++ intros He. apply Hsz. by rewrite He, size_empty.
        -- rewrite lookup_insert_ne by done. apply Hinv.
    + unfold cleanupSocket. rewrite (truthy_Some_ne r Hne), Hroom. apply Hinv.
Qed.

(** In every state the server can reach, whatever the events and the
    sockets' ready states, every mapped socket is in [sockets] and every
    registered room has a socket. *)
Lemma socket_invariant_reachable rs evs st :
  Stated.socket_invariant st → Stated.socket_invariant (run rs evs st).1.
Proof.
  revert st. induction evs as [|ev evs IH]; intros st Hinv; [done|].
  simpl. destruct (step rs ev st) as [st1 out1] eqn:Hstep.
  specialize (IH st1). destruct (run rs evs st1) as [st2 out2]. simpl in *.
  apply IH. change st1 with (st1, out1).1. rewrite <- Hstep.
  by apply socket_invariant_step.
Qed.

End RelayProofs.

Section PeersProofs.
Import Peers.

Lemma js_lt_irrefl a : js_lt a a = false.
Proof.
  induction a as [|x a IH]; [done|]. simpl.
  by rewrite Nat.ltb_irrefl.
Qed.

Lemma js_lt_asym a b : js_lt a b = true → js_lt b a = false.
Proof.
  revert b. induction a as [|x a IH]; intros [|y b]; simpl; try done.
  destruct (Ascii.nat_of_ascii x <? Ascii.nat_of_ascii y) eqn:Hxy.
  - intros _. apply Nat.ltb_lt in Hxy.
    destruct (Ascii.nat_of_ascii y <? Ascii.nat_of_ascii x) eqn:Hyx; [|done].
    apply Nat.ltb_lt in Hyx. lia.
  - destruct (Ascii.nat_of_ascii y <? Ascii.nat_of_ascii x); [done|]. apply IH.
Qed.

Lemma nat_of_ascii_inj x y :
  Ascii.nat_of_ascii x = Ascii.nat_of_ascii y → x = y.
Proof.
  intros H. rewrite <- (Ascii.ascii_nat_embedding x),
    <- (Ascii.ascii_nat_embedding y). by rewrite H.
Qed.

Lemma js_lt_total a b : a ≠ b → js_lt a b = true ∨ js_lt b a = true.
Proof.
  revert b. induction a as [|x a IH]; intros [|y b] Hne; simpl; auto.
  destruct (Ascii.nat_of_ascii x <? Ascii.nat_of_ascii y) eqn:Hxy; [auto|].
  destruct (Ascii.nat_of_ascii y <? Ascii.nat_of_ascii x) eqn:Hyx; [auto|].
  apply Nat.ltb_ge in Hxy, Hyx.
  assert (x = y) as -> by (apply nat_of_ascii_inj; lia).
  apply IH. congruence.
Qed.

Lemma js_lt_nonempty a b : js_lt a b = true → b ≠ EmptyString.
Proof. destruct a, b; simpl; congruence. Qed.

(** C7: for two distinct device ids exactly one side is the initiator, and
    the comparison of the two ids alone decides which.  Seen from the
    smaller id, a peer with which no connection exists or is being made is
    sent the connection, the data channel and the offer; seen from the
    larger id, the effect does nothing in any state. *)
Theorem initiator_selection (a b : string) (fresh : nat) (h : Hook) :
  a ≠ b →
  ((iAmInitiator a b = true ∧ iAmInitiator b a = false)
   ∨ (iAmInitiator a b = false ∧ iAmInitiator b a = true))
  ∧ (js_lt a b = true →
       iAmInitiator a b = true
       ∧ initiateTo b fresh (Some a) h = (h, [])
       ∧ (b ∉ peerConnections h → b ∉ connectingPeers h →
          (initiateTo a fresh (Some b) h).2
          = [CreatePeerConnection b; CreateDataChannel b "files";
             CreateOffer b])).
Proof.
  intros Hne. unfold iAmInitiator. split.
  - destruct (js_lt_total a b Hne) as [H|H].
    + left. split; [done|]. by apply js_lt_asym.
    + right. split; [by apply js_lt_asym | done].
  - intros Hlt. split; [done|]. split.
    + unfold initiateTo, iAmInitiator.
      rewrite (js_lt_asym a b Hlt). simpl.
      by repeat match goal with
                | |- context [if ?c then _ else _] => destruct c
                end.
    + intros Hpc Hcp. unfold initiateTo, iAmInitiator.
      rewrite (truthy_Some_ne b (js_lt_nonempty a b Hlt)), Hlt.
      rewrite (bool_decide_eq_false_2 (b = a)) by congruence.
      by rewrite !bool_decide_eq_false_2.
Qed.

Lemma initiator_selection_witness :
  "alpha" ≠ "beta"
  ∧ ((iAmInitiator "alpha" "beta" = true ∧ iAmInitiator "beta" "alpha" = false)
     ∨ (iAmInitiator "alpha" "beta" = false
        ∧ iAmInitiator "beta" "alpha" = true))
  ∧ (js_lt "alpha" "beta" = true →
       iAmInitiator "alpha" "beta" = true
       ∧ initiateTo "beta" 0 (Some "alpha") emptyHook = (emptyHook, [])
       ∧ ("beta" ∉ peerConnections emptyHook →
          "beta" ∉ connectingPeers emptyHook →
          (initiateTo "alpha" 0 (Some "beta") emptyHook).2
          = [CreatePeerConnection "beta"; CreateDataChannel "beta" "files";
             CreateOffer "beta"])).
Proof.
  split; [discriminate|].
  apply (initiator_selection "alpha" "beta" 0 emptyHook). discriminate.
Defined.

(** C9: a channel-ready notification for a peer that already has a
    registered channel changes nothing, so after any number of further
    notifications the registry still holds the first channel; for a peer
    without one the channel is registered. *)
Theorem registered_channel_is_kept (peerId : string) (c0 : Channel)
    (later : list Channel) (h : Hook) :
  dataChannels h !! peerId = Some c0 →
  (∀ channel, handleDataChannelReady peerId channel h = h)
  ∧ foldl (λ acc channel, handleDataChannelReady peerId channel acc) h later = h
  ∧ dataChannels
      (foldl (λ acc channel, handleDataChannelReady peerId channel acc) h later)
    !! peerId = Some c0.
Proof.
  intros Hc0.
  assert (Hone : ∀ channel, handleDataChannelReady peerId channel h = h).
  { intros channel. unfold handleDataChannelReady.
    by rewrite bool_decide_eq_true_2 by eauto. }
  assert (Hall : foldl (λ acc channel, handleDataChannelReady peerId channel acc)
                       h later = h).
  { induction later as [|c later IH]; [done|]. simpl. by rewrite Hone. }
  split; [done|]. split; [done|]. by rewrite Hall.
Qed.

Lemma handleDataChannelReady_registers peerId channel h :
  dataChannels h !! peerId = None →
  dataChannels (handleDataChannelReady peerId channel h) !! peerId
  = Some channel.
Proof.
  intros Hn. unfold handleDataChannelReady.
  rewrite bool_decide_eq_false_2 by (rewrite Hn; by intros [? ?]).
  simpl. apply lookup_insert_eq.
Qed.

Lemma registered_channel_is_kept_witness :
  let c0 := mkChannel 0 "files" ch_connecting in
  let c1 := mkChannel 1 "files" ch_open in
  let h := handleDataChannelReady "p" c0 emptyHook in
  dataChannels h !! "p" = Some c0
  ∧ (∀ channel, handleDataChannelReady "p" channel h = h)
  ∧ foldl (λ acc channel, handleDataChannelReady "p" channel acc) h [c1; c0] = h
  ∧ dataChannels
      (foldl (λ acc channel, handleDataChannelReady "p" channel acc) h [c1; c0])
    !! "p" = Some c0.
Proof.
  split; [vm_compute; reflexivity|].
  apply (registered_channel_is_kept "p" (mkChannel 0 "files" ch_connecting)).
  vm_compute. reflexivity.
Defined.

End PeersProofs.

Section TransferProofs.
Import Transfer.

Lemma CHUNK_SIZE_pos : 0 < CHUNK_SIZE.
Proof. unfold CHUNK_SIZE. lia. Qed.

#[local] Opaque CHUNK_SIZE.

Lemma framesOf_app effs1 effs2 :
  framesOf (effs1 ++ effs2) = framesOf effs1 ++ framesOf effs2.
Proof. apply omap_app. Qed.

(** *** Backpressure *)

Lemma sendChunk_above file id offset buffered :
  (HIGH_WATER < buffered)%N →
  sendChunk file id offset buffered = ([SetTimeout POLL_MS], PollAgain).
Proof.
  intros Hb. unfold sendChunk.
  by rewrite (proj2 (N.ltb_lt _ _) Hb).
Qed.

Lemma sendChunk_drained file id offset buffered :
  (buffered ≤ HIGH_WATER)%N →
  ∃ effs next,
    sendChunk file id offset buffered
    = (Send (Chunk (slice file offset (offset + CHUNK_SIZE))) :: effs, next)
    ∧ next ≠ PollAgain.
Proof.
  intros Hb. unfold sendChunk.
  rewrite (proj2 (N.ltb_ge _ _) Hb).
  destruct (offset + CHUNK_SIZE <? f_size file); eauto.
Qed.

(** C8: while the buffered amount read by [sendChunk] is above the 4 MiB
    mark, each poll sends nothing, keeps the offset and schedules the next
    poll 50 ms later; the chunk at that offset is sent by the first poll
    that reads an amount not above the mark. *)
Theorem backpressure_holds_chunks file id offset fromReader
    (above : list Observation) (o : Observation) (rest : list Observation) :
  Forall (λ x, (HIGH_WATER < o_buffered x)%N
               ∧ o_loaded x = true ∧ o_open x = true) above →
  o_loaded o = true → o_open o = true →
  (o_buffered o ≤ HIGH_WATER)%N →
  framesOf (readerLoop file id offset fromReader above) = []
  ∧ readerLoop file id offset fromReader above
    = replicate (length above) (SetTimeout 50)
  ∧ ∃ effs,
      readerLoop file id offset fromReader (above ++ o :: rest)
      = replicate (length above) (SetTimeout 50)
        ++ Send (Chunk (slice file offset (offset + CHUNK_SIZE))) :: effs.
Proof.
  intros Habove Hl Ho Hb.
  assert (Hrun : ∀ tail b,
    readerLoop file id offset b (above ++ tail)
    = replicate (length above) (SetTimeout 50)
      ++ readerLoop file id offset
           (match above with [] => b | _ => false end) tail).
  { intros tail. induction Habove as [|x above (Hx & Hxl & Hxo) _ IH];
      intros b; [done|].
    cbn [app readerLoop length replicate]. rewrite Hxl, Hxo, !andb_false_r.
    rewrite sendChunk_above by done.
    rewrite IH. cbn [app]. f_equal. f_equal. by destruct above. }
  split; [|split].
  - rewrite <- (app_nil_r above), Hrun. simpl. rewrite app_nil_r.
    clear. induction (length above); [done|]. simpl. done.
  - rewrite <- (app_nil_r above) at 1. rewrite Hrun. simpl. by rewrite app_nil_r.
  - rewrite Hrun. cbn [readerLoop]. rewrite Hl, Ho, !andb_false_r.
    destruct (sendChunk_drained file id offset (o_buffered o) Hb)
      as (effs & next & -> & Hnext).
    destruct next; [| done |]; eexists; reflexivity.
Qed.

Lemma backpressure_holds_chunks_witness :
  Forall (λ x, (HIGH_WATER < o_buffered x)%N
               ∧ o_loaded x = true ∧ o_open x = true)
         [Samples.congested; Samples.congested]
  ∧ (o_buffered Samples.atMark ≤ HIGH_WATER)%N
  ∧ framesOf (readerLoop Samples.abc (Tx 0 1) 0 true
                [Samples.congested; Samples.congested]) = []
  ∧ readerLoop Samples.abc (Tx 0 1) 0 true
      [Samples.congested; Samples.congested]
    = replicate 2 (SetTimeout 50)
  ∧ ∃ effs,
      readerLoop Samples.abc (Tx 0 1) 0 true
        ([Samples.congested; Samples.congested] ++ Samples.atMark :: [])
      = replicate 2 (SetTimeout 50)
        ++ Send (Chunk (slice Samples.abc 0 (0 + CHUNK_SIZE))) :: effs.
Proof.
  assert (Habove : Forall (λ x, (HIGH_WATER < o_buffered x)%N
                                ∧ o_loaded x = true ∧ o_open x = true)
                          [Samples.congested; Samples.congested])
    by (repeat constructor).
  split; [exact Habove|]. split; [by vm_compute|].
  apply (backpressure_holds_chunks Samples.abc (Tx 0 1) 0 true
           [Samples.congested; Samples.congested] Samples.atMark []);
    [exact Habove | reflexivity | reflexivity | by vm_compute].
Defined.

(** *** Chunk attribution *)

Lemma incomplete_test peerId state :
  bool_decide (i_peerId state = peerId)
  && (i_receivedBytes state <? i_size state) = true
  ↔ Stated.incomplete peerId state.
Proof.
  unfold Stated.incomplete.
  rewrite andb_true_iff, bool_decide_eq_true, Nat.ltb_lt. done.
Qed.

Lemma attribute_none peerId len data m :
  Forall (λ x, ¬ Stated.incomplete peerId x.2) m →
  attribute peerId len data m = (None, m).
Proof.
  induction 1 as [|[id state] m Hx _ IH]; [done|]. simpl in *.
  destruct (bool_decide (i_peerId state = peerId)
            && (i_receivedBytes state <? i_size state)) eqn:Ht.
  - by apply incomplete_test in Ht.
  - by rewrite IH.
Qed.

Lemma attribute_hit peerId len data m1 id state m2 :
  Forall (λ x, ¬ Stated.incomplete peerId x.2) m1 →
  Stated.incomplete peerId state →
  attribute peerId len data (m1 ++ (id, state) :: m2)
  = (Some id, m1 ++ (id, storeChunk len data state) :: m2).
Proof.
  intros Hm1 Hst. induction Hm1 as [|[id' state'] m1 Hx _ IH]; simpl in *.
  - by rewrite (proj2 (incomplete_test peerId state) Hst).
  - destruct (bool_decide (i_peerId state' = peerId)
              && (i_receivedBytes state' <? i_size state')) eqn:Ht.
    + by apply incomplete_test in Ht.
    + by rewrite IH.
Qed.



(** A new key is appended at the end of the map, so the insertion order is
    the order of the first announcements. *)
Lemma JsMap_set_new {V} (id : TransferId) (v : V) (m : list (TransferId * V)) :
  JsMap.get id m = None → JsMap.set id v m = m ++ [(id, v)].
Proof.
  induction m as [|[k w] m IH]; [done|]. simpl.
  destruct (decide (k = id)); [done|]. intros H. by rewrite IH.
Qed.


(** *** Chunking round trip *)

Lemma JsMap_get_app {V} (id : TransferId) (v : V) m1 m2 :
  (id ∉ m1.*1) → JsMap.get id (m1 ++ (id, v) :: m2) = Some v.
Proof.
  induction m1 as [|[k w] m1 IH]; simpl.
  - intros _. by rewrite decide_True.
  - intros Hn. apply not_elem_of_cons in Hn as [Hk Hn].
    rewrite decide_False by done. by apply IH.
Qed.

Lemma JsMap_set_split {V} (id : TransferId) (v : V) (m : list (TransferId * V)) :
  ∃ m1 m2,
    JsMap.set id v m = m1 ++ (id, v) :: m2
    ∧ (id ∉ m1.*1)
    ∧ ∀ P : TransferId * V → Prop, Forall P m → Forall P (m1 ++ m2).
Proof.
  induction m as [|[k w] m (m1 & m2 & Hset & Hn & HP)]; simpl.
  - exists [], []. split; [done|]. split; [apply not_elem_of_nil | done].
  - destruct (decide (k = id)) as [->|Hk].
    + exists [], m. split; [done|]. split; [apply not_elem_of_nil|].
      intros P HPm. simpl. by apply Forall_cons_1 in HPm as [_ ?].
    + exists ((k, w) :: m1), m2. rewrite Hset. split; [done|]. split.
      * simpl. apply not_elem_of_cons. by split.
      * intros P HPm. apply Forall_cons_1 in HPm as [? ?]. simpl.
        constructor; [done | by apply HP].
Qed.

Lemma length_slice file offset :
  length (slice file offset (offset + CHUNK_SIZE))
  = CHUNK_SIZE `min` (f_size file - offset).
Proof.
  unfold slice, f_size.
  replace (offset + CHUNK_SIZE - offset) with CHUNK_SIZE by lia.
  by rewrite length_take, length_drop.
Qed.

Lemma take_slice file offset :
  take offset (f_bytes file) ++ slice file offset (offset + CHUNK_SIZE)
  = take (offset + CHUNK_SIZE) (f_bytes file).
Proof.
  unfold slice.
  replace (offset + CHUNK_SIZE - offset) with CHUNK_SIZE by lia.
  apply take_take_drop.
Qed.

(** The [file-meta] frame starts the assembly. *)
Lemma meta_step peerId id file from e :
  Forall (λ x, ¬ Stated.incomplete peerId x.2) (incomingState e) →
  Stated.assembling peerId id file 0
    (onmessage peerId
       (FileMeta id (f_name file) (f_size file) (f_type file) from) e).1
  ∧ (onmessage peerId
       (FileMeta id (f_name file) (f_size file) (f_type file) from) e).2 = [].
Proof.
  intros Hnone. split; [|done]. simpl.
  destruct (JsMap_set_split id
              (mkIncoming peerId (f_name file) (f_size file) (f_type file) 0 [])
              (incomingState e)) as (m1 & m2 & Hset & Hn & HP).
  exists m1, (mkIncoming peerId (f_name file) (f_size file) (f_type file) 0 []), m2.
  rewrite Hset. simpl. repeat split; auto.
Qed.

(** A chunk read at [offset] extends the assembly to [offset + CHUNK_SIZE]. *)
Lemma chunk_step peerId id file offset e :
  Stated.assembling peerId id file offset e →
  offset < f_size file ∨ f_size file = 0 →
  Stated.assembling peerId id file (offset + CHUNK_SIZE)
    (onmessage peerId (Chunk (slice file offset (offset + CHUNK_SIZE))) e).1
  ∧ (onmessage peerId (Chunk (slice file offset (offset + CHUNK_SIZE))) e).2
    = [].
Proof.
  intros (m1 & state & m2 & Hm & Hn & Hothers & Hp & Hname & Hmime & Hsz
          & Hrecv & Hchunks) Hoff.
  apply Forall_app in Hothers as [Hm1 Hm2].
  destruct Hoff as [Hlt|Hzero].
  - assert (Hinc : Stated.incomplete peerId state).
    { split; [done|]. rewrite Hrecv, Hsz. lia. }
    unfold onmessage. rewrite Hm, attribute_hit by done.
    split; [|done]. cbn [fst incomingState].
    exists m1, (appendChunk (slice file offset (offset + CHUNK_SIZE)) state), m2.
    split; [done|]. split; [done|]. split; [by apply Forall_app|].
    unfold appendChunk, storeChunk;
      cbn [i_peerId i_name i_mimeType i_size i_receivedBytes i_chunks].
    repeat split; try done.
    + rewrite Hrecv, length_slice. lia.
    + rewrite concat_app, Hchunks. simpl. rewrite app_nil_r.
      apply take_slice.
  - assert (Hinc : ¬ Stated.incomplete peerId state).
    { intros [_ Hlt]. rewrite Hsz in Hlt. lia. }
    unfold onmessage. rewrite attribute_none.
    + split; [|done]. exists m1, state, m2.
      split; [done|]. split; [done|]. split; [by apply Forall_app|].
      repeat split; try done.
      * rewrite Hrecv. lia.
      * rewrite Hchunks. unfold f_size in Hzero.
        apply nil_length_inv in Hzero. rewrite Hzero. by rewrite !take_nil.
    + rewrite Hm. apply Forall_app. split; [done|]. by constructor.
Qed.


Lemma receive_cons peerId f fs e :
  receive peerId (f :: fs) e
  = ((receive peerId fs (onmessage peerId f e).1).1,
     (onmessage peerId f e).2 ++ (receive peerId fs (onmessage peerId f e).1).2).
Proof.
  simpl. destruct (onmessage peerId f e) as [e1 d1]. simpl.
  by destruct (receive peerId fs e1).
Qed.

Lemma remaining_chunks size offset :
  offset + CHUNK_SIZE < size →
  (size - offset) / CHUNK_SIZE = S ((size - (offset + CHUNK_SIZE)) / CHUNK_SIZE).
Proof.
  intros Hlt. pose proof CHUNK_SIZE_pos as Hpos.
  replace (size - offset)
    with ((size - (offset + CHUNK_SIZE)) + 1 * CHUNK_SIZE) by lia.
  rewrite Nat.div_add by lia. lia.
Qed.





(** *** The pending queue *)

Lemma reconcilePeer_not_open now localDeviceId channelsByPeer peerId arr e :
  Stated.noOpenChannel channelsByPeer →
  reconcilePeer now localDeviceId channelsByPeer peerId arr e = (e, []).
Proof.
  intros Hno. unfold reconcilePeer.
  destruct (channelsByPeer !! peerId) as [[o l rs]|] eqn:Hch; [|done].
  specialize (Hno peerId _ Hch). by destruct rs.
Qed.

Lemma reconcile_not_open now localDeviceId channelsByPeer e :
  Stated.noOpenChannel channelsByPeer →
  reconcile now localDeviceId channelsByPeer e = (e, []).
Proof.
  intros Hno. unfold reconcile.
  induction (map_to_list (pendingFiles e)) as [|[p arr] l IH]; [done|].
  simpl. by rewrite reconcilePeer_not_open.
Qed.

Lemma sendFileToPeerInternal_not_open now localDeviceId channelsByPeer
    peerId file e :
  Stated.noOpenChannel channelsByPeer →
  sendFileToPeerInternal now localDeviceId channelsByPeer peerId file false e
  = (enqueue now peerId file e, []).
Proof.
  intros Hno. unfold sendFileToPeerInternal.
  destruct (channelsByPeer !! peerId) as [[o l rs]|] eqn:Hch; [|done].
  specialize (Hno peerId _ Hch). by destruct rs.
Qed.

(** C1, at the failing input: a file is handed to the engine while no
    channel is open, and the channel never opens.  The send is queued with
    a retry count of 0, and however many reconciliation passes run, none
    dispatches anything or changes the state: the transfer stays [queued],
    the entry stays in the queue and its retry count stays 0. *)
Theorem queued_send_never_fails (now : N) (localDeviceId peerId : string)
    (file : File) (channelsByPeer : gmap string Peers.Channel)
    (passes : list (N * gmap string Peers.Channel)) :
  Stated.noOpenChannel channelsByPeer →
  Forall (λ pass, Stated.noOpenChannel pass.2) passes →
  let start :=
    (sendFileToPeerInternal now localDeviceId channelsByPeer peerId file false
                            emptyEngine).1 in
  let final :=
    foldl (λ e pass, (reconcile pass.1 localDeviceId pass.2 e).1) start passes in
  final = start
  ∧ Forall (λ pass, (reconcile pass.1 localDeviceId pass.2 start).2 = []) passes
  ∧ t_status <$> transfers final = [queued]
  ∧ pendingFiles final !! peerId = Some [0]
  ∧ p_retries <$> objects final !! 0 = Some 0.
Proof.
  intros Hno Hpasses. cbv zeta.
  rewrite sendFileToPeerInternal_not_open by done. cbn [fst].
  assert (Hfix : foldl (λ e pass, (reconcile pass.1 localDeviceId pass.2 e).1)
                       (enqueue now peerId file emptyEngine) passes
                 = enqueue now peerId file emptyEngine).
  { induction Hpasses as [|pass passes Hp _ IH]; [done|].
    simpl. by rewrite reconcile_not_open. }
  rewrite Hfix. split; [done|]. split.
  - eapply Forall_impl; [exact Hpasses|].
    intros pass Hp. simpl. by rewrite reconcile_not_open.
  - unfold enqueue. simpl. rewrite lookup_empty. simpl.
    by rewrite !lookup_insert_eq.
Qed.

Lemma queued_send_never_fails_witness :
  Stated.noOpenChannel Samples.connectingChannel
  ∧ let passes := replicate 6 (8%N, Samples.connectingChannel) in
    let start :=
      (sendFileToPeerInternal 7 "me" Samples.connectingChannel "p" Samples.abc
                              false emptyEngine).1 in
    let final :=
      foldl (λ e pass, (reconcile pass.1 "me" pass.2 e).1) start passes in
    final = start
    ∧ Forall (λ pass, (reconcile pass.1 "me" pass.2 start).2 = []) passes
    ∧ t_status <$> transfers final = [queued]
    ∧ pendingFiles final !! "p" = Some [0]
    ∧ p_retries <$> objects final !! 0 = Some 0.
Proof.
  assert (Hno : Stated.noOpenChannel Samples.connectingChannel).
  { intros p channel Hch. unfold Samples.connectingChannel in Hch.
    apply lookup_singleton_Some in Hch as [_ <-]. discriminate. }
  split; [exact Hno|].
  apply (queued_send_never_fails 7 "me" "p" Samples.abc
           Samples.connectingChannel
           (replicate 6 (8%N, Samples.connectingChannel)) Hno).
  repeat constructor; exact Hno.
Defined.

(** When the channel is open, the first pass dispatches the queued send
    and splices it out of the queue with a retry count of 1. *)
Lemma queued_send_dispatched_once :
  let res := reconcile 8 "me" Samples.openChannel Samples.oneQueued in
  t_status <$> transfers res.1 = [in_progress]
  ∧ pendingFiles res.1 !! "p" = None
  ∧ p_retries <$> objects res.1 !! 0 = Some 1
  ∧ res.2 = [ChannelSend "p" (FileMeta (Tx 7 1) "a.txt" 3 "text/plain" "me");
             StartReader "p" (Tx 7 1) Samples.abc].
Proof. vm_compute. done. Qed.

(** An entry that counts five retries is marked [failed] and not
    dispatched, but the pass leaves it in the queue. *)
Lemma exhausted_entry_stays_in_queue :
  let res := reconcile 8 "me" Samples.openChannel Samples.exhaustedEntry in
  t_status <$> transfers res.1 = [failed]
  ∧ pendingFiles res.1 !! "p" = Some [0]
  ∧ res.2 = [].
Proof. vm_compute. done. Qed.

End TransferProofs.

(** *** The retry budget over all runs of the hook *)

Section QueueProofs.
Import Transfer.

Lemma updateTransfer_keeps id f ts :
  (∀ t, t_status t ≠ failed → t_status (f t) ≠ failed) →
  Forall (λ t, t_status t ≠ failed) ts →
  Forall (λ t, t_status t ≠ failed) (updateTransfer id f ts).
Proof.
  intros Hf Hts. unfold updateTransfer. apply Forall_fmap.
  eapply Forall_impl; [exact Hts|]. intros t Ht. simpl.
  case_decide; auto.
Qed.

Lemma untouchedQueue_empty : Stated.untouchedQueue emptyEngine.
Proof.
  split; [|split].
  - intros p arr ref Hp. simpl in Hp. by rewrite lookup_empty in Hp.
  - intros p q arrp arrq ref _ Hp. simpl in Hp. by rewrite lookup_empty in Hp.
  - constructor.
Qed.

Lemma enqueue_untouched now peerId file e :
  Stated.untouchedQueue e → Stated.untouchedQueue (enqueue now peerId file e).
Proof.
  intros (Ha & Hc & Hd). unfold enqueue. simpl.
  set (arr := default [] (pendingFiles e !! peerId)).
  assert (Harr : ∀ ref, ref ∈ arr → pendingFiles e !! peerId = Some arr).
  { intros ref Hin. subst arr. destruct (pendingFiles e !! peerId); [done|].
    by apply elem_of_nil in Hin. }
  assert (Hfresh : ∀ p a, pendingFiles e !! p = Some a → nextObject e ∉ a).
  { intros p a Hp Hin. destruct (Ha p a _ Hp Hin) as [Hlt _]. lia. }
  split; [|split]; simpl.
  - intros p a ref Hp Hin.
    destruct (decide (p = peerId)) as [->|Hne].
    + rewrite lookup_insert_eq in Hp. injection Hp as <-.
      apply elem_of_app in Hin as [Hin|Hin].
      * destruct (Ha peerId arr ref (Harr _ Hin) Hin) as [Hlt Hobj].
        split; [lia|]. rewrite lookup_insert_ne by lia. done.
      * apply list_elem_of_singleton in Hin as ->. split; [lia|].
        rewrite lookup_insert_eq. eauto.
    + rewrite lookup_insert_ne in Hp by done.
      destruct (Ha p a ref Hp Hin) as [Hlt Hobj].
      split; [lia|]. rewrite lookup_insert_ne by lia. done.
  - intros p q arrp arrq ref Hpq Hp Hq Hin Hin'.
    destruct (decide (p = peerId)) as [->|Hp'];
      destruct (decide (q = peerId)) as [->|Hq']; [done | | |].
    + rewrite lookup_insert_eq in Hp. injection Hp as <-.
      rewrite lookup_insert_ne in Hq by done.
      apply elem_of_app in Hin as [Hin|Hin].
      * exact (Hc peerId q arr arrq ref Hpq (Harr _ Hin) Hq Hin Hin').
      * apply list_elem_of_singleton in Hin as ->. exact (Hfresh q arrq Hq Hin').
    + rewrite lookup_insert_eq in Hq. injection Hq as <-.
      rewrite lookup_insert_ne in Hp by done.
      apply elem_of_app in Hin' as [Hin'|Hin'].
      * exact (Hc p peerId arrp arr ref Hpq Hp (Harr _ Hin') Hin Hin').
      * apply list_elem_of_singleton in Hin' as ->. exact (Hfresh p arrp Hp Hin).
    + rewrite lookup_insert_ne in Hp, Hq by done.
      exact (Hc p q arrp arrq ref Hpq Hp Hq Hin Hin').
  - constructor; [done | exact Hd].
Qed.

Lemma first_send_untouched now localDeviceId channelsByPeer peerId file e :
  Stated.untouchedQueue e →
  Stated.untouchedQueue
    (sendFileToPeerInternal now localDeviceId channelsByPeer peerId file
                            false e).1.
Proof.
  intros Hinv. unfold sendFileToPeerInternal.
  destruct (channelsByPeer !! peerId) as [[o l rs]|];
    [destruct rs|]; simpl; try by apply enqueue_untouched.
  destruct Hinv as (Ha & Hc & Hd).
  split; [|split]; simpl; [done | done |]. constructor; [done | exact Hd].
Qed.

Lemma sendFilesToPeer_untouched now localDeviceId channelsByPeer peerId files :
  ∀ e, Stated.untouchedQueue e →
       Stated.untouchedQueue
         (sendFilesToPeer now localDeviceId channelsByPeer peerId files e).1.
Proof.
  induction files as [|file files IH]; intros e Hinv; [done|]. simpl.
  pose proof (first_send_untouched now localDeviceId channelsByPeer peerId
                file e Hinv) as H1.
  destruct (sendFileToPeerInternal now localDeviceId channelsByPeer peerId
              file false e) as [e1 a1].
  specialize (IH e1 H1).
  by destruct (sendFilesToPeer now localDeviceId channelsByPeer peerId files e1).
Qed.

Lemma onmessage_untouched peerId f e :
  Stated.untouchedQueue e → Stated.untouchedQueue (onmessage peerId f e).1.
Proof.
  intros (Ha & Hc & Hd).
  destruct f as [id name size mime from|id|data|data|]; simpl.
  - split; [|split]; simpl; [done | done |]. constructor; [done | exact Hd].
  - destruct (JsMap.get id (incomingState e)); [|done].
    split; [|split]; simpl; [done | done |].
    apply updateTransfer_keeps; [|done]. by intros t _.
  - destruct (attribute peerId (Some (length data)) data (incomingState e))
      as [[id|] inc]; [|done].
    split; [|split]; simpl; [done | done |].
    apply updateTransfer_keeps; [|done]. by intros t Ht.
  - destruct (attribute peerId None data (incomingState e))
      as [[id|] inc]; [|done].
    split; [|split]; simpl; [done | done |].
    apply updateTransfer_keeps; [|done]. by intros t Ht.
  - done.
Qed.

Lemma findPending_elem objs file arr ref :
  findPending objs file arr = Some ref → ref ∈ arr.
Proof.
  unfold findPending. intros H. apply find_some in H as [H _].
  by apply list_elem_of_In.
Qed.

(** A retry dispatch leaves the arrays alone and touches at most one object
    of the peer's own array. *)
Lemma retry_send_props now localDeviceId channelsByPeer peerId file e :
  let e' := (sendFileToPeerInternal now localDeviceId channelsByPeer peerId
                                    file true e).1 in
  pendingFiles e' = pendingFiles e
  ∧ nextObject e' = nextObject e
  ∧ (∀ ref, (∀ arr, pendingFiles e !! peerId = Some arr → ref ∉ arr) →
            objects e' !! ref = objects e !! ref)
  ∧ (Forall (λ t, t_status t ≠ failed) (transfers e) →
     Forall (λ t, t_status t ≠ failed) (transfers e')).
Proof.
  unfold sendFileToPeerInternal.
  destruct (channelsByPeer !! peerId) as [[o l rs]|]; [destruct rs|];
    simpl; try done.
  destruct (pendingFiles e !! peerId) as [arr|] eqn:Harr; simpl.
  - destruct (findPending (objects e) file arr) as [ref'|] eqn:Hfind.
    + apply findPending_elem in Hfind.
      destruct (objects e !! ref') as [p|]; simpl.
      * split; [done|]. split; [done|]. split.
        -- intros ref Hout. rewrite lookup_insert_ne; [done|].
           intros ->. by apply (Hout arr).
        -- intros Hd. apply updateTransfer_keeps; [|done]. by intros t _.
      * split; [done|]. split; [done|]. split; [done|].
        intros Hd. by constructor.
    + simpl. split; [done|]. split; [done|]. split; [done|].
      intros Hd. by constructor.
  - split; [done|]. split; [done|]. split; [done|].
    intros Hd. by constructor.
Qed.

Lemma retry_fold_props now localDeviceId channelsByPeer peerId
    (objs0 : gmap nat Pending) (l : list nat) :
  ∀ acc out,
    let r :=
      foldl (λ '(acc, out) ref,
               match objs0 !! ref with
               | Some p =>
                 let '(acc', out') :=
                   sendFileToPeerInternal now localDeviceId channelsByPeer
                                          peerId (p_file p) true acc in
                 (acc', out ++ out')
               | None => (acc, out)
               end) (acc, out) l in
    pendingFiles r.1 = pendingFiles acc
    ∧ nextObject r.1 = nextObject acc
    ∧ (∀ ref, (∀ arr, pendingFiles acc !! peerId = Some arr → ref ∉ arr) →
              objects r.1 !! ref = objects acc !! ref)
    ∧ (Forall (λ t, t_status t ≠ failed) (transfers acc) →
       Forall (λ t, t_status t ≠ failed) (transfers r.1)).
Proof.
  induction l as [|ref l IH]; intros acc out; [done|].
  cbn [foldl]. destruct (objs0 !! ref) as [p|]; [|apply IH].
  pose proof (retry_send_props now localDeviceId channelsByPeer peerId
                (p_file p) acc) as (Hpf & Hnext & Hobj & Hts).
  destruct (sendFileToPeerInternal now localDeviceId channelsByPeer peerId
              (p_file p) true acc) as [acc' out'].
  cbn [fst] in *.
  destruct (IH acc' (out ++ out')) as (Hpf' & Hnext' & Hobj' & Hts').
  cbv zeta. split; [congruence|]. split; [congruence|]. split.
  - intros r Hout. rewrite Hobj'; [by apply Hobj|]. by rewrite Hpf.
  - auto.
Qed.

Lemma filter_all {A} (P : A → Prop) `{∀ x, Decision (P x)} (l : list A) :
  Forall P l → filter P l = l.
Proof.
  induction 1 as [|x l Hx _ IH]; [done|].
  by rewrite filter_cons, decide_True, IH.
Qed.

Lemma filter_none {A} (P : A → Prop) `{∀ x, Decision (P x)} (l : list A) :
  Forall (λ x, ¬ P x) l → filter P l = [].
Proof.
  induction 1 as [|x l Hx _ IH]; [done|].
  by rewrite filter_cons, decide_False, IH.
Qed.

Lemma reconcilePeer_untouched now localDeviceId channelsByPeer p arr e :
  Stated.untouchedQueue e → pendingFiles e !! p = Some arr →
  Stated.untouchedQueue
    (reconcilePeer now localDeviceId channelsByPeer p arr e).1
  ∧ ∀ q, q ≠ p →
      pendingFiles (reconcilePeer now localDeviceId channelsByPeer p arr e).1 !! q
      = pendingFiles e !! q.
Proof.
  intros Hinv Harr. pose proof Hinv as (Ha & Hc & Hd). unfold reconcilePeer.
  destruct (channelsByPeer !! p) as [[o l rs]|]; [destruct rs|]; try done.
  assert (Hzero : Forall (λ ref, retriesOf (objects e) ref < 5) arr).
  { apply Forall_forall. intros ref Hin.
    destruct (Ha p arr ref Harr Hin) as (_ & pending & Hobj & Hr).
    unfold retriesOf. rewrite Hobj. simpl. lia. }
  rewrite (filter_all _ arr Hzero).
  rewrite (filter_none (λ ref, ¬ retriesOf (objects e) ref < 5) arr)
    by (eapply Forall_impl; [exact Hzero | by auto]).
  cbn [foldl].
  rewrite (filter_none (λ ref, ref ∉ arr) arr)
    by (apply Forall_forall; by auto).
  pose proof (retry_fold_props now localDeviceId channelsByPeer p (objects e)
                arr e []) as (Hpf & Hnext & Hobj & Hts).
  cbv zeta in Hpf, Hnext, Hobj, Hts.
  destruct (foldl _ (e, []) arr) as [e2 acts]. cbn [fst] in *.
  rewrite bool_decide_eq_true_2 by done. cbn [fst pendingFiles].
  split.
  - split; [|split]; cbn [pendingFiles objects nextObject transfers].
    + intros q a ref Hq Hin.
      apply lookup_delete_Some in Hq as [Hne Hq]. rewrite Hpf in Hq.
      destruct (Ha q a ref Hq Hin) as [Hlt Hex].
      split; [lia|]. rewrite Hobj; [done|].
      intros arr' Harr'. rewrite Harr in Harr'. injection Harr' as <-.
      intros Hin'. exact (Hc q p a arr ref ltac:(done) Hq Harr Hin Hin').
    + intros q q' a a' ref Hne Hq Hq'.
      apply lookup_delete_Some in Hq as [_ Hq].
      apply lookup_delete_Some in Hq' as [_ Hq'].
      rewrite Hpf in Hq, Hq'. by apply (Hc q q').
    + by apply Hts.
  - intros q Hne. rewrite lookup_delete_ne by done. by rewrite Hpf.
Qed.

Lemma reconcile_fold_untouched now localDeviceId channelsByPeer
    (l : list (string * list nat)) :
  ∀ acc out,
    NoDup l.*1 →
    Stated.untouchedQueue acc →
    (∀ q a, (q, a) ∈ l → pendingFiles acc !! q = Some a) →
    Stated.untouchedQueue
      (foldl (λ '(acc, out) '(peerId, arr),
                let '(acc', out') :=
                  reconcilePeer now localDeviceId channelsByPeer peerId arr acc in
                (acc', out ++ out'))
             (acc, out) l).1.
Proof.
  induction l as [|[p arr] l IH]; intros acc out Hnd Hinv Hl; [done|].
  cbn [foldl]. apply NoDup_cons in Hnd as [Hp Hnd].
  destruct (reconcilePeer_untouched now localDeviceId channelsByPeer p arr acc
              Hinv) as [Hinv' Hother]; [apply Hl; by left|].
  destruct (reconcilePeer now localDeviceId channelsByPeer p arr acc)
    as [acc' out']. cbn [fst] in *.
  apply IH; [done | done |].
  intros q a Hin. rewrite Hother; [apply Hl; by right|].
  intros ->. apply Hp. apply list_elem_of_fmap. by exists (p, a).
Qed.

Lemma reconcile_untouched now localDeviceId channelsByPeer e :
  Stated.untouchedQueue e →
  Stated.untouchedQueue (reconcile now localDeviceId channelsByPeer e).1.
Proof.
  intros Hinv. unfold reconcile. apply reconcile_fold_untouched.
  - apply NoDup_fst_map_to_list.
  - done.
  - intros q a Hin. by apply elem_of_map_to_list.
Qed.

(** The queue is untouched in every state the hook can reach. *)
Lemma untouchedQueue_reachable localDeviceId (cs : list Call) :
  ∀ e, Stated.untouchedQueue e →
       Stated.untouchedQueue (calls localDeviceId cs e).
Proof.
  unfold calls. induction cs as [|c cs IH]; intros e Hinv; [done|].
  simpl. apply IH. destruct c; simpl.
  - by apply sendFilesToPeer_untouched.
  - by apply reconcile_untouched.
  - by apply onmessage_untouched.
Qed.

(** Whatever the user, the channels and the peers do, the reconciliation
    effect never marks a transfer [failed], and every queued entry counts
    zero retries. *)
Lemma retry_budget_never_exhausted localDeviceId (cs : list Call) :
  let e := calls localDeviceId cs emptyEngine in
  Forall (λ t, t_status t ≠ failed) (transfers e)
  ∧ ∀ p arr ref, pendingFiles e !! p = Some arr → ref ∈ arr →
      retriesOf (objects e) ref = 0.
Proof.
  destruct (untouchedQueue_reachable localDeviceId cs emptyEngine
              untouchedQueue_empty) as (Ha & _ & Hd).
  split; [exact Hd|]. intros p arr ref Hp Hin.
  destruct (Ha p arr ref Hp Hin) as (_ & pending & Hobj & Hr).
  unfold retriesOf. by rewrite Hobj.
Qed.

End QueueProofs.

(** * Further properties of the relay *)

Section RelayMore.
Import Relay RelayProps.

(** [onJoin] for a frame that names a room and a device. *)
Lemma onJoin_with_device rs ws m rms r d :
  j_roomId m = Some r → r ≠ EmptyString →
  j_deviceId m = Some d → d ≠ EmptyString →
  onJoin rs ws m rms =
    (let room := (getOrCreateRoom r rms).2 in
     let devices' := <[d := joinedDevice m d]> (devices room) in
     let sockets' := {[ws]} ∪ sockets room in
     (Some r,
      <[r := mkRoom devices' sockets' (<[ws := d]> (socketToDeviceId room))]>
        (getOrCreateRoom r rms).1,
      (ws, PeersSync r
             (filter (λ dev : Device,
                        truthy (Some (deviceId dev)) = true
                        ∧ Some (deviceId dev) ≠ Some d)
                     ((map_to_list devices').*2)))
      :: ((λ client, (client, PeerJoined r (joinedDevice m d)))
            <$> filter (λ client, client ≠ ws ∧ isOpen rs client = true)
                  (elements sockets')))).
Proof.
  intros Hr Hrne Hd Hdne. unfold onJoin.
  rewrite Hr, Hd, (truthy_Some_ne r Hrne), (truthy_Some_ne d Hdne).
  cbn [negb]. by destruct (getOrCreateRoom r rms) as [rms1 room].
Qed.

(** [onJoin] for a frame that names a room but no device. *)
Lemma onJoin_without_device rs ws m rms r :
  j_roomId m = Some r → r ≠ EmptyString →
  truthy (j_deviceId m) = false →
  onJoin rs ws m rms =
    (let room := (getOrCreateRoom r rms).2 in
     (Some r,
      <[r := mkRoom (devices room) ({[ws]} ∪ sockets room)
                    (socketToDeviceId room)]> (getOrCreateRoom r rms).1,
      [(ws, PeersSync r
              (filter (λ dev : Device,
                         truthy (Some (deviceId dev)) = true
                         ∧ Some (deviceId dev) ≠ j_deviceId m)
                      ((map_to_list (devices room)).*2)))])).
Proof.
  intros Hr Hrne Hd. unfold onJoin.
  rewrite Hr, (truthy_Some_ne r Hrne). cbn [negb].
  destruct (getOrCreateRoom r rms) as [rms1 room].
  destruct (j_deviceId m) as [d|]; [rewrite Hd|]; reflexivity.
Qed.

Lemma step_join rs ws m st :
  step rs (Message ws (Join m)) st
  = (mkServer (onJoin rs ws m (rooms st)).1.2
              (<[ws := (onJoin rs ws m (rooms st)).1.1]> (connRoomId st)),
     (onJoin rs ws m (rooms st)).2).
Proof. simpl. by destruct (onJoin rs ws m (rooms st)) as [[? ?] ?]. Qed.

Lemma step_close rs ws st :
  step rs (Close ws) st
  = (mkServer (cleanupSocket rs ws (roomIdOf st ws) (rooms st)).1
              (connRoomId st),
     (cleanupSocket rs ws (roomIdOf st ws) (rooms st)).2).
Proof. simpl. by destruct (cleanupSocket rs ws (roomIdOf st ws) (rooms st)). Qed.

(** X1: a join frame with a room and a device id registers the socket and
    the device; the joining socket is sent the [peers-sync] frame first,
    listing exactly the directory entries of other devices, and every other
    open socket of the room is sent the [peer-joined] frame exactly once;
    the joining socket gets no [peer-joined]. *)
Theorem join_announces_device rs ws m st r d :
  j_roomId m = Some r → r ≠ EmptyString →
  j_deviceId m = Some d → d ≠ EmptyString →
  let res := step rs (Message ws (Join m)) st in
  ∃ room' peers joined,
    rooms res.1 !! r = Some room'
    ∧ roomIdOf res.1 ws = Some r
    ∧ ws ∈ sockets room'
    ∧ devices room' !! d = Some (joinedDevice m d)
    ∧ socketToDeviceId room' !! ws = Some d
    ∧ res.2 = (ws, PeersSync r peers) :: joined
    ∧ (∀ dev, dev ∈ peers ↔
         (∃ k, devices room' !! k = Some dev)
         ∧ deviceId dev ≠ EmptyString ∧ deviceId dev ≠ d)
    ∧ NoDup joined
    ∧ (∀ s f, (s, f) ∈ joined ↔
         s ∈ sockets room' ∧ s ≠ ws ∧ isOpen rs s = true
         ∧ f = PeerJoined r (joinedDevice m d)).
Proof.
  intros Hr Hrne Hd Hdne. cbv zeta. rewrite step_join.
  rewrite (onJoin_with_device rs ws m (rooms st) r d) by done.
  cbv zeta. cbn [fst snd rooms].
  eexists _, _, _. split; [apply lookup_insert_eq|].
  split; [unfold roomIdOf; cbn [connRoomId]; by rewrite lookup_insert_eq|].
  cbn [sockets devices socketToDeviceId].
  split; [set_solver|]. split; [apply lookup_insert_eq|].
  split; [apply lookup_insert_eq|]. split; [reflexivity|]. split; [|split].
  - intros dev. rewrite list_elem_of_filter, list_elem_of_fmap. split.
    + intros [[Ht Hne] ([k dev'] & -> & Hin)].
      apply elem_of_map_to_list in Hin. cbn [fst snd] in *.
      split; [by exists k|]. split.
      * apply truthy_Some in Ht as (s & [= <-] & Hs). done.
      * congruence.
    + intros [[k Hk] [Hne1 Hne2]]. split.
      * split; [by apply truthy_Some_ne | congruence].
      * exists (k, dev). split; [done|]. by apply elem_of_map_to_list.
  - apply NoDup_fmap_2; [by intros ?? [= ->]|].
    apply NoDup_filter, NoDup_elements.
  - intros s f. rewrite list_elem_of_fmap. split.
    + intros (c & [= -> ->] & Hin).
      apply list_elem_of_filter in Hin as [[Hne Ho] Hin].
      apply elem_of_elements in Hin. done.
    + intros (Hs & Hne & Ho & ->). exists s. split; [done|].
      apply list_elem_of_filter. split; [done|]. by apply elem_of_elements.
Qed.

Lemma join_announces_device_witness :
  let m := mkJoin (Some "R") (Some "c") (Some "Swift Fox") None in
  let res := step allOpen (Message 3 (Join m)) Samples.twoPeers in
  ∃ room' peers joined,
    rooms res.1 !! "R" = Some room'
    ∧ roomIdOf res.1 3 = Some "R"
    ∧ 3 ∈ sockets room'
    ∧ devices room' !! "c" = Some (joinedDevice m "c")
    ∧ socketToDeviceId room' !! 3 = Some "c"
    ∧ res.2 = (3, PeersSync "R" peers) :: joined
    ∧ (∀ dev, dev ∈ peers ↔
         (∃ k, devices room' !! k = Some dev)
         ∧ deviceId dev ≠ EmptyString ∧ deviceId dev ≠ "c")
    ∧ NoDup joined
    ∧ (∀ s f, (s, f) ∈ joined ↔
         s ∈ sockets room' ∧ s ≠ 3 ∧ isOpen allOpen s = true
         ∧ f = PeerJoined "R" (joinedDevice m "c")).
Proof.
  apply (join_announces_device allOpen 3
           (mkJoin (Some "R") (Some "c") (Some "Swift Fox") None)
           Samples.twoPeers "R" "c"); first [reflexivity | discriminate].
Defined.

(** X2: a join frame that names a room but no device id registers the
    socket in the room and answers it with the peer list; it adds nothing
    to the directory or to the socket-to-device map and is announced to no
    other socket. *)
Theorem join_without_device_is_silent rs ws m st r :
  j_roomId m = Some r → r ≠ EmptyString →
  truthy (j_deviceId m) = false →
  let res := step rs (Message ws (Join m)) st in
  let before := default emptyRoom (rooms st !! r) in
  ∃ peers,
    rooms res.1 !! r
    = Some (mkRoom (devices before) ({[ws]} ∪ sockets before)
                   (socketToDeviceId before))
    ∧ res.2 = [(ws, PeersSync r peers)]
    ∧ ∀ dev, dev ∈ peers ↔
        (∃ k, devices before !! k = Some dev) ∧ deviceId dev ≠ EmptyString.
Proof.
  intros Hr Hrne Hd. cbv zeta. rewrite step_join.
  rewrite (onJoin_without_device rs ws m (rooms st) r) by done.
  cbv zeta. cbn [fst snd rooms].
  assert (Hroom : (getOrCreateRoom r (rooms st)).2
                  = default emptyRoom (rooms st !! r)).
  { unfold getOrCreateRoom. by destruct (rooms st !! r). }
  rewrite Hroom. eexists. split; [apply lookup_insert_eq|].
  split; [reflexivity|].
  intros dev. rewrite list_elem_of_filter, list_elem_of_fmap. split.
  - intros [[Ht Hne] ([k dev'] & -> & Hin)].
    apply elem_of_map_to_list in Hin. cbn [fst snd] in *.
    split; [by exists k|].
    apply truthy_Some in Ht as (s & [= <-] & Hs). done.
  - intros [[k Hk] Hne]. split.
    + split; [by apply truthy_Some_ne|].
      intros Heq. rewrite <- Heq in Hd.
      by rewrite (truthy_Some_ne _ Hne) in Hd.
    + exists (k, dev). split; [done|]. by apply elem_of_map_to_list.
Qed.

Lemma join_without_device_is_silent_witness :
  let m := mkJoin (Some "R") None None None in
  let res := step allOpen (Message 3 (Join m)) Samples.twoPeers in
  let before := default emptyRoom (rooms Samples.twoPeers !! "R") in
  ∃ peers,
    rooms res.1 !! "R"
    = Some (mkRoom (devices before) ({[3]} ∪ sockets before)
                   (socketToDeviceId before))
    ∧ res.2 = [(3, PeersSync "R" peers)]
    ∧ ∀ dev, dev ∈ peers ↔
        (∃ k, devices before !! k = Some dev) ∧ deviceId dev ≠ EmptyString.
Proof.
  apply (join_without_device_is_silent allOpen 3
           (mkJoin (Some "R") None None None) Samples.twoPeers "R");
    first [reflexivity | discriminate].
Defined.

(** X3: a join frame without a room id is dropped, but it still overwrites
    the connection's [roomId] variable: the registry is unchanged, nothing
    is sent, and the later disconnect of that socket cleans up nothing and
    notifies nobody, whatever rooms the socket had joined before. *)
Theorem join_without_room_disables_cleanup rs rs' ws m st :
  truthy (j_roomId m) = false →
  let st1 := (step rs (Message ws (Join m)) st).1 in
  rooms st1 = rooms st
  ∧ (step rs (Message ws (Join m)) st).2 = []
  ∧ step rs' (Close ws) st1 = (st1, []).
Proof.
  intros Hr. cbv zeta. rewrite step_join.
  assert (Hjoin : onJoin rs ws m (rooms st) = (j_roomId m, rooms st, [])).
  { unfold onJoin. destruct (j_roomId m) as [r|]; [|done]. by rewrite Hr. }
  rewrite Hjoin. cbn [fst snd]. split; [done|]. split; [done|].
  rewrite step_close. unfold roomIdOf. cbn [connRoomId rooms].
  rewrite lookup_insert_eq. cbn [default].
  assert (Hclean : ∀ rms, cleanupSocket rs' ws (j_roomId m) rms = (rms, [])).
  { intros rms. unfold cleanupSocket.
    destruct (j_roomId m) as [r|]; [|done]. by rewrite Hr. }
  by rewrite Hclean.
Qed.

Lemma join_without_room_disables_cleanup_witness :
  let m := mkJoin None (Some "a") None None in
  let st1 := (step allOpen (Message 1 (Join m)) Samples.twoPeers).1 in
  1 ∈ sockets Samples.roomR
  ∧ rooms st1 = rooms Samples.twoPeers
  ∧ (step allOpen (Message 1 (Join m)) Samples.twoPeers).2 = []
  ∧ step allOpen (Close 1) st1 = (st1, []).
Proof.
  split; [refine (bool_decide_unpack _ _); vm_compute; exact I|].
  apply (join_without_room_disables_cleanup allOpen allOpen 1
           (mkJoin None (Some "a") None None) Samples.twoPeers).
  reflexivity.
Defined.

Lemma directory_wf_init : directory_wf init.
Proof. intros r room Hr. simpl in Hr. by rewrite lookup_empty in Hr. Qed.

(** The directory is well formed initially and after every event. *)
Lemma directory_wf_step rs ev st :
  directory_wf st → directory_wf (step rs ev st).1.
Proof.
  intros Hinv. destruct ev as [ws [m| m | |]|ws]; try exact Hinv;
    try apply directory_wf_init.
  - rewrite step_join. intros r' room'. cbn [fst rooms].
    destruct (truthy (j_roomId m)) eqn:Ht.
    + apply truthy_Some in Ht as (r & Hr & Hne).
      destruct (getOrCreateRoom_lookup r (rooms st)) as (_ & Hother & Hold).
      assert (Hroom0 :
        (∀ k dev, devices (getOrCreateRoom r (rooms st)).2 !! k = Some dev →
                  deviceId dev = k ∧ k ≠ EmptyString)
        ∧ (∀ s d, socketToDeviceId (getOrCreateRoom r (rooms st)).2 !! s = Some d
                  → d ≠ EmptyString)).
      { destruct Hold as [Hold| ->].
        - destruct (Hinv r _ Hold) as (_ & ? & ?). done.
        - split; intros ? ? H; simpl in H; by rewrite lookup_empty in H. }
      destruct Hroom0 as [Hdev Hs2d].
      destruct (truthy (j_deviceId m)) eqn:Htd.
      * apply truthy_Some in Htd as (d & Hd & Hdne).
        rewrite (onJoin_with_device rs ws m (rooms st) r d) by done.
        cbv zeta. cbn [fst snd].
        destruct (decide (r' = r)) as [->|Hneq].
        -- rewrite lookup_insert_eq. intros [= <-].
           cbn [devices socketToDeviceId]. split; [done|]. split.
           ++ intros k dev Hk. apply lookup_insert_Some in Hk as [[<- <-]|[_ Hk]].
              ** done.
              ** by apply Hdev.
           ++ intros s d' Hs. apply lookup_insert_Some in Hs as [[_ <-]|[_ Hs]].
              ** done.
              ** by apply (Hs2d s).
        -- rewrite lookup_insert_ne, Hother by done. apply Hinv.
      * rewrite (onJoin_without_device rs ws m (rooms st) r) by done.
        cbv zeta. cbn [fst snd].
        destruct (decide (r' = r)) as [->|Hneq].
        -- rewrite lookup_insert_eq. intros [= <-]. done.
        -- rewrite lookup_insert_ne, Hother by done. apply Hinv.
    + rewrite onJoin_rooms_dropped by done. apply Hinv.
  - rewrite step_close. intros r' room'. cbn [fst rooms].
    destruct (roomIdOf st ws) as [r|] eqn:Hc; [|apply Hinv].
    destruct (decide (r = EmptyString)) as [->|Hne]; [apply Hinv|].
    destruct (rooms st !! r) as [room|] eqn:Hroom.
    + rewrite (cleanupSocket_registered rs ws r room) by done.
      cbv zeta. cbn [fst].
      destruct (Hinv r room Hroom) as (_ & Hdev & Hs2d).
      case_bool_decide as Hsz.
      * intros Hl. apply lookup_delete_Some in Hl as [_ Hl].
        exact (Hinv r' room' Hl).
      * destruct (decide (r' = r)) as [->|Hneq].
        -- rewrite lookup_insert_eq. intros [= <-].
           cbn [devices socketToDeviceId]. split; [done|]. split.
           ++ intros k dev Hk. apply Hdev.
              destruct (socketToDeviceId room !! ws) as [d|]; [|exact Hk].
              match type of Hk with
              | context [if ?c then _ else _] => destruct c
              end; [|exact Hk].
              by apply lookup_delete_Some in Hk as [_ Hk].
           ++ intros s d Hs. apply lookup_delete_Some in Hs as [_ Hs].
              by apply (Hs2d s).
        -- rewrite lookup_insert_ne by done. apply Hinv.
    + unfold cleanupSocket. rewrite (truthy_Some_ne r Hne), Hroom. apply Hinv.
Qed.

Lemma run_invariant (P : Server → Prop) rs :
  (∀ ev st, P st → P (step rs ev st).1) →
  ∀ evs st, P st → P (run rs evs st).1.
Proof.
  intros Hstep evs. induction evs as [|ev evs IH]; intros st HP; [done|].
  simpl. specialize (Hstep ev st HP).
  destruct (step rs ev st) as [st1 out1]. specialize (IH st1 Hstep).
  by destruct (run rs evs st1).
Qed.

(** X4: in every state the server reaches from an empty registry, under
    any events, every registered room has a non-empty id and at least one
    socket, every socket of the socket-to-device map is in the room's
    socket set, every directory entry is stored under its own non-empty
    device id, and no socket maps to an empty device id. *)
Theorem reachable_rooms_well_formed rs (evs : list Event) :
  let st := (run rs evs init).1 in
  Stated.socket_invariant st ∧ directory_wf st.
Proof.
  split.
  - apply (run_invariant Stated.socket_invariant rs);
      [intros; by apply socket_invariant_step | apply socket_invariant_init].
  - apply (run_invariant directory_wf rs);
      [intros; by apply directory_wf_step|].
    intros r room Hr. simpl in Hr. by rewrite lookup_empty in Hr.
Qed.

Lemma getOrCreateRoom_present r room rms :
  rms !! r = Some room → getOrCreateRoom r rms = (rms, room).
Proof. intros H. unfold getOrCreateRoom. by rewrite H. Qed.

Lemma getOrCreateRoom_absent r rms :
  rms !! r = None → getOrCreateRoom r rms = (<[r := emptyRoom]> rms, emptyRoom).
Proof. intros H. unfold getOrCreateRoom. by rewrite H. Qed.

Lemma union_then_remove (ws : Socket) (S : gset Socket) :
  ws ∉ S → ({[ws]} ∪ S) ∖ {[ws]} = S.
Proof.
  intros Hws. apply set_eq. intros x.
  rewrite elem_of_difference, elem_of_union, !elem_of_singleton.
  split; [intros [[->|Hx] Hne]; done|].
  intros Hx. split; [by right|]. by intros ->.
Qed.

(** The room a join frame leaves behind, and what the socket's disconnect
    makes of it. *)
Lemma joined_room rs ws m rms r :
  j_roomId m = Some r → r ≠ EmptyString →
  ∃ room1,
    (onJoin rs ws m rms).1.1 = Some r
    ∧ (onJoin rs ws m rms).1.2 = <[r := room1]> (getOrCreateRoom r rms).1
    ∧ sockets room1 = {[ws]} ∪ sockets (getOrCreateRoom r rms).2
    ∧ ((truthy (j_deviceId m) = false
        ∧ devices room1 = devices (getOrCreateRoom r rms).2
        ∧ socketToDeviceId room1 = socketToDeviceId (getOrCreateRoom r rms).2)
       ∨ (∃ d, j_deviceId m = Some d ∧ d ≠ EmptyString
            ∧ devices room1
              = <[d := joinedDevice m d]> (devices (getOrCreateRoom r rms).2)
            ∧ socketToDeviceId room1
              = <[ws := d]> (socketToDeviceId (getOrCreateRoom r rms).2))).
Proof.
  intros Hr Hrne. destruct (truthy (j_deviceId m)) eqn:Htd.
  - apply truthy_Some in Htd as (d & Hd & Hdne).
    rewrite (onJoin_with_device rs ws m rms r d) by done. cbv zeta.
    eexists. split; [done|]. split; [done|]. split; [done|].
    right. by exists d.
  - rewrite (onJoin_without_device rs ws m rms r) by done. cbv zeta.
    eexists. split; [done|]. split; [done|]. split; [done|]. by left.
Qed.

(** X5: a socket that joins a room and disconnects leaves the registry as
    it was, provided the socket was not in the room yet and the device id
    it announces was not in the room's directory: a room created by the
    join is deleted again, an existing room gets back its sockets, its
    directory and its socket-to-device map. *)
Theorem join_then_close_restores_registry rs rs' ws m st r :
  j_roomId m = Some r → r ≠ EmptyString →
  (∀ room, rooms st !! r = Some room →
     (ws ∉ sockets room) ∧ sockets room ≠ ∅
     ∧ socketToDeviceId room !! ws = None
     ∧ ∀ d, j_deviceId m = Some d → devices room !! d = None) →
  rooms (step rs' (Close ws) (step rs (Message ws (Join m)) st).1).1
  = rooms st.
Proof.
  intros Hr Hrne Hfresh. rewrite step_join, step_close.
  cbn [fst rooms connRoomId]. unfold roomIdOf. cbn [connRoomId].
  rewrite lookup_insert_eq. cbn [default].
  destruct (joined_room rs ws m (rooms st) r Hr Hrne)
    as (room1 & -> & -> & Hsock & Hdev).
  rewrite (cleanupSocket_registered rs' ws r room1)
    by (done || apply lookup_insert_eq).
  cbv zeta. cbn [fst]. rewrite Hsock.
  destruct (rooms st !! r) as [room|] eqn:Hroom.
  - destruct (Hfresh room eq_refl) as (Hws & Hne & Hs2d & Hnew).
    rewrite (getOrCreateRoom_present r room) by done. cbn [fst snd].
    rewrite union_then_remove by done.
    rewrite bool_decide_eq_false_2
      by (intros Hsz; by apply size_empty_iff, leibniz_equiv in Hsz).
    rewrite insert_insert_eq. apply insert_id. rewrite Hroom. f_equal.
    rewrite (getOrCreateRoom_present r room) in Hdev by done. cbn [snd] in Hdev.
    destruct room as [D S M]. cbn [devices sockets socketToDeviceId] in *.
    destruct Hdev as [(_ & -> & ->)|(d & Hd & Hdne & -> & ->)].
    + rewrite Hs2d. by rewrite delete_id.
    + rewrite lookup_insert_eq, (truthy_Some_ne d Hdne).
      rewrite bool_decide_eq_true_2 by (rewrite lookup_insert_eq; eauto).
      cbn [andb]. rewrite !delete_insert_eq.
      by rewrite !delete_id by (done || by apply Hnew).
  - rewrite (getOrCreateRoom_absent r) by done. cbn [fst snd sockets].
    rewrite (union_then_remove ws (sockets emptyRoom))
      by apply not_elem_of_empty.
    rewrite bool_decide_eq_true_2 by (apply size_empty_iff; reflexivity).
    rewrite !delete_insert_eq. by apply delete_id.
Qed.

Lemma join_then_close_restores_registry_witness :
  let m := mkJoin (Some "R") (Some "c") None None in
  rooms (step allOpen (Close 3)
           (step allOpen (Message 3 (Join m)) Samples.twoPeers).1).1
  = rooms Samples.twoPeers.
Proof.
  apply (join_then_close_restores_registry allOpen allOpen 3
           (mkJoin (Some "R") (Some "c") None None) Samples.twoPeers "R");
    [reflexivity | discriminate |].
  intros room Hroom.
  assert (room = Samples.roomR) as ->.
  { unfold Samples.roomR. by rewrite Hroom. }
  split; [refine (bool_decide_unpack _ _); vm_compute; exact I|].
  split; [refine (bool_decide_unpack _ _); vm_compute; exact I|].
  split; [vm_compute; reflexivity|].
  intros d [= <-]. vm_compute. reflexivity.
Defined.

(** X6: a join frame received twice in a row from the same socket acts
    like one: the second copy leaves the server state as the first left it
    and is answered with the same frames. *)
Theorem repeated_join_is_idempotent rs ws m st :
  step rs (Message ws (Join m)) (step rs (Message ws (Join m)) st).1
  = step rs (Message ws (Join m)) st.
Proof.
  rewrite !step_join. cbn [fst rooms connRoomId].
  assert (Hjoin : onJoin rs ws m (onJoin rs ws m (rooms st)).1.2
                  = onJoin rs ws m (rooms st)).
  { destruct (truthy (j_roomId m)) eqn:Ht.
    - apply truthy_Some in Ht as (r & Hr & Hrne).
      destruct (truthy (j_deviceId m)) eqn:Htd.
      + apply truthy_Some in Htd as (d & Hd & Hdne).
        rewrite !(onJoin_with_device rs ws m _ r d) by done.
        cbv zeta. cbn [fst snd].
        rewrite (getOrCreateRoom_present r _ _ (lookup_insert_eq _ _ _)).
        cbn [fst snd devices sockets socketToDeviceId].
        rewrite !insert_insert_eq.
        by replace ({[ws]} ∪ ({[ws]} ∪ sockets (getOrCreateRoom r (rooms st)).2))
          with ({[ws]} ∪ sockets (getOrCreateRoom r (rooms st)).2)
          by set_solver.
      + rewrite !(onJoin_without_device rs ws m _ r) by done.
        cbv zeta. cbn [fst snd].
        rewrite (getOrCreateRoom_present r _ _ (lookup_insert_eq _ _ _)).
        cbn [fst snd devices sockets socketToDeviceId].
        rewrite !insert_insert_eq.
        by replace ({[ws]} ∪ ({[ws]} ∪ sockets (getOrCreateRoom r (rooms st)).2))
          with ({[ws]} ∪ sockets (getOrCreateRoom r (rooms st)).2)
          by set_solver.
    - assert (Hdrop : ∀ rms, onJoin rs ws m rms = (j_roomId m, rms, [])).
      { intros rms. unfold onJoin. destruct (j_roomId m) as [r|]; [|done].
        by rewrite Ht. }
      by rewrite !Hdrop. }
  rewrite Hjoin. by rewrite insert_insert_eq.
Qed.

(** X7: rooms are isolated from every event the process survives.  An
    event other than a [Null] frame changes no room other than the one it
    is about, and every frame it causes goes either to the socket the event
    came from or to a member of that room (as the room was before or is
    after the event).  A [Null] frame is the exception: nothing is sent,
    and every room and every connection goes down with the process. *)
Theorem rooms_are_isolated rs ev st :
  (fatal ev →
   (step rs ev st).2 = []
   ∧ rooms (step rs ev st).1 = ∅ ∧ connRoomId (step rs ev st).1 = ∅)
  ∧ (¬ fatal ev →
     (∀ r', addressedRoom ev st ≠ Some r' →
            rooms (step rs ev st).1 !! r' = rooms st !! r')
     ∧ ∀ s f, (s, f) ∈ (step rs ev st).2 →
         s = socketOf ev
         ∨ ∃ r room, addressedRoom ev st = Some r
                     ∧ (rooms st !! r = Some room
                        ∨ rooms (step rs ev st).1 !! r = Some room)
                     ∧ memberOf s room).
Proof.
  split.
  { by destruct ev as [ws [m| m | |]|ws]. }
  intros Hsurvives.
  destruct ev as [ws [m| m | |]|ws]; [| | |by destruct Hsurvives|].
  - (* join *)
    rewrite step_join. cbn [fst snd rooms addressedRoom socketOf].
    destruct (truthy (j_roomId m)) eqn:Ht.
    + apply truthy_Some in Ht as (r & Hr & Hrne).
      destruct (getOrCreateRoom_lookup r (rooms st)) as (_ & Hother & _).
      destruct (joined_room rs ws m (rooms st) r Hr Hrne)
        as (room1 & _ & Hrooms & Hsock & _).
      rewrite Hrooms. split.
      * intros r' Hne. rewrite lookup_insert_ne by congruence.
        apply Hother. congruence.
      * intros s f Hin.
        destruct (decide (s = ws)) as [->|Hs]; [by left|]. right.
        exists r, room1. split; [done|].
        split; [right; apply lookup_insert_eq|]. left.
        destruct (truthy (j_deviceId m)) eqn:Htd.
        -- apply truthy_Some in Htd as (d & Hd & Hdne).
           rewrite (onJoin_with_device rs ws m (rooms st) r d) in Hin by done.
           cbv zeta in Hin. cbn [snd] in Hin.
           apply elem_of_cons in Hin as [[= -> _]|Hin]; [done|].
           apply list_elem_of_fmap in Hin as (c & [= -> _] & Hin).
           apply list_elem_of_filter in Hin as [_ Hin].
           apply elem_of_elements in Hin. by rewrite Hsock.
        -- rewrite (onJoin_without_device rs ws m (rooms st) r) in Hin by done.
           cbv zeta in Hin. cbn [snd] in Hin.
           by apply list_elem_of_singleton in Hin as [= -> _].
    + assert (Hdrop : onJoin rs ws m (rooms st) = (j_roomId m, rooms st, [])).
      { unfold onJoin. destruct (j_roomId m) as [r|]; [|done]. by rewrite Ht. }
      rewrite Hdrop. cbn [fst snd]. split; [done|].
      intros s f Hin. by apply elem_of_nil in Hin.
  - (* signal *)
    cbn [step fst snd addressedRoom socketOf]. split; [done|].
    intros s f Hin. unfold onSignal in Hin.
    destruct (js_or (s_roomId m) (roomIdOf st ws)) as [r|] eqn:Hr;
      [|by apply elem_of_nil in Hin].
    destruct (s_to m) as [to|]; [|by apply elem_of_nil in Hin].
    destruct (s_from m) as [from|]; [|by apply elem_of_nil in Hin].
    match type of Hin with
    | context [if ?c then _ else _] => destruct c
    end; [by apply elem_of_nil in Hin|].
    destruct (rooms st !! r) as [room|] eqn:Hroom;
      [|by apply elem_of_nil in Hin].
    destruct (devices room !! to).
    + right. exists r, room. split; [done|]. split; [by left|]. right.
      apply list_elem_of_fmap in Hin as ([s' d'] & [= -> _] & Hin).
      apply list_elem_of_filter in Hin as [_ Hin].
      apply elem_of_map_to_list in Hin. eauto.
    + left. destruct (isOpen rs ws); [|by apply elem_of_nil in Hin].
      by apply list_elem_of_singleton in Hin as [= -> _].
  - (* anything else *)
    split; [done|]. intros s f Hin. by apply elem_of_nil in Hin.
  - (* disconnect *)
    rewrite step_close. cbn [fst snd rooms addressedRoom socketOf].
    destruct (roomIdOf st ws) as [r|] eqn:Hc;
      [|split; [done | intros s f Hin; by apply elem_of_nil in Hin]].
    destruct (decide (r = EmptyString)) as [->|Hne];
      [split; [done | intros s f Hin; by apply elem_of_nil in Hin]|].
    destruct (rooms st !! r) as [room|] eqn:Hroom.
    + rewrite (cleanupSocket_registered rs ws r room) by done.
      cbv zeta. cbn [fst snd]. split.
      * intros r' Hr'. case_bool_decide.
        -- apply lookup_delete_ne. congruence.
        -- apply lookup_insert_ne. congruence.
      * intros s f Hin. right. exists r, room.
        split; [done|]. split; [by left|]. left.
        destruct (socketToDeviceId room !! ws) as [d|];
          [|by apply elem_of_nil in Hin].
        match type of Hin with
        | context [if ?c then _ else _] => destruct c
        end; [|by apply elem_of_nil in Hin].
        apply list_elem_of_fmap in Hin as (c & [= -> _] & Hin).
        apply list_elem_of_filter in Hin as [_ Hin].
        apply elem_of_elements in Hin. set_solver.
    + unfold cleanupSocket. rewrite (truthy_Some_ne r Hne), Hroom.
      split; [done | intros s f Hin; by apply elem_of_nil in Hin].
Qed.

End RelayMore.

(** * Further properties of the transfer engine *)

Section TransferMore.
Import Transfer TransferProps.

#[local] Opaque CHUNK_SIZE.

Lemma slice_is_take file offset :
  slice file offset (offset + CHUNK_SIZE)
  = take CHUNK_SIZE (drop offset (f_bytes file)).
Proof. unfold slice. f_equal. lia. Qed.

(** X8: whatever the callbacks show (read errors, a channel that closes,
    congestion that never ends, too few callbacks), the reader loop puts
    the chunks on the channel in file order without gap or overlap, each at
    most [CHUNK_SIZE] bytes long, and the [file-complete] frame goes out
    only as the last frame, after every byte of the file. *)
Theorem chunks_in_order_complete_last (localDeviceId : string)
    (id : TransferId) (file : File) (obs : list Observation) :
  ∃ chunks,
    Forall (λ c, length c ≤ CHUNK_SIZE) chunks
    ∧ ((sentFrames localDeviceId id file obs
        = FileMeta id (f_name file) (f_size file) (f_type file) localDeviceId
          :: (Chunk <$> chunks)
        ∧ concat chunks `prefix_of` f_bytes file)
       ∨ (sentFrames localDeviceId id file obs
          = FileMeta id (f_name file) (f_size file) (f_type file) localDeviceId
            :: (Chunk <$> chunks) ++ [FileComplete id]
          ∧ concat chunks = f_bytes file)).
Proof.
  assert (Hloop : ∀ obs offset fromReader,
    ∃ chunks,
      Forall (λ c, length c ≤ CHUNK_SIZE) chunks
      ∧ ((framesOf (readerLoop file id offset fromReader obs)
          = Chunk <$> chunks
          ∧ concat chunks `prefix_of` drop offset (f_bytes file))
         ∨ (framesOf (readerLoop file id offset fromReader obs)
            = (Chunk <$> chunks) ++ [FileComplete id]
            ∧ concat chunks = drop offset (f_bytes file)))).
  { clear obs. induction obs as [|o obs IH]; intros offset fromReader.
    - exists []. split; [constructor|]. left. split; [done|]. apply prefix_nil.
    - assert (Hstop : ∃ chunks : list (list Byte.byte),
                Forall (λ c, length c ≤ CHUNK_SIZE) chunks
                ∧ ((framesOf [Mark failed] = Chunk <$> chunks
                    ∧ concat chunks `prefix_of` drop offset (f_bytes file))
                   ∨ (framesOf [Mark failed]
                      = (Chunk <$> chunks) ++ [FileComplete id]
                      ∧ concat chunks = drop offset (f_bytes file)))).
      { exists []. split; [constructor|]. left. split; [done|].
        apply prefix_nil. }
      cbn [readerLoop].
      destruct (fromReader && negb (o_loaded o)); [exact Hstop|].
      destruct (fromReader && negb (o_open o)); [exact Hstop|].
      unfold sendChunk. destruct (HIGH_WATER <? o_buffered o)%N.
      + rewrite framesOf_app.
        change (framesOf [SetTimeout POLL_MS]) with (@nil Frame). apply IH.
      + assert (Hlen : length (slice file offset (offset + CHUNK_SIZE))
                       ≤ CHUNK_SIZE) by (rewrite length_slice; lia).
        pose proof (slice_is_take file offset) as Hslice.
        destruct (offset + CHUNK_SIZE <? f_size file) eqn:Hmore.
        * rewrite framesOf_app.
          change (framesOf [Send ?c; Progress ?p]) with [c]. cbn [app].
          destruct (IH (offset + CHUNK_SIZE) true)
            as (chunks & Hall & [[-> Hpre]|[-> Hcat]]);
            exists (slice file offset (offset + CHUNK_SIZE) :: chunks);
            (split; [by constructor|]).
          -- left. split; [done|]. simpl.
             rewrite <- (take_drop CHUNK_SIZE (drop offset (f_bytes file))).
             rewrite Hslice, drop_drop. by apply prefix_app.
          -- right. split; [done|]. simpl.
             rewrite Hcat, Hslice, <- drop_drop. apply take_drop.
        * apply Nat.ltb_ge in Hmore.
          change (framesOf ([Send ?c; Progress ?p]
                            ++ [Send ?d; Mark completed; Progress (1, 1)]))
            with [c; d].
          exists [slice file offset (offset + CHUNK_SIZE)].
          split; [by repeat constructor|]. right. split; [done|].
          simpl. rewrite app_nil_r, Hslice. apply take_ge.
          rewrite length_drop. unfold f_size in Hmore. lia. }
  unfold sentFrames.
  destruct (Hloop obs 0 true) as (chunks & Hall & [[-> Hpre]|[-> Hcat]]);
    exists chunks; (split; [done|]); [left | right]; done.
Qed.

(** X9: the bookkeeping of the reader loop: a progress fraction never
    exceeds 1, the poll timer is always set to 50 ms, the transfer is
    marked [completed] exactly when the [file-complete] frame is sent, and
    a transfer marked [failed] is never also marked [completed] and never
    gets a [file-complete] frame. *)
Theorem reader_loop_bookkeeping (id : TransferId) (file : File)
    (offset : nat) (fromReader : bool) (obs : list Observation) :
  let effs := readerLoop file id offset fromReader obs in
  (∀ a b, Progress (a, b) ∈ effs → a ≤ b ∧ 0 < b)
  ∧ (∀ ms, SetTimeout ms ∈ effs → ms = 50)
  ∧ (Mark completed ∈ effs ↔ Send (FileComplete id) ∈ effs)
  ∧ (Mark failed ∈ effs →
     (Mark completed ∉ effs) ∧ ∀ id', Send (FileComplete id') ∉ effs).
Proof.
  cbv zeta. revert offset fromReader.
  induction obs as [|o obs IH]; intros offset fromReader.
  - cbn [readerLoop]. repeat split; try (intros; by apply elem_of_nil in H);
      intros H; by apply elem_of_nil in H.
  - assert (Hstop : (∀ a b, Progress (a, b) ∈ [Mark failed] → a ≤ b ∧ 0 < b)
      ∧ (∀ ms, SetTimeout ms ∈ [Mark failed] → ms = 50)
      ∧ (Mark completed ∈ [Mark failed] ↔ Send (FileComplete id) ∈ [Mark failed])
      ∧ (Mark failed ∈ [Mark failed] →
         (Mark completed ∉ [Mark failed])
         ∧ ∀ id', Send (FileComplete id') ∉ [Mark failed])).
    { repeat split; intros; try intros ?;
        repeat match goal with
               | H : _ ∈ [_] |- _ => apply list_elem_of_singleton in H
               end; congruence. }
    cbn [readerLoop].
    destruct (fromReader && negb (o_loaded o)); [exact Hstop|].
    destruct (fromReader && negb (o_open o)); [exact Hstop|].
    unfold sendChunk. destruct (HIGH_WATER <? o_buffered o)%N.
    + destruct (IH offset false) as (Hp & Ht & Hc & Hf). cbn [app].
      split; [|split; [|split]].
      * intros a b Hin. apply elem_of_cons in Hin as [[=]|Hin]. by apply Hp.
      * intros ms Hin. apply elem_of_cons in Hin as [[= ->]|Hin];
          [done | by apply Ht].
      * rewrite !elem_of_cons. split; (intros [[=]|H]; right; by apply Hc).
      * intros Hin. apply elem_of_cons in Hin as [[=]|Hin].
        destruct (Hf Hin) as [Hnc Hnf]. split.
        -- intros H. apply elem_of_cons in H as [[=]|H]. done.
        -- intros id' H. apply elem_of_cons in H as [[=]|H]. by apply (Hnf id').
    + assert (Hratio : ∀ a b,
                (a, b) = ratio ((offset + CHUNK_SIZE) `min` f_size file)
                               (f_size file) → a ≤ b ∧ 0 < b).
      { intros a b. unfold ratio.
        destruct (f_size file =? 0) eqn:Hz; intros [= -> ->]; [lia|].
        apply Nat.eqb_neq in Hz. lia. }
      destruct (offset + CHUNK_SIZE <? f_size file).
      * destruct (IH (offset + CHUNK_SIZE) true) as (Hp & Ht & Hc & Hf).
        cbn [app]. split; [|split; [|split]].
        -- intros a b Hin. apply elem_of_cons in Hin as [[=]|Hin].
           apply elem_of_cons in Hin as [[= Heq]|Hin];
             [by apply Hratio | by apply Hp].
        -- intros ms Hin. apply elem_of_cons in Hin as [[=]|Hin].
           apply elem_of_cons in Hin as [[=]|Hin]. by apply Ht.
        -- rewrite !elem_of_cons. split.
           ++ intros [[=]|[[=]|H]]. right. right. by apply Hc.
           ++ intros [[=]|[[=]|H]]. right. right. by apply Hc.
        -- intros Hin. apply elem_of_cons in Hin as [[=]|Hin].
           apply elem_of_cons in Hin as [[=]|Hin].
           destruct (Hf Hin) as [Hnc Hnf]. split.
           ++ intros H. apply elem_of_cons in H as [[=]|H].
              apply elem_of_cons in H as [[=]|H]. done.
           ++ intros id' H. apply elem_of_cons in H as [[=]|H].
              apply elem_of_cons in H as [[=]|H]. by apply (Hnf id').
      * cbn [app]. split; [|split; [|split]].
        -- intros a b Hin.
           repeat (apply elem_of_cons in Hin as [Heq|Hin];
                   [first [discriminate Heq
                          | injection Heq as Heq; first [by apply Hratio | lia]]
                   |]).
           by apply elem_of_nil in Hin.
        -- intros ms Hin.
           repeat (apply elem_of_cons in Hin as [[=]|Hin]).
           by apply elem_of_nil in Hin.
        -- split; intros _.
           ++ do 2 right. by left.
           ++ do 3 right. by left.
        -- intros Hin.
           repeat (apply elem_of_cons in Hin as [[=]|Hin]).
           by apply elem_of_nil in Hin.
Qed.

Lemma receive_app peerId fs1 fs2 e :
  receive peerId (fs1 ++ fs2) e
  = ((receive peerId fs2 (receive peerId fs1 e).1).1,
     (receive peerId fs1 e).2 ++ (receive peerId fs2 (receive peerId fs1 e).1).2).
Proof.
  revert e. induction fs1 as [|f fs1 IH]; intros e.
  - simpl. by destruct (receive peerId fs2 e).
  - cbn [app]. rewrite !receive_cons, IH. cbn [fst snd]. by rewrite app_assoc.
Qed.

Lemma JsMap_delete_Forall {V} (P : TransferId * V → Prop) id v m1 m2 :
  Forall P (m1 ++ m2) → Forall P (JsMap.delete id (m1 ++ (id, v) :: m2)).
Proof.
  intros H. apply Forall_app in H as [H1 H2].
  assert (Hdel : ∀ m, Forall P m → Forall P (JsMap.delete id m)).
  { induction 1 as [|[k w] m Hx _ IH]; [constructor|]. simpl.
    destruct (decide (k = id)); [done | by constructor]. }
  induction H1 as [|[k w] m1 Hx _ IH]; simpl.
  - rewrite decide_True by done. by apply Hdel.
  - destruct (decide (k = id)); [done | by constructor].
Qed.

Lemma complete_step_clean peerId id file offset e :
  Stated.assembling peerId id file offset e →
  f_size file ≤ offset →
  ∃ e', onmessage peerId (FileComplete id) e = (e', [Stated.artifactOf file])
        ∧ Forall (λ x, ¬ Stated.incomplete peerId x.2) (incomingState e').
Proof.
  intros (m1 & state & m2 & Hm & Hn & Hothers & Hp & Hname & Hmime & Hsz
          & Hrecv & Hchunks) Hoff.
  unfold onmessage. rewrite Hm, JsMap_get_app by done.
  eexists. split.
  - f_equal. unfold Stated.artifactOf. rewrite Hname, Hmime, Hchunks.
    by rewrite take_ge.
  - cbn [incomingState]. by apply JsMap_delete_Forall.
Qed.

Lemma readerLoop_received_clean peerId id file :
  ∀ (obs : list Observation) offset fromReader e,
    Forall (λ o, o_loaded o = true ∧ o_open o = true) obs →
    (f_size file - offset) / CHUNK_SIZE + 1
      ≤ length (filter (λ o, (o_buffered o ≤ HIGH_WATER)%N) obs) →
    offset < f_size file ∨ f_size file = 0 →
    Stated.assembling peerId id file offset e →
    ∃ e', receive peerId (framesOf (readerLoop file id offset fromReader obs)) e
          = (e', [Stated.artifactOf file])
          ∧ Forall (λ x, ¬ Stated.incomplete peerId x.2) (incomingState e').
Proof.
  induction obs as [|o obs IH]; intros offset fromReader e Hok Hcount Hoff Hasm.
  - simpl in Hcount. lia.
  - apply Forall_cons_1 in Hok as [[Hl Ho] Hok].
    cbn [readerLoop]. rewrite Hl, Ho, !andb_false_r.
    rewrite filter_cons in Hcount. unfold sendChunk.
    destruct (HIGH_WATER <? o_buffered o)%N eqn:Hb.
    + apply N.ltb_lt in Hb.
      rewrite decide_False in Hcount by lia.
      rewrite framesOf_app. change (framesOf [SetTimeout POLL_MS]) with (@nil Frame).
      cbn [app]. by apply IH.
    + apply N.ltb_ge in Hb.
      rewrite decide_True in Hcount by done. cbn [length] in Hcount.
      destruct (chunk_step peerId id file offset e Hasm Hoff) as [Hasm' Hnil].
      destruct (offset + CHUNK_SIZE <? f_size file) eqn:Hmore.
      * apply Nat.ltb_lt in Hmore.
        rewrite framesOf_app.
        change (framesOf [Send ?c; Progress ?p]) with [c]. cbn [app].
        rewrite receive_cons, Hnil. cbn [app].
        destruct (IH (offset + CHUNK_SIZE) true
                    (onmessage peerId
                       (Chunk (slice file offset (offset + CHUNK_SIZE))) e).1)
          as (e' & He' & Hclean); [done | | by left | done |].
        { rewrite remaining_chunks in Hcount by done. lia. }
        exists e'. by rewrite He'.
      * apply Nat.ltb_ge in Hmore.
        change (framesOf ([Send ?c; Progress ?p]
                          ++ [Send ?d; Mark completed; Progress (1, 1)]))
          with [c; d].
        rewrite receive_cons, Hnil. cbn [app].
        destruct (complete_step_clean peerId id file (offset + CHUNK_SIZE) _
                    Hasm') as (e' & He' & Hclean); [done|].
        exists e'. rewrite receive_cons, He'. done.
Qed.

(** One whole transfer, with the state it leaves the receiver in. *)
Lemma transfer_received_clean localDeviceId peerId id file obs e :
  Forall (λ o, o_loaded o = true ∧ o_open o = true) obs →
  f_size file / CHUNK_SIZE + 1
    ≤ length (filter (λ o, (o_buffered o ≤ HIGH_WATER)%N) obs) →
  Forall (λ x, ¬ Stated.incomplete peerId x.2) (incomingState e) →
  ∃ e', receive peerId (sentFrames localDeviceId id file obs) e
        = (e', [Stated.artifactOf file])
        ∧ Forall (λ x, ¬ Stated.incomplete peerId x.2) (incomingState e').
Proof.
  intros Hok Hcount Hnone. unfold sentFrames.
  rewrite <- (Nat.sub_0_r (f_size file)) in Hcount.
  destruct (meta_step peerId id file localDeviceId e Hnone) as [Hasm Hnil].
  assert (Hstart : 0 < f_size file ∨ f_size file = 0) by lia.
  destruct (readerLoop_received_clean peerId id file obs 0 true _ Hok Hcount
              Hstart Hasm) as (e' & He' & Hclean).
  exists e'. rewrite receive_cons, Hnil, He'. done.
Qed.

(** X10: files sent one after the other over the same channel, each
    running to its [file-complete] frame before the next [file-meta] frame,
    all arrive: the receiver delivers one artifact per file, in the order
    sent, each with the bytes of its file. *)
Theorem sequential_transfers_arrive (localDeviceId peerId : string)
    (jobs : list (TransferId * File * list Observation)) (e : Engine) :
  Forall (λ job,
            Forall (λ o, o_loaded o = true ∧ o_open o = true) job.2
            ∧ f_size job.1.2 / CHUNK_SIZE + 1
                ≤ length (filter (λ o, (o_buffered o ≤ HIGH_WATER)%N) job.2))
         jobs →
  Forall (λ x, ¬ Stated.incomplete peerId x.2) (incomingState e) →
  ∃ e' artifacts,
    receive peerId
      (concat ((λ job, sentFrames localDeviceId job.1.1 job.1.2 job.2) <$> jobs))
      e = (e', artifacts)
    ∧ a_bytes <$> artifacts = (λ job, f_bytes job.1.2) <$> jobs.
Proof.
  intros Hjobs. revert e.
  induction Hjobs as [|[[id file] obs] jobs [Hok Hcount] _ IH]; intros e Hnone.
  - by exists e, [].
  - cbn [fmap list_fmap concat fst snd] in *.
    destruct (transfer_received_clean localDeviceId peerId id file obs e
                Hok Hcount Hnone) as (e1 & He1 & Hclean).
    destruct (IH e1 Hclean) as (e' & artifacts & He' & Hbytes).
    exists e', (Stated.artifactOf file :: artifacts).
    rewrite receive_app, He1. cbn [fst snd]. rewrite He'. cbn [fst snd app].
    split; [done|]. rewrite !fmap_cons. cbn [fst snd]. by f_equal.
Qed.

(** What [sendFileToPeerInternal] can do to [transfers] and to the
    counter: nothing, a new outgoing entry under a fresh id, or an update
    in place that keeps ids and directions. *)
Lemma send_transfers_cases now localDeviceId channelsByPeer peerId file
    isRetry e :
  let e' := (sendFileToPeerInternal now localDeviceId channelsByPeer peerId
                                    file isRetry e).1 in
  incomingState e' = incomingState e
  ∧ ((transfers e' = transfers e ∧ transferCounter e' = transferCounter e)
     ∨ (∃ status,
          transfers e'
          = mkTransfer (Tx now (S (transferCounter e))) dir_send peerId
                       (f_name file) (f_size file) status (0, 1)
            :: transfers e
          ∧ transferCounter e' = S (transferCounter e))
     ∨ (∃ id,
          transfers e'
          = updateTransfer id (λ t, setProgress (0, 1) (setStatus in_progress t))
                           (transfers e)
          ∧ transferCounter e' = transferCounter e)).
Proof.
  unfold sendFileToPeerInternal.
  assert (Hq : incomingState (enqueue now peerId file e) = incomingState e
    ∧ ((transfers (enqueue now peerId file e) = transfers e
        ∧ transferCounter (enqueue now peerId file e) = transferCounter e)
       ∨ (∃ status,
            transfers (enqueue now peerId file e)
            = mkTransfer (Tx now (S (transferCounter e))) dir_send peerId
                         (f_name file) (f_size file) status (0, 1)
              :: transfers e
            ∧ transferCounter (enqueue now peerId file e)
              = S (transferCounter e))
       ∨ (∃ id,
            transfers (enqueue now peerId file e)
            = updateTransfer id
                (λ t, setProgress (0, 1) (setStatus in_progress t)) (transfers e)
            ∧ transferCounter (enqueue now peerId file e) = transferCounter e))).
  { split; [done|]. right. left. by exists queued. }
  destruct (channelsByPeer !! peerId) as [[o l rs]|]; [destruct rs|];
    cbn [Peers.ch_readyState]; try (destruct isRetry; [by auto | exact Hq]).
  destruct isRetry; cbn [andb].
  - destruct (pendingFiles e !! peerId) as [arr|]; cbn [mbind option_bind].
    + destruct (findPending (objects e) file arr) as [ref|].
      * destruct (objects e !! ref) as [p|]; cbn [fst snd andb].
        -- split; [done|]. right. right. by exists (p_transferId p).
        -- split; [done|]. right. left. by exists in_progress.
      * split; [done|]. right. left. by exists in_progress.
    + split; [done|]. right. left. by exists in_progress.
  - split; [done|]. right. left. by exists in_progress.
Qed.

Lemma sendIds_update id f ts :
  (∀ t, t_id (f t) = t_id t ∧ t_direction (f t) = t_direction t) →
  sendIds (updateTransfer id f ts) = sendIds ts.
Proof.
  intros Hf. unfold sendIds, updateTransfer.
  induction ts as [|t ts IH]; [done|]. rewrite fmap_cons.
  change (omap ?g (?x :: ?l)) with
    (match g x with Some y => y :: omap g l | None => omap g l end).
  rewrite IH. case_decide; [destruct (Hf t) as [-> ->]|]; done.
Qed.

(** A property of the hook's state that every dispatch, every mark and
    every change of the pending arrays keeps is kept by the reconciliation
    effect. *)
Section Preservation.
Variable P : Engine → Prop.
Hypothesis Hsend : ∀ now localDeviceId channelsByPeer peerId file isRetry e,
  P e →
  P (sendFileToPeerInternal now localDeviceId channelsByPeer peerId file
                            isRetry e).1.
Hypothesis Hfail : ∀ id e,
  P e → P (withTransfers (updateTransfer id (setStatus failed) (transfers e)) e).
Hypothesis Hpend : ∀ e pf,
  P e → P (mkEngine (transfers e) pf (objects e) (nextObject e)
                    (transferCounter e) (incomingState e)).
Variable ok : Frame → Prop.
Hypothesis Hmsg : ∀ peerId f e, ok f → P e → P (onmessage peerId f e).1.

Lemma reconcilePeer_preserves now localDeviceId channelsByPeer peerId arr e :
  P e → P (reconcilePeer now localDeviceId channelsByPeer peerId arr e).1.
Proof.
  intros HP. unfold reconcilePeer.
  destruct (channelsByPeer !! peerId) as [[o l rs]|]; [destruct rs|];
    try exact HP.
  assert (F1 : ∀ l' acc,
    P acc →
    P (foldl (λ acc ref,
                match objects acc !! ref with
                | Some p => withTransfers
                              (updateTransfer (p_transferId p) (setStatus failed)
                                              (transfers acc)) acc
                | None => acc
                end) acc l')).
  { induction l' as [|ref l' IH]; intros acc Hacc; [done|].
    cbn [foldl]. apply IH.
    destruct (objects acc !! ref); [by apply Hfail | done]. }
  set (exhausted := filter _ arr). set (filesToSend := filter _ arr).
  pose proof (F1 exhausted e HP) as H1.
  set (e1 := foldl _ e exhausted) in *. clearbody e1.
  assert (H2 : ∀ l' acc out,
    P acc →
    P (foldl (λ '(acc, out) ref,
                match objects e !! ref with
                | Some p =>
                  let '(acc', out') :=
                    sendFileToPeerInternal now localDeviceId channelsByPeer
                                           peerId (p_file p) true acc in
                  (acc', out ++ out')
                | None => (acc, out)
                end) (acc, out) l').1).
  { induction l' as [|ref l' IH]; intros acc out Hacc; [done|].
    cbn [foldl]. destruct (objects e !! ref) as [p|]; [|by apply IH].
    specialize (Hsend now localDeviceId channelsByPeer peerId (p_file p) true
                  acc Hacc).
    destruct (sendFileToPeerInternal now localDeviceId channelsByPeer peerId
                (p_file p) true acc) as [acc' out'].
    by apply IH. }
  specialize (H2 filesToSend e1 [] H1).
  destruct (foldl _ (e1, []) filesToSend) as [e2 acts].
  cbn [fst] in *. by apply Hpend.
Qed.

Lemma reconcile_preserves now localDeviceId channelsByPeer e :
  P e → P (reconcile now localDeviceId channelsByPeer e).1.
Proof.
  intros HP. unfold reconcile.
  generalize (map_to_list (pendingFiles e)) (@nil Action).
  intros l. revert e HP. induction l as [|[p arr] l IH]; intros e HP out;
    [done|].
  cbn [foldl].
  pose proof (reconcilePeer_preserves now localDeviceId channelsByPeer p arr e
                HP) as H1.
  destruct (reconcilePeer now localDeviceId channelsByPeer p arr e)
    as [acc' out'].
  by apply IH.
Qed.

Lemma sendFilesToPeer_preserves now localDeviceId channelsByPeer peerId files :
  ∀ e, P e →
       P (sendFilesToPeer now localDeviceId channelsByPeer peerId files e).1.
Proof.
  induction files as [|file files IH]; intros e HP; [done|]. simpl.
  specialize (Hsend now localDeviceId channelsByPeer peerId file false e HP).
  destruct (sendFileToPeerInternal now localDeviceId channelsByPeer peerId
              file false e) as [e1 a1].
  specialize (IH e1 Hsend).
  by destruct (sendFilesToPeer now localDeviceId channelsByPeer peerId files e1).
Qed.

Lemma calls_preserve localDeviceId (cs : list Call) :
  Forall ok (received cs) → ∀ e, P e → P (calls localDeviceId cs e).
Proof.
  unfold calls. induction cs as [|c cs IH]; intros Hok e HP; [done|].
  destruct c as [now chs p files|now chs|p f]; cbn [foldl call].
  - apply IH; [exact Hok|]. by apply sendFilesToPeer_preserves.
  - apply IH; [exact Hok|]. by apply reconcile_preserves.
  - unfold received in Hok. cbn [omap list_omap] in Hok.
    apply Forall_cons in Hok as [Hf Hok].
    apply IH; [exact Hok|]. by apply Hmsg.
Qed.

End Preservation.

Lemma sendIdsFresh_update id f e :
  (∀ t, t_id (f t) = t_id t ∧ t_direction (f t) = t_direction t) →
  sendIdsFresh e →
  sendIdsFresh (withTransfers (updateTransfer id f (transfers e)) e).
Proof.
  intros Hf [Hnd Hle]. unfold sendIdsFresh. cbn [transfers withTransfers
    transferCounter]. by rewrite sendIds_update.
Qed.

Lemma sendIdsFresh_reachable localDeviceId (cs : list Call) :
  sendIdsFresh (calls localDeviceId cs emptyEngine).
Proof.
  apply calls_preserve with (ok := λ _, True);
    [| | | |by apply Forall_forall|].
  - intros now l chs p file b e [Hnd Hle].
    destruct (send_transfers_cases now l chs p file b e)
      as (_ & [[Ht Hc]|[(status & Ht & Hc)|(id & Ht & Hc)]]);
      unfold sendIdsFresh; rewrite Ht, Hc.
    + done.
    + cbn [sendIds omap list_omap t_direction t_id fmap list_fmap counterOf].
      split.
      * apply NoDup_cons. split; [|exact Hnd].
        intros Hin. apply list_elem_of_fmap in Hin as (id & Hid & Hin).
        apply (proj1 (Forall_forall _ _) Hle) in Hin. lia.
      * constructor; [simpl; lia|].
        eapply Forall_impl; [exact Hle|]. intros id Hid. simpl in *. lia.
    + by rewrite sendIds_update.
  - intros id e He. by apply sendIdsFresh_update.
  - intros e pf He. exact He.
  - intros p f e _ He.
    destruct f as [id name size mime from|id|data|data|]; simpl.
    + exact He.
    + destruct (JsMap.get id (incomingState e)); [|exact He].
      by apply (sendIdsFresh_update id _ e).
    + destruct (attribute p (Some (length data)) data (incomingState e))
        as [[id|] inc]; [|exact He].
      by apply (sendIdsFresh_update id _ e).
    + destruct (attribute p None data (incomingState e))
        as [[id|] inc]; [|exact He].
      by apply (sendIdsFresh_update id _ e).
    + exact He.
  - split; constructor.
Qed.

(** X11: in every state the hook reaches, no two outgoing entries of
    [transfers] share a transfer id, and every id handed out carries a
    counter that is at most the current [transferCounter]. *)
Theorem send_ids_never_collide localDeviceId (cs : list Call) :
  let e := calls localDeviceId cs emptyEngine in
  NoDup (sendIds (transfers e))
  ∧ ∀ id, id ∈ sendIds (transfers e) → counterOf id ≤ transferCounter e.
Proof.
  destruct (sendIdsFresh_reachable localDeviceId cs) as [Hnd Hle].
  split; [by apply (NoDup_fmap_1 counterOf)|].
  intros id Hin. by apply (proj1 (Forall_forall _ _) Hle).
Qed.

Lemma JsMap_set_Forall {V} (P : TransferId * V → Prop) id v m :
  P (id, v) → Forall P m → Forall P (JsMap.set id v m).
Proof.
  intros Hv. induction 1 as [|[k w] m Hx Hm IH]; simpl.
  - by repeat constructor.
  - destruct (decide (k = id)); by constructor.
Qed.

Lemma JsMap_delete_Forall' {V} (P : TransferId * V → Prop) id m :
  Forall P m → Forall P (JsMap.delete id m).
Proof.
  induction 1 as [|[k w] m Hx _ IH]; [constructor|]. simpl.
  destruct (decide (k = id)); [done | by constructor].
Qed.

Lemma attribute_Forall (P : TransferId * Incoming → Prop) peerId len data m :
  (∀ id state, P (id, state) → P (id, storeChunk len data state)) →
  Forall P m → Forall P (attribute peerId len data m).2.
Proof.
  intros Happ. induction 1 as [|[id state] m Hx Hm IH]; [constructor|]. simpl.
  destruct (bool_decide (i_peerId state = peerId)
            && (i_receivedBytes state <? i_size state)).
  - constructor; [by apply Happ | done].
  - destruct (attribute peerId len data m) as [r m']. by constructor.
Qed.

Lemma JsMap_get_elem {V} (id : TransferId) (v : V) m :
  JsMap.get id m = Some v → (id, v) ∈ m.
Proof.
  induction m as [|[k w] m IH]; [done|]. simpl.
  destruct (decide (k = id)) as [->|Hk].
  - intros [= ->]. by left.
  - intros H. right. by apply IH.
Qed.

Lemma JsMap_get_delete {V} (id : TransferId) (m : list (TransferId * V)) :
  JsMap.get id (JsMap.delete id m) = None.
Proof.
  induction m as [|[k w] m IH]; [done|]. simpl.
  destruct (decide (k = id)); [done|]. simpl. by rewrite decide_False.
Qed.

(** A frame keeps a property of the assemblies that announcing, deleting
    and storing its chunk keep. *)
Lemma onmessage_assemblies (Q : TransferId * Incoming → Prop) p f e :
  (∀ id name size mime, Q (id, mkIncoming p name size mime 0 [])) →
  (∀ data id state, f = Chunk data → Q (id, state) →
     Q (id, storeChunk (Some (length data)) data state)) →
  (∀ data id state, f = BlobChunk data → Q (id, state) →
     Q (id, storeChunk None data state)) →
  Forall Q (incomingState e) → Forall Q (incomingState (onmessage p f e).1).
Proof.
  intros Hnew Hbuffer Hblob He.
  destruct f as [id name size mime from|id|data|data|]; simpl.
  - apply JsMap_set_Forall; [apply Hnew | exact He].
  - destruct (JsMap.get id (incomingState e)); [|exact He].
    by apply JsMap_delete_Forall'.
  - pose proof (attribute_Forall Q p (Some (length data)) data
                  (incomingState e)
                  (λ id state, Hbuffer data id state eq_refl) He) as Hatt.
    by destruct (attribute p (Some (length data)) data (incomingState e))
      as [[id|] inc].
  - pose proof (attribute_Forall Q p None data (incomingState e)
                  (λ id state, Hblob data id state eq_refl) He) as Hatt.
    by destruct (attribute p None data (incomingState e)) as [[id|] inc].
  - exact He.
Qed.

Lemma bytesCounted_reachable localDeviceId (cs : list Call) :
  bytesCounted (calls localDeviceId cs emptyEngine).
Proof.
  apply calls_preserve with (ok := λ _, True);
    [| | | |by apply Forall_forall|].
  - intros now l chs p file b e He. unfold bytesCounted.
    by rewrite (proj1 (send_transfers_cases now l chs p file b e)).
  - intros id e He. exact He.
  - intros e pf He. exact He.
  - intros p f e _ He. unfold bytesCounted in *.
    apply onmessage_assemblies; [by intros | | | exact He];
      intros data id state _ Hs; unfold storeChunk;
      cbn [snd i_receivedBytes i_chunks] in *;
      rewrite concat_app, length_app; simpl; rewrite app_nil_r; lia.
  - constructor.
Qed.

(** As long as no binary frame is delivered as a [Blob], the count is
    exact. *)
Lemma bytesExact_reachable localDeviceId (cs : list Call) :
  Forall notBlob (received cs) →
  bytesExact (calls localDeviceId cs emptyEngine).
Proof.
  intros Hok. apply calls_preserve with (ok := notBlob);
    [| | | |exact Hok|].
  - intros now l chs p file b e He. unfold bytesExact.
    by rewrite (proj1 (send_transfers_cases now l chs p file b e)).
  - intros id e He. exact He.
  - intros e pf He. exact He.
  - intros p f e Hf He. unfold bytesExact in *.
    apply onmessage_assemblies; [by intros | | | exact He].
    + intros data id state _ Hs. unfold storeChunk.
      cbn [snd i_receivedBytes i_chunks] in *.
      rewrite concat_app, length_app. simpl. rewrite app_nil_r. lia.
    + intros data id state -> _. destruct Hf.
  - constructor.
Qed.

Lemma attribute_counts_nothing peerId data m :
  Forall2 (λ x y : TransferId * Incoming,
             i_receivedBytes y.2 = i_receivedBytes x.2)
          m (attribute peerId None data m).2.
Proof.
  induction m as [|[id state] m IH]; [constructor|]. simpl.
  destruct (bool_decide (i_peerId state = peerId)
            && (i_receivedBytes state <? i_size state)).
  - constructor.
    + unfold storeChunk. cbn [snd i_receivedBytes]. lia.
    + apply Forall_Forall2_diag, Forall_forall. by intros.
  - destruct (attribute peerId None data m) as [r m']. by constructor.
Qed.

(** A chunk delivered as a [Blob] changes no byte count. *)
Lemma blob_counts_nothing peerId data e :
  Forall2 (λ x y : TransferId * Incoming,
             i_receivedBytes y.2 = i_receivedBytes x.2)
          (incomingState e)
          (incomingState (onmessage peerId (BlobChunk data) e).1).
Proof.
  pose proof (attribute_counts_nothing peerId data (incomingState e)) as H.
  cbn [onmessage byteLength].
  destruct (attribute peerId None data (incomingState e)) as [[id|] inc].
  - exact H.
  - apply Forall_Forall2_diag, Forall_forall. by intros.
Qed.

(** X12: the byte count of an assembly against the bytes it holds.  In
    every state the hook reaches, no assembly counts more bytes than the
    chunks it holds have; the count is exact as long as every binary frame
    was delivered as an [ArrayBuffer], while a chunk delivered as a [Blob]
    changes no count.  Whatever was counted or announced, a
    [file-complete] frame for an assembly delivers exactly one artifact,
    made of all the chunks held, and discards the assembly. *)
Theorem held_bytes_bound_the_byte_count localDeviceId (cs : list Call)
    (peerId : string) (id : TransferId) (state : Incoming) :
  let e := calls localDeviceId cs emptyEngine in
  JsMap.get id (incomingState e) = Some state →
  i_receivedBytes state ≤ length (concat (i_chunks state))
  ∧ (Forall notBlob (received cs) →
     i_receivedBytes state = length (concat (i_chunks state)))
  ∧ (∀ data,
       Forall2 (λ x y : TransferId * Incoming,
                  i_receivedBytes y.2 = i_receivedBytes x.2)
               (incomingState e)
               (incomingState (onmessage peerId (BlobChunk data) e).1))
  ∧ ∃ e' artifact,
      onmessage peerId (FileComplete id) e = (e', [artifact])
      ∧ a_bytes artifact = concat (i_chunks state)
      ∧ JsMap.get id (incomingState e') = None.
Proof.
  intros e Hget.
  apply JsMap_get_elem in Hget as Hin.
  split; [|split; [|split]].
  - pose proof (bytesCounted_reachable localDeviceId cs) as Hall.
    by apply (proj1 (Forall_forall _ _) Hall) in Hin.
  - intros Hok.
    pose proof (bytesExact_reachable localDeviceId cs Hok) as Hall.
    by apply (proj1 (Forall_forall _ _) Hall) in Hin.
  - intros data. apply blob_counts_nothing.
  - unfold onmessage. fold e. rewrite Hget.
    eexists _, _. split; [reflexivity|]. cbn [a_bytes incomingState].
    split; [done|]. apply JsMap_get_delete.
Qed.

Lemma retriesOf_insert objs ref p :
  retriesOf (<[ref := p]> objs) ref = p_retries p.
Proof. unfold retriesOf. by rewrite lookup_insert_eq. Qed.

(** X13: a send queued on an otherwise empty queue is dispatched by the
    first reconciliation pass that finds the peer's channel open: the
    [file-meta] frame carries the transfer id the queued entry was given,
    the reader loop is started for the same file, the queued transfer entry
    becomes [in-progress] under the same id, and the peer's queue is gone. *)
Theorem queued_send_keeps_its_id (now now' : N) (localDeviceId peerId : string)
    (file : File) (channelsByPeer channelsByPeer' : gmap string Peers.Channel)
    (o : nat) (l : string) (e : Engine) :
  Stated.noOpenChannel channelsByPeer →
  pendingFiles e = ∅ →
  channelsByPeer' !! peerId = Some (Peers.mkChannel o l Peers.ch_open) →
  let id := Tx now (S (transferCounter e)) in
  let queuedEntry :=
    mkTransfer id dir_send peerId (f_name file) (f_size file) queued (0, 1) in
  let e1 := (sendFileToPeerInternal now localDeviceId channelsByPeer peerId
                                    file false e).1 in
  let res := reconcile now' localDeviceId channelsByPeer' e1 in
  transfers e1 = queuedEntry :: transfers e
  ∧ res.2 = [ChannelSend peerId
               (FileMeta id (f_name file) (f_size file) (f_type file)
                         localDeviceId);
             StartReader peerId id file]
  ∧ transfers res.1
    = updateTransfer id (λ t, setProgress (0, 1) (setStatus in_progress t))
                     (queuedEntry :: transfers e)
  ∧ pendingFiles res.1 = ∅.
Proof.
  intros Hno Hempty Hch. cbv zeta.
  rewrite sendFileToPeerInternal_not_open by done. cbn [fst].
  split; [done|].
  enough (Hres :
    reconcile now' localDeviceId channelsByPeer' (enqueue now peerId file e)
    = (mkEngine
         (updateTransfer (Tx now (S (transferCounter e)))
            (λ t, setProgress (0, 1) (setStatus in_progress t))
            (mkTransfer (Tx now (S (transferCounter e))) dir_send peerId
                        (f_name file) (f_size file) queued (0, 1)
             :: transfers e))
         ∅
         (<[nextObject e := mkPending file (Tx now (S (transferCounter e))) 1]>
            (<[nextObject e := mkPending file (Tx now (S (transferCounter e))) 0]>
               (objects e)))
         (S (nextObject e)) (S (transferCounter e)) (incomingState e),
       [ChannelSend peerId
          (FileMeta (Tx now (S (transferCounter e))) (f_name file)
                    (f_size file) (f_type file) localDeviceId);
        StartReader peerId (Tx now (S (transferCounter e))) file]))
    by (by rewrite Hres).
  unfold reconcile, enqueue. cbn [createTransferId pendingFiles objects
    nextObject transferCounter transfers incomingState fst snd].
  rewrite Hempty, lookup_empty. cbn [default app].
  rewrite insert_empty, map_to_list_singleton. cbn [foldl].
  unfold reconcilePeer. rewrite Hch.
  cbn [objects pendingFiles transfers nextObject transferCounter incomingState].
  rewrite !filter_cons, !filter_nil, retriesOf_insert. cbn [p_retries].
  rewrite (decide_True (P := 0 < 5)) by lia.
  rewrite (decide_False (P := ¬ 0 < 5)) by lia.
  rewrite (decide_False (P := nextObject e ∉ [nextObject e]))
    by (intros Hn; apply Hn; by left).
  cbn [foldl length]. rewrite lookup_insert_eq.
  unfold sendFileToPeerInternal. rewrite Hch.
  cbn [Peers.ch_readyState pendingFiles objects transfers nextObject
       transferCounter incomingState p_file].
  rewrite lookup_singleton_eq. cbn [mbind option_bind].
  unfold findPending. cbn [find]. rewrite lookup_insert_eq.
  cbn [p_file]. rewrite bool_decide_eq_true_2 by done. cbn [orb].
  rewrite lookup_insert_eq.
  cbn [p_transferId p_file p_retries andb fst snd app withTransfers transfers
       pendingFiles objects nextObject transferCounter incomingState].
  rewrite bool_decide_eq_true_2 by done.
  by rewrite delete_singleton_eq.
Qed.

(** X14: two files of the same name queued for one peer are both
    dispatched under the transfer id of the first, because the pending
    entry of a retry is looked up by file identity or file name: both
    [file-meta] frames carry the first id, and the transfer entry of the
    second file is left [queued] although its queue entry is gone. *)
Theorem same_name_sends_share_first_id (now now' : N)
    (localDeviceId peerId : string) (file1 file2 : File)
    (channelsByPeer channelsByPeer' : gmap string Peers.Channel)
    (o : nat) (l : string) (e : Engine) :
  f_name file1 = f_name file2 →
  Stated.noOpenChannel channelsByPeer →
  pendingFiles e = ∅ →
  channelsByPeer' !! peerId = Some (Peers.mkChannel o l Peers.ch_open) →
  let id1 := Tx now (S (transferCounter e)) in
  let id2 := Tx now (S (S (transferCounter e))) in
  let e2 := (sendFilesToPeer now localDeviceId channelsByPeer peerId
                             [file1; file2] e).1 in
  let res := reconcile now' localDeviceId channelsByPeer' e2 in
  res.2 = [ChannelSend peerId
             (FileMeta id1 (f_name file1) (f_size file1) (f_type file1)
                       localDeviceId);
           StartReader peerId id1 file1;
           ChannelSend peerId
             (FileMeta id1 (f_name file2) (f_size file2) (f_type file2)
                       localDeviceId);
           StartReader peerId id1 file2]
  ∧ head (transfers res.1)
    = Some (mkTransfer id2 dir_send peerId (f_name file2) (f_size file2)
                       queued (0, 1))
  ∧ pendingFiles res.1 = ∅.
Proof.
  intros Hname Hno Hempty Hch. cbv zeta.
  cbn [sendFilesToPeer]. rewrite !sendFileToPeerInternal_not_open by done.
  cbn [fst snd app].
  set (n := nextObject e). set (c := transferCounter e).
  set (p1 := mkPending file1 (Tx now (S c)) 0).
  set (p2 := mkPending file2 (Tx now (S (S c))) 0).
  assert (Hq : enqueue now peerId file2 (enqueue now peerId file1 e)
    = mkEngine
        (mkTransfer (Tx now (S (S c))) dir_send peerId (f_name file2)
                    (f_size file2) queued (0, 1)
         :: mkTransfer (Tx now (S c)) dir_send peerId (f_name file1)
                       (f_size file1) queued (0, 1)
         :: transfers e)
        {[peerId := [n; S n]]}
        (<[S n := p2]> (<[n := p1]> (objects e)))
        (S (S n)) (S (S c)) (incomingState e)).
  { unfold enqueue. cbn [createTransferId pendingFiles objects nextObject
      transferCounter transfers incomingState fst snd].
    rewrite Hempty, lookup_empty. cbn [default app].
    rewrite insert_empty, lookup_singleton_eq. cbn [default app].
    by rewrite insert_singleton_eq. }
  rewrite Hq. clear Hq.
  enough (Hres :
    reconcile now' localDeviceId channelsByPeer'
      (mkEngine
         (mkTransfer (Tx now (S (S c))) dir_send peerId (f_name file2)
                     (f_size file2) queued (0, 1)
          :: mkTransfer (Tx now (S c)) dir_send peerId (f_name file1)
                        (f_size file1) queued (0, 1)
          :: transfers e)
         {[peerId := [n; S n]]}
         (<[S n := p2]> (<[n := p1]> (objects e)))
         (S (S n)) (S (S c)) (incomingState e))
    = (mkEngine
         (updateTransfer (Tx now (S c))
            (λ t, setProgress (0, 1) (setStatus in_progress t))
            (updateTransfer (Tx now (S c))
               (λ t, setProgress (0, 1) (setStatus in_progress t))
               (mkTransfer (Tx now (S (S c))) dir_send peerId (f_name file2)
                           (f_size file2) queued (0, 1)
                :: mkTransfer (Tx now (S c)) dir_send peerId (f_name file1)
                              (f_size file1) queued (0, 1)
                :: transfers e)))
         ∅
         (<[n := mkPending file1 (Tx now (S c)) 2]>
            (<[n := mkPending file1 (Tx now (S c)) 1]>
               (<[S n := p2]> (<[n := p1]> (objects e)))))
         (S (S n)) (S (S c)) (incomingState e),
       [ChannelSend peerId
          (FileMeta (Tx now (S c)) (f_name file1) (f_size file1)
                    (f_type file1) localDeviceId);
        StartReader peerId (Tx now (S c)) file1;
        ChannelSend peerId
          (FileMeta (Tx now (S c)) (f_name file2) (f_size file2)
                    (f_type file2) localDeviceId);
        StartReader peerId (Tx now (S c)) file2])).
  { rewrite Hres. cbn [fst snd transfers pendingFiles].
    split; [done|]. split; [|done].
    unfold updateTransfer. rewrite !fmap_cons. cbn [head t_id].
    rewrite (decide_False (P := Tx now (S (S c)) = Tx now (S c)))
      by (intros [= Hc]; lia).
    cbn [t_id].
    by rewrite (decide_False (P := Tx now (S (S c)) = Tx now (S c)))
      by (intros [= Hc]; lia). }
  assert (Hn1 : (<[S n := p2]> (<[n := p1]> (objects e))) !! n = Some p1).
  { rewrite lookup_insert_ne by lia. apply lookup_insert_eq. }
  assert (Hn2 : (<[S n := p2]> (<[n := p1]> (objects e))) !! S n = Some p2)
    by apply lookup_insert_eq.
  assert (Hret : ∀ ref, ref ∈ [n; S n] →
            retriesOf (<[S n := p2]> (<[n := p1]> (objects e))) ref = 0).
  { intros ref Hin. unfold retriesOf.
    apply elem_of_cons in Hin as [->|Hin];
      [|apply list_elem_of_singleton in Hin as ->]; by rewrite ?Hn1, ?Hn2. }
  assert (Hf : filter (λ ref, retriesOf (<[S n := p2]> (<[n := p1]> (objects e)))
                                ref < 5) [n; S n] = [n; S n]).
  { apply filter_all, Forall_forall. intros ref Hin.
    rewrite (Hret ref Hin). lia. }
  assert (Hx : filter (λ ref, ¬ retriesOf (<[S n := p2]> (<[n := p1]> (objects e)))
                                  ref < 5) [n; S n] = []).
  { apply filter_none, Forall_forall. intros ref Hin.
    rewrite (Hret ref Hin). lia. }
  assert (Hr : filter (λ ref, ref ∉ [n; S n]) [n; S n] = []).
  { apply filter_none. apply Forall_forall. by auto. }
  unfold reconcile. cbn [pendingFiles]. rewrite map_to_list_singleton.
  cbn [foldl]. unfold reconcilePeer. rewrite Hch.
  cbn [objects pendingFiles transfers nextObject transferCounter incomingState].
  rewrite Hf, Hx, Hr. cbn [foldl length]. rewrite Hn1.
  (* first dispatch *)
  unfold sendFileToPeerInternal at 1. rewrite Hch.
  cbn [Peers.ch_readyState pendingFiles objects transfers nextObject
       transferCounter incomingState p_file p1].
  rewrite lookup_singleton_eq. cbn [mbind option_bind].
  unfold findPending at 1. cbn [find]. rewrite Hn1.
  cbn [p_file p1]. rewrite (bool_decide_eq_true_2 (f_obj file1 = f_obj file1))
    by done. cbn [orb]. rewrite Hn1.
  cbn [p_transferId p_file p_retries andb fst snd app withTransfers transfers
       pendingFiles objects nextObject transferCounter incomingState p1].
  (* second dispatch *)
  rewrite Hn2.
  unfold sendFileToPeerInternal. rewrite Hch.
  cbn [Peers.ch_readyState pendingFiles objects transfers nextObject
       transferCounter incomingState p_file p2 withTransfers].
  rewrite lookup_singleton_eq. cbn [mbind option_bind].
  unfold findPending. cbn [find].
  rewrite lookup_insert_eq. cbn [p_file].
  rewrite (bool_decide_eq_true_2 (f_name file1 = f_name file2)) by done.
  rewrite orb_true_r. rewrite lookup_insert_eq.
  cbn [p_transferId p_file p_retries andb fst snd app withTransfers transfers
       pendingFiles objects nextObject transferCounter incomingState].
  rewrite bool_decide_eq_true_2 by done.
  by rewrite delete_singleton_eq.
Qed.

Lemma connecting_is_not_open :
  Stated.noOpenChannel Samples.connectingChannel.
Proof.
  intros p channel Hch. unfold Samples.connectingChannel in Hch.
  apply lookup_singleton_Some in Hch as [_ <-]. discriminate.
Qed.

Lemma sequential_transfers_arrive_witness :
  ∃ e' artifacts,
    receive "p"
      (concat ((λ job, sentFrames "me" job.1.1 job.1.2 job.2)
                 <$> MoreSamples.twoJobs))
      emptyEngine = (e', artifacts)
    ∧ a_bytes <$> artifacts = (λ job, f_bytes job.1.2) <$> MoreSamples.twoJobs.
Proof.
  apply (sequential_transfers_arrive "me" "p" MoreSamples.twoJobs emptyEngine).
  - repeat (apply Forall_cons_2 || apply Forall_nil_2);
      (split; [repeat constructor | vm_compute; lia]).
  - constructor.
Defined.

Lemma held_bytes_bound_the_byte_count_witness :
  let e := calls "me" MoreSamples.partialReceive emptyEngine in
  JsMap.get (Tx 0 1) (incomingState e) = Some MoreSamples.partialAssembly
  ∧ i_receivedBytes MoreSamples.partialAssembly = 2
  ∧ length (concat (i_chunks MoreSamples.partialAssembly)) = 3
  ∧ i_receivedBytes MoreSamples.partialAssembly
    ≤ length (concat (i_chunks MoreSamples.partialAssembly))
  ∧ ∃ e' artifact,
      onmessage "p" (FileComplete (Tx 0 1)) e = (e', [artifact])
      ∧ a_bytes artifact = concat (i_chunks MoreSamples.partialAssembly)
      ∧ JsMap.get (Tx 0 1) (incomingState e') = None.
Proof.
  assert (Hget : JsMap.get (Tx 0 1)
                   (incomingState
                      (calls "me" MoreSamples.partialReceive emptyEngine))
                 = Some MoreSamples.partialAssembly)
    by (vm_compute; reflexivity).
  split; [exact Hget|]. split; [reflexivity|]. split; [reflexivity|].
  pose proof (held_bytes_bound_the_byte_count "me" MoreSamples.partialReceive
                "p" (Tx 0 1) MoreSamples.partialAssembly Hget)
    as (Hle & _ & _ & Hdel).
  split; [exact Hle | exact Hdel].
Defined.

Lemma queued_send_keeps_its_id_witness :
  let id := Tx 7 1 in
  let queuedEntry := mkTransfer id dir_send "p" "a.txt" 3 queued (0, 1) in
  let e1 := (sendFileToPeerInternal 7 "me" Samples.connectingChannel "p"
                                    Samples.abc false emptyEngine).1 in
  let res := reconcile 8 "me" Samples.openChannel e1 in
  transfers e1 = queuedEntry :: []
  ∧ res.2 = [ChannelSend "p" (FileMeta id "a.txt" 3 "text/plain" "me");
             StartReader "p" id Samples.abc]
  ∧ transfers res.1
    = updateTransfer id (λ t, setProgress (0, 1) (setStatus in_progress t))
                     (queuedEntry :: [])
  ∧ pendingFiles res.1 = ∅.
Proof.
  apply (queued_send_keeps_its_id 7 8 "me" "p" Samples.abc
           Samples.connectingChannel Samples.openChannel 0 "files" emptyEngine).
  - exact connecting_is_not_open.
  - reflexivity.
  - vm_compute. reflexivity.
Defined.

Lemma same_name_sends_share_first_id_witness :
  let e2 := (sendFilesToPeer 7 "me" Samples.connectingChannel "p"
                             [Samples.abc; MoreSamples.abcAgain]
                             emptyEngine).1 in
  let res := reconcile 8 "me" Samples.openChannel e2 in
  f_name Samples.abc = f_name MoreSamples.abcAgain
  ∧ res.2 = [ChannelSend "p" (FileMeta (Tx 7 1) "a.txt" 3 "text/plain" "me");
             StartReader "p" (Tx 7 1) Samples.abc;
             ChannelSend "p" (FileMeta (Tx 7 1) "a.txt" 1 "text/plain" "me");
             StartReader "p" (Tx 7 1) MoreSamples.abcAgain]
  ∧ head (transfers res.1)
    = Some (mkTransfer (Tx 7 2) dir_send "p" "a.txt" 1 queued (0, 1))
  ∧ pendingFiles res.1 = ∅.
Proof.
  split; [reflexivity|].
  apply (same_name_sends_share_first_id 7 8 "me" "p" Samples.abc
           MoreSamples.abcAgain Samples.connectingChannel Samples.openChannel
           0 "files" emptyEngine).
  - reflexivity.
  - exact connecting_is_not_open.
  - reflexivity.
  - vm_compute. reflexivity.
Defined.

End TransferMore.

(** * Further properties of the peer session orchestrator *)

Section PeersMoreProofs.
Import Peers PeersMore.

Lemma cleanupPeer_state peerId h :
  let h1 := (cleanupPeer peerId h).1 in
  (∀ q, q ∈ peerConnections h1 ↔ q ∈ peerConnections h ∧ q ≠ peerId)
  ∧ dataChannels h1 = delete peerId (dataChannels h)
  ∧ connectingPeers h1 = connectingPeers h ∖ {[peerId]}
  ∧ webrtcStateByPeer h1 = delete peerId (webrtcStateByPeer h).
Proof.
  unfold cleanupPeer.
  assert (Hpcs : ∀ q,
    q ∈ (if bool_decide (peerId ∈ peerConnections h)
         then peerConnections h ∖ {[peerId]} else peerConnections h)
    ↔ q ∈ peerConnections h ∧ q ≠ peerId).
  { intros q. case_bool_decide as Hin.
    - rewrite elem_of_difference, elem_of_singleton. done.
    - split; [|by intros [? _]]. intros Hq. split; [done|]. by intros ->. }
  destruct (dataChannels h !! peerId) as [channel|] eqn:Hch; cbn [fst
    peerConnections dataChannels connectingPeers webrtcStateByPeer].
  - done.
  - split; [done|]. split; [|done]. by rewrite delete_id.
Qed.

(** The fold of the pruning effect over any list of peer ids. *)
Lemma prune_fold deviceId signalingPeers (l : list string) :
  ∀ h out,
    let h' :=
      (foldl (λ '(acc, out) peerId,
                if bool_decide (peerId ≠ deviceId
                                ∧ ¬ isCurrent signalingPeers peerId)
                then let '(acc', out') := cleanupPeer peerId acc in
                     (acc', out ++ out')
                else (acc, out))
             (h, out) l).1 in
    let gone q := q ∈ l ∧ q ≠ deviceId ∧ ¬ isCurrent signalingPeers q in
    (∀ q, q ∈ peerConnections h' ↔ q ∈ peerConnections h ∧ ¬ gone q)
    ∧ (∀ q, gone q → dataChannels h' !! q = None
                     ∧ (q ∉ connectingPeers h')
                     ∧ webrtcStateByPeer h' !! q = None)
    ∧ (∀ q, ¬ gone q → dataChannels h' !! q = dataChannels h !! q
                       ∧ (q ∈ connectingPeers h' ↔ q ∈ connectingPeers h)
                       ∧ webrtcStateByPeer h' !! q = webrtcStateByPeer h !! q).
Proof.
  induction l as [|p l IH]; intros h out; cbv zeta.
  - cbn [foldl fst]. split; [|split].
    + intros q. split; [|by intros [? _]]. intros Hq. split; [done|].
      intros [Hin _]. by apply elem_of_nil in Hin.
    + intros q [Hin _]. by apply elem_of_nil in Hin.
    + done.
  - cbn [foldl]. case_bool_decide as Hrem.
    + pose proof (cleanupPeer_state p h) as (Hpcs & Hdc & Hcp & Hws).
      cbv zeta in Hpcs, Hdc, Hcp, Hws.
      destruct (cleanupPeer p h) as [h1 out1]. cbn [fst] in *.
      destruct (IH h1 (out ++ out1)) as (IHp & IHg & IHk). cbv zeta in *.
      split; [|split].
      * intros q. rewrite IHp, Hpcs. split.
        -- intros [[Hq Hne] Hng]. split; [done|].
           intros (Hin & Hd & Hc). apply elem_of_cons in Hin as [->|Hin];
             [done | by apply Hng].
        -- intros [Hq Hng]. split; [split; [done|]|].
           ++ intros ->. apply Hng. split; [by left | done].
           ++ intros (Hin & Hd & Hc). apply Hng. split; [by right | done].
      * intros q (Hin & Hd & Hc).
        destruct (decide (q ∈ l)) as [Hl|Hl]; [by apply IHg|].
        apply elem_of_cons in Hin as [->|Hin]; [|done].
        destruct (IHk p) as (H1 & H2 & H3); [by intros [? _]|].
        rewrite H1, H2, H3, Hdc, Hcp, Hws, !lookup_delete_eq.
        split; [done|]. split; [set_solver | done].
      * intros q Hng.
        assert (Hne : q ≠ p).
        { intros ->. apply Hng. split; [by left | done]. }
        destruct (IHk q) as (H1 & H2 & H3).
        { intros (Hin & Hd & Hc). apply Hng. split; [by right | done]. }
        rewrite H1, H2, H3, Hdc, Hcp, Hws, !lookup_delete_ne by done.
        split; [done|]. split; [set_solver | done].
    + destruct (IH h out) as (IHp & IHg & IHk). cbv zeta in *.
      assert (Hsame : ∀ q, (q ∈ p :: l ∧ q ≠ deviceId
                            ∧ ¬ isCurrent signalingPeers q)
                           ↔ (q ∈ l ∧ q ≠ deviceId
                              ∧ ¬ isCurrent signalingPeers q)).
      { intros q. split.
        - intros (Hin & Hd & Hc). apply elem_of_cons in Hin as [->|Hin];
            [by destruct Hrem | done].
        - intros (Hin & Hd & Hc). split; [by right | done]. }
      split; [|split].
      * intros q. rewrite IHp. by rewrite Hsame.
      * intros q Hg. apply IHg. by apply Hsame.
      * intros q Hng. apply IHk. by rewrite <- Hsame.
Qed.

(** X15: the pruning effect closes exactly the connections of the peers
    that are no longer in the signaling list (the own device id apart).
    Such a peer loses its connection, its data channel, its connecting mark
    and its channel state; every other peer keeps all four as they were. *)
Theorem prune_removes_only_departed_peers (deviceId : string)
    (signalingPeers : list JsStr) (h : Hook) :
  let h' := (prunePeers deviceId signalingPeers h).1 in
  let departed q :=
    q ∈ peerConnections h ∧ q ≠ deviceId ∧ ¬ isCurrent signalingPeers q in
  (∀ q, q ∈ peerConnections h' ↔ q ∈ peerConnections h ∧ ¬ departed q)
  ∧ (∀ q, departed q → dataChannels h' !! q = None
                         ∧ (q ∉ connectingPeers h')
                         ∧ webrtcStateByPeer h' !! q = None)
  ∧ (∀ q, ¬ departed q →
          dataChannels h' !! q = dataChannels h !! q
          ∧ (q ∈ connectingPeers h' ↔ q ∈ connectingPeers h)
          ∧ webrtcStateByPeer h' !! q = webrtcStateByPeer h !! q).
Proof.
  cbv zeta. unfold prunePeers.
  destruct (prune_fold deviceId signalingPeers (elements (peerConnections h))
              h []) as (Hp & Hg & Hk). cbv zeta in *.
  assert (Hiff : ∀ q, (q ∈ elements (peerConnections h) ∧ q ≠ deviceId
                       ∧ ¬ isCurrent signalingPeers q)
                      ↔ (q ∈ peerConnections h ∧ q ≠ deviceId
                         ∧ ¬ isCurrent signalingPeers q)).
  { intros q. by rewrite elem_of_elements. }
  split; [|split].
  - intros q. rewrite Hp. by rewrite Hiff.
  - intros q Hd. apply Hg. by apply Hiff.
  - intros q Hnd. apply Hk. by rewrite Hiff.
Qed.

Lemma initiateTo_passed deviceId fresh p h :
  passedOver deviceId p h → initiateTo deviceId fresh (Some p) h = (h, []).
Proof.
  intros Hpass. unfold initiateTo, iAmInitiator.
  destruct (decide (p = EmptyString)) as [->|Hne]; [done|].
  rewrite (truthy_Some_ne p Hne). cbn [negb orb].
  case_bool_decide; [done|].
  case_bool_decide; [done|]. case_bool_decide; [done|]. cbn [orb].
  destruct Hpass as [?|[?|[?|[?|Hlt]]]]; try done. by rewrite Hlt.
Qed.

Lemma initiateTo_started deviceId fresh p h :
  ¬ passedOver deviceId p h →
  initiateTo deviceId fresh (Some p) h
  = (handleDataChannelReady p (mkChannel fresh "files" ch_connecting)
       (mkHook ({[p]} ∪ peerConnections h) (dataChannels h)
               ({[p]} ∪ connectingPeers h) (channelsVersion h)
               (webrtcStateByPeer h)),
     [CreatePeerConnection p; CreateDataChannel p "files"; CreateOffer p]).
Proof.
  intros Hpass. unfold passedOver in Hpass. unfold initiateTo, iAmInitiator.
  rewrite (truthy_Some_ne p) by tauto. cbn [negb orb].
  rewrite !bool_decide_eq_false_2 by tauto. cbn [orb].
  destruct (js_lt deviceId p) eqn:Hlt; [done|]. tauto.
Qed.

Lemma handleDataChannelReady_sets peerId channel h :
  peerConnections (handleDataChannelReady peerId channel h) = peerConnections h
  ∧ connectingPeers (handleDataChannelReady peerId channel h)
    = connectingPeers h
  ∧ (∀ q, is_Some (dataChannels h !! q) →
          is_Some (dataChannels (handleDataChannelReady peerId channel h) !! q))
  ∧ is_Some (dataChannels (handleDataChannelReady peerId channel h) !! peerId).
Proof.
  unfold handleDataChannelReady. case_bool_decide as Hc; cbn.
  - done.
  - split; [done|]. split; [done|]. split.
    + intros q Hq. destruct (decide (peerId = q)) as [->|Hne];
        [by rewrite lookup_insert_eq | by rewrite lookup_insert_ne].
    + by rewrite lookup_insert_eq.
Qed.

Lemma passedOver_dec deviceId p h :
  passedOver deviceId p h ∨ ¬ passedOver deviceId p h.
Proof.
  unfold passedOver.
  destruct (decide (p = EmptyString)); [tauto|].
  destruct (decide (p = deviceId)); [tauto|].
  destruct (decide (p ∈ peerConnections h)); [tauto|].
  destruct (decide (p ∈ connectingPeers h)); [tauto|].
  destruct (js_lt deviceId p); [|tauto]. right. intros H. naive_solver.
Qed.

(** One step of the effect only adds: connections, connecting marks and
    channels stay, and the peer it looked at is passed over from then on. *)
Lemma initiateTo_grows deviceId fresh peerId h :
  let h1 := (initiateTo deviceId fresh peerId h).1 in
  peerConnections h ⊆ peerConnections h1
  ∧ connectingPeers h ⊆ connectingPeers h1
  ∧ (∀ q, is_Some (dataChannels h !! q) → is_Some (dataChannels h1 !! q))
  ∧ (∀ q, q ∈ peerConnections h1 → q ∈ peerConnections h ∨ peerId = Some q)
  ∧ (∀ q, q ∈ connectingPeers h1 → q ∈ connectingPeers h ∨ peerId = Some q)
  ∧ (∀ p, peerId = Some p → passedOver deviceId p h1).
Proof.
  destruct peerId as [p|]; [|by repeat split; auto].
  destruct (passedOver_dec deviceId p h) as [Hpass|Hpass].
  - rewrite initiateTo_passed by done. cbn [fst].
    repeat split; auto. by intros p' [= <-].
  - rewrite initiateTo_started by done. cbn [fst].
    set (h0 := mkHook _ _ _ _ _).
    destruct (handleDataChannelReady_sets p
                (mkChannel fresh "files" ch_connecting) h0)
      as (-> & -> & Hdc & _).
    subst h0. cbn [peerConnections connectingPeers dataChannels] in *.
    split; [set_solver|]. split; [set_solver|]. split; [done|].
    split; [|split].
    + intros q Hq. apply elem_of_union in Hq as [Hq|Hq]; [|by left].
      apply elem_of_singleton in Hq as ->. by right.
    + intros q Hq. apply elem_of_union in Hq as [Hq|Hq]; [|by left].
      apply elem_of_singleton in Hq as ->. by right.
    + intros p' [= <-]. right. right. left.
      destruct (handleDataChannelReady_sets p
                  (mkChannel fresh "files" ch_connecting)
                  (mkHook ({[p]} ∪ peerConnections h) (dataChannels h)
                     ({[p]} ∪ connectingPeers h) (channelsVersion h)
                     (webrtcStateByPeer h))) as (-> & _).
      cbn [peerConnections].
      apply elem_of_union_l. by apply elem_of_singleton.
Qed.

Lemma passedOver_mono deviceId p h h' :
  peerConnections h ⊆ peerConnections h' →
  connectingPeers h ⊆ connectingPeers h' →
  passedOver deviceId p h → passedOver deviceId p h'.
Proof.
  unfold passedOver. intros Hp Hc [?|[?|[Hq|[Hq|?]]]]; try tauto.
  - right. right. left. by apply Hp.
  - right. right. right. left. by apply Hc.
Qed.

Lemma initiateAll_cons deviceId fresh peerId rest h :
  initiateAll deviceId fresh (peerId :: rest) h
  = ((initiateAll deviceId (S fresh) rest (initiateTo deviceId fresh peerId h).1).1,
     (initiateTo deviceId fresh peerId h).2
     ++ (initiateAll deviceId (S fresh) rest
           (initiateTo deviceId fresh peerId h).1).2).
Proof.
  simpl. destruct (initiateTo deviceId fresh peerId h) as [h1 a1]. simpl.
  by destruct (initiateAll deviceId (S fresh) rest h1).
Qed.

Lemma initiateAll_grows deviceId (ps : list JsStr) :
  ∀ fresh h,
    let h' := (initiateAll deviceId fresh ps h).1 in
    peerConnections h ⊆ peerConnections h'
    ∧ connectingPeers h ⊆ connectingPeers h'
    ∧ (∀ q, is_Some (dataChannels h !! q) → is_Some (dataChannels h' !! q))
    ∧ (∀ p, Some p ∈ ps → passedOver deviceId p h').
Proof.
  induction ps as [|p0 ps IH]; intros fresh h; cbv zeta.
  - cbn [initiateAll fst]. repeat split; auto.
    intros p Hin. by apply elem_of_nil in Hin.
  - rewrite initiateAll_cons. cbn [fst].
    destruct (initiateTo_grows deviceId fresh p0 h)
      as (Hp1 & Hc1 & Hd1 & _ & _ & Hpass1). cbv zeta in *.
    destruct (IH (S fresh) (initiateTo deviceId fresh p0 h).1)
      as (Hp2 & Hc2 & Hd2 & Hpass2). cbv zeta in *.
    split; [set_solver|]. split; [set_solver|]. split; [by auto|].
    intros p Hin. apply elem_of_cons in Hin as [<-|Hin]; [|by apply Hpass2].
    eapply passedOver_mono; [exact Hp2 | exact Hc2 | by apply Hpass1].
Qed.

Lemma initiateAll_all_passed deviceId (ps : list JsStr) :
  ∀ fresh h,
    (∀ p, Some p ∈ ps → passedOver deviceId p h) →
    initiateAll deviceId fresh ps h = (h, []).
Proof.
  induction ps as [|p0 ps IH]; intros fresh h Hall; [done|].
  rewrite initiateAll_cons.
  assert (H0 : initiateTo deviceId fresh p0 h = (h, [])).
  { destruct p0 as [p|]; [|done]. apply initiateTo_passed, Hall. by left. }
  rewrite H0. cbn [fst snd]. rewrite IH; [done|].
  intros p Hin. apply Hall. by right.
Qed.

(** X16: the initiator effect is idempotent: run again on the same
    signaling list, with no event in between, it starts nothing and leaves
    the hook as it is, so no peer is sent a second offer. *)
Theorem initiator_effect_is_idempotent (deviceId : string) (fresh fresh' : nat)
    (signalingPeers : list JsStr) (h : Hook) :
  initiateAll deviceId fresh' signalingPeers
              (initiateAll deviceId fresh signalingPeers h).1
  = ((initiateAll deviceId fresh signalingPeers h).1, []).
Proof.
  apply initiateAll_all_passed.
  by destruct (initiateAll_grows deviceId signalingPeers fresh h)
    as (_ & _ & _ & Hpass).
Qed.

Lemma initiateAll_actions deviceId (ps : list JsStr) :
  ∀ fresh h a,
    a ∈ (initiateAll deviceId fresh ps h).2 →
    Some (initiationPeer a) ∈ ps
    ∧ ¬ passedOver deviceId (initiationPeer a) h.
Proof.
  induction ps as [|p0 ps IH]; intros fresh h a Hin.
  - by apply elem_of_nil in Hin.
  - rewrite initiateAll_cons in Hin. cbn [snd] in Hin.
    apply elem_of_app in Hin as [Hin|Hin].
    + destruct p0 as [p|]; [|by apply elem_of_nil in Hin].
      destruct (passedOver_dec deviceId p h) as [Hpass|Hpass].
      * rewrite initiateTo_passed in Hin by done. by apply elem_of_nil in Hin.
      * rewrite initiateTo_started in Hin by done. cbn [snd] in Hin.
        assert (initiationPeer a = p) as ->.
        { repeat (apply elem_of_cons in Hin as [->|Hin]; [done|]).
          by apply elem_of_nil in Hin. }
        split; [by left | done].
    + destruct (IH _ _ _ Hin) as [Hps Hnp]. split; [by right|].
      intros Hpass. apply Hnp.
      destruct (initiateTo_grows deviceId fresh p0 h) as (Hp1 & Hc1 & _).
      by eapply passedOver_mono.
Qed.

Lemma initiateAll_keeps_passed deviceId (ps : list JsStr) q :
  ∀ fresh h,
    passedOver deviceId q h →
    dataChannels (initiateAll deviceId fresh ps h).1 !! q
    = dataChannels h !! q.
Proof.
  induction ps as [|p0 ps IH]; intros fresh h Hq; [done|].
  rewrite initiateAll_cons. cbn [fst].
  destruct (initiateTo_grows deviceId fresh p0 h) as (Hp1 & Hc1 & _).
  cbv zeta in *.
  rewrite IH by (by eapply passedOver_mono).
  destruct p0 as [p|]; [|done].
  destruct (passedOver_dec deviceId p h) as [Hpass|Hpass].
  - by rewrite initiateTo_passed.
  - rewrite initiateTo_started by done. cbn [fst].
    unfold handleDataChannelReady. case_bool_decide; cbn [dataChannels];
      [done|].
    apply lookup_insert_ne. by intros ->.
Qed.

(** A listed peer the effect does not pass over gets its connection, its
    mark, a channel and an offer; if no channel was registered for it, the
    registered one is the channel made by this run. *)
Lemma initiateAll_connects deviceId (ps : list JsStr) :
  ∀ fresh h p,
    Some p ∈ ps → ¬ passedOver deviceId p h →
    let res := initiateAll deviceId fresh ps h in
    p ∈ peerConnections res.1 ∧ p ∈ connectingPeers res.1
    ∧ is_Some (dataChannels res.1 !! p)
    ∧ CreateOffer p ∈ res.2
    ∧ (dataChannels h !! p = None →
       ∃ k, fresh ≤ k
            ∧ dataChannels res.1 !! p
              = Some (mkChannel k "files" ch_connecting)).
Proof.
  induction ps as [|p0 ps IH]; intros fresh h p Hin Hnp; cbv zeta.
  - by apply elem_of_nil in Hin.
  - rewrite initiateAll_cons. cbn [fst snd].
    destruct (initiateAll_grows deviceId ps (S fresh)
                (initiateTo deviceId fresh p0 h).1) as (Hp2 & Hc2 & Hd2 & _).
    cbv zeta in *.
    destruct (decide (p0 = Some p)) as [->|Hne].
    + destruct (initiateTo_grows deviceId fresh (Some p) h)
        as (_ & _ & _ & _ & _ & Hpassed). cbv zeta in Hpassed.
      specialize (Hpassed p eq_refl).
      pose proof (initiateAll_keeps_passed deviceId ps p (S fresh) _ Hpassed)
        as Hkeep.
      rewrite initiateTo_started in * by done. cbn [fst snd] in *.
      set (h0 := mkHook _ _ _ _ _) in *.
      destruct (handleDataChannelReady_sets p
                  (mkChannel fresh "files" ch_connecting) h0)
        as (Hpc & Hcp & _ & Hdc).
      split.
      { apply Hp2. rewrite Hpc. subst h0. cbn [peerConnections].
        apply elem_of_union_l. by apply elem_of_singleton. }
      split.
      { apply Hc2. rewrite Hcp. subst h0. cbn [connectingPeers].
        apply elem_of_union_l. by apply elem_of_singleton. }
      split; [by apply Hd2|]. split.
      { apply elem_of_app. left. rewrite !elem_of_cons. tauto. }
      intros Hnone. exists fresh. split; [lia|]. rewrite Hkeep.
      unfold handleDataChannelReady. subst h0. cbn [dataChannels].
      rewrite bool_decide_eq_false_2
        by (rewrite Hnone; by intros [? ?]).
      cbn [dataChannels]. by rewrite lookup_insert_eq.
    + apply elem_of_cons in Hin as [Heq|Hin]; [congruence|].
      destruct (initiateTo_grows deviceId fresh p0 h)
        as (_ & _ & _ & Hpb & Hcb & _). cbv zeta in *.
      destruct (IH (S fresh) (initiateTo deviceId fresh p0 h).1 p Hin)
        as (H1 & H2 & H3 & H4 & H5).
      { intros Hpass. apply Hnp. unfold passedOver in *.
        destruct Hpass as [?|[?|[Hq|[Hq|?]]]]; try tauto.
        - destruct (Hpb p Hq); [tauto | congruence].
        - destruct (Hcb p Hq); [tauto | congruence]. }
      split; [done|]. split; [done|]. split; [done|].
      split; [apply elem_of_app; by right|].
      intros Hnone. destruct H5 as (k & Hk & Hch).
      { rewrite <- Hnone. destruct p0 as [p'|]; [|done].
        destruct (passedOver_dec deviceId p' h) as [Hpass|Hpass].
        - by rewrite initiateTo_passed.
        - rewrite initiateTo_started by done. cbn [fst].
          unfold handleDataChannelReady.
          case_bool_decide; cbn [dataChannels]; [done|].
          apply lookup_insert_ne. congruence. }
      exists k. split; [lia | done].
Qed.

(** X17: what the initiator effect starts.  Every step it takes is for a
    listed peer with a larger id to which no connection existed or was
    being made; no step is taken twice, even if the list names a peer
    twice; and every such peer ends up with a connection, a connecting
    mark, a registered data channel and an offer. *)
Theorem initiator_effect_connects_larger_peers (deviceId : string)
    (fresh : nat) (signalingPeers : list JsStr) (h : Hook) :
  let res := initiateAll deviceId fresh signalingPeers h in
  NoDup res.2
  ∧ (∀ a, a ∈ res.2 →
       Some (initiationPeer a) ∈ signalingPeers
       ∧ js_lt deviceId (initiationPeer a) = true
       ∧ (initiationPeer a ∉ peerConnections h)
       ∧ (initiationPeer a ∉ connectingPeers h))
  ∧ (∀ p, Some p ∈ signalingPeers → ¬ passedOver deviceId p h →
       p ∈ peerConnections res.1 ∧ p ∈ connectingPeers res.1
       ∧ is_Some (dataChannels res.1 !! p)
       ∧ CreateOffer p ∈ res.2).
Proof.
  cbv zeta. split; [|split].
  - revert fresh h. induction signalingPeers as [|p0 ps IH]; intros fresh h.
    + constructor.
    + rewrite initiateAll_cons. cbn [snd]. apply NoDup_app. split; [|split].
      * destruct p0 as [p|]; [|constructor].
        destruct (passedOver_dec deviceId p h) as [Hpass|Hpass].
        -- rewrite initiateTo_passed by done. constructor.
        -- rewrite initiateTo_started by done. cbn [snd].
           repeat (apply NoDup_cons; split;
                   [rewrite ?elem_of_cons, ?elem_of_nil; naive_solver|]).
           constructor.
      * intros a Ha1 Ha2.
        destruct (initiateAll_actions _ _ _ _ _ Ha2) as [_ Hnp].
        apply Hnp.
        destruct p0 as [p|]; [|by apply elem_of_nil in Ha1].
        destruct (passedOver_dec deviceId p h) as [Hpass|Hpass].
        -- rewrite initiateTo_passed in Ha1 by done.
           by apply elem_of_nil in Ha1.
        -- assert (initiationPeer a = p) as ->.
           { rewrite initiateTo_started in Ha1 by done. cbn [snd] in Ha1.
             repeat (apply elem_of_cons in Ha1 as [->|Ha1]; [done|]).
             by apply elem_of_nil in Ha1. }
           by destruct (initiateTo_grows deviceId fresh (Some p) h)
             as (_ & _ & _ & _ & _ & Hp); apply Hp.
      * apply IH.
  - intros a Ha. destruct (initiateAll_actions _ _ _ _ _ Ha) as [Hin Hnp].
    split; [done|]. unfold passedOver in Hnp.
    destruct (js_lt deviceId (initiationPeer a)); [|tauto].
    split; [done|]. split; tauto.
  - intros p Hin Hnp.
    by destruct (initiateAll_connects deviceId signalingPeers fresh h p Hin Hnp)
      as (? & ? & ? & ? & _).
Qed.

(** X18: a channel that closed is not set up again while its peer stays
    listed: the close handler removes the channel but leaves the peer
    connection registered, and the initiator effect passes over every peer
    that has one. *)
Theorem closed_channel_is_not_reopened (deviceId peerId : string)
    (fresh : nat) (signalingPeers : list JsStr) (h : Hook)
    (Hpc : peerId ∈ peerConnections h) :
  let res := initiateAll deviceId fresh signalingPeers
                         (channelClosed peerId h) in
  dataChannels res.1 !! peerId = None
  ∧ (∀ a, a ∈ res.2 → initiationPeer a ≠ peerId).
Proof.
  cbv zeta.
  assert (Hpass : passedOver deviceId peerId (channelClosed peerId h)).
  { right. right. left. exact Hpc. }
  split.
  - rewrite initiateAll_keeps_passed by done.
    unfold channelClosed. cbn [dataChannels]. apply lookup_delete_eq.
  - intros a Ha Heq.
    destruct (initiateAll_actions _ _ _ _ _ Ha) as [_ Hnp].
    apply Hnp. by rewrite Heq.
Qed.

Lemma closed_channel_is_not_reopened_witness :
  "b" ∈ peerConnections
          (initiateAll "a" 0 [Some "b"] emptyHook).1
  ∧ dataChannels
      (initiateAll "a" 1 [Some "b"]
         (channelClosed "b" (initiateAll "a" 0 [Some "b"] emptyHook).1)).1
      !! "b" = None.
Proof.
  assert (H : "b" ∈ peerConnections
                      (initiateAll "a" 0 [Some "b"] emptyHook).1).
  { refine (bool_decide_unpack _ _). vm_compute. exact I. }
  split; [exact H|].
  exact (proj1 (closed_channel_is_not_reopened "a" "b" 1 [Some "b"]
                  (initiateAll "a" 0 [Some "b"] emptyHook).1 H)).
Defined.

Lemma cleanupPeer_not_passed deviceId peerId h :
  peerId ≠ EmptyString → peerId ≠ deviceId → js_lt deviceId peerId = true →
  ¬ passedOver deviceId peerId (cleanupPeer peerId h).1
  ∧ dataChannels (cleanupPeer peerId h).1 !! peerId = None.
Proof.
  intros Hne Hself Hlt.
  destruct (cleanupPeer_state peerId h) as (Hpcs & Hdc & Hcp & _).
  cbv zeta in *. split.
  - unfold passedOver. rewrite Hpcs, Hcp, Hlt.
    rewrite elem_of_difference, elem_of_singleton. naive_solver.
  - rewrite Hdc. apply lookup_delete_eq.
Qed.

(** X19: a peer that was torn down and is listed again is connected anew:
    after [cleanupPeer], the initiator effect of the side with the smaller
    id makes a new connection, registers the channel it creates in this
    run, and sends an offer. *)
Theorem cleaned_up_peer_is_reinitiated (deviceId peerId : string)
    (fresh : nat) (signalingPeers : list JsStr) (h : Hook)
    (Hlisted : Some peerId ∈ signalingPeers)
    (Hne : peerId ≠ EmptyString) (Hself : peerId ≠ deviceId)
    (Hlt : js_lt deviceId peerId = true) :
  let res := initiateAll deviceId fresh signalingPeers
                         (cleanupPeer peerId h).1 in
  peerId ∈ peerConnections res.1
  ∧ CreateOffer peerId ∈ res.2
  ∧ ∃ k, fresh ≤ k
         ∧ dataChannels res.1 !! peerId
           = Some (mkChannel k "files" ch_connecting).
Proof.
  cbv zeta.
  destruct (cleanupPeer_not_passed deviceId peerId h Hne Hself Hlt)
    as [Hnp Hnone].
  destruct (initiateAll_connects deviceId signalingPeers fresh
              (cleanupPeer peerId h).1 peerId Hlisted Hnp)
    as (H1 & _ & _ & H4 & H5).
  split; [done|]. split; [done|]. by apply H5.
Qed.

Lemma cleaned_up_peer_is_reinitiated_witness :
  CreateOffer "b"
  ∈ (initiateAll "a" 7 [Some "b"]
       (cleanupPeer "b" (initiateAll "a" 0 [Some "b"] emptyHook).1).1).2.
Proof.
  refine (proj1 (proj2 (cleaned_up_peer_is_reinitiated "a" "b" 7 [Some "b"]
                   (initiateAll "a" 0 [Some "b"] emptyHook).1 _ _ _ _))).
  - by left.
  - discriminate.
  - discriminate.
  - reflexivity.
Defined.

(** X20: the close handler acts on the peer id, not on the channel it was
    installed on.  If the close event of a channel that [cleanupPeer]
    closed arrives after the peer was connected anew, the new channel is
    dropped from the registry, and the initiator effect does not make
    another one: the peer keeps a connection without a channel. *)
Theorem late_close_event_drops_new_channel (deviceId peerId : string)
    (fresh fresh' : nat) (signalingPeers : list JsStr) (h : Hook)
    (Hlisted : Some peerId ∈ signalingPeers)
    (Hne : peerId ≠ EmptyString) (Hself : peerId ≠ deviceId)
    (Hlt : js_lt deviceId peerId = true) :
  let renewed := (initiateAll deviceId fresh signalingPeers
                              (cleanupPeer peerId h).1).1 in
  let after := channelClosed peerId renewed in
  is_Some (dataChannels renewed !! peerId)
  ∧ dataChannels after !! peerId = None
  ∧ peerId ∈ peerConnections after
  ∧ initiateAll deviceId fresh' signalingPeers after = (after, []).
Proof.
  cbv zeta.
  destruct (cleanupPeer_not_passed deviceId peerId h Hne Hself Hlt)
    as [Hnp _].
  destruct (initiateAll_connects deviceId signalingPeers fresh
              (cleanupPeer peerId h).1 peerId Hlisted Hnp)
    as (H1 & _ & H3 & _).
  destruct (initiateAll_grows deviceId signalingPeers fresh
              (cleanupPeer peerId h).1) as (_ & _ & _ & Hall).
  cbv zeta in *.
  split; [done|]. split; [apply lookup_delete_eq|]. split; [done|].
  apply initiateAll_all_passed. intros p Hp.
  specialize (Hall p Hp). exact Hall.
Qed.

Lemma late_close_event_drops_new_channel_witness :
  dataChannels
    (channelClosed "b"
       (initiateAll "a" 7 [Some "b"]
          (cleanupPeer "b" (initiateAll "a" 0 [Some "b"] emptyHook).1).1).1)
    !! "b" = None.
Proof.
  refine (proj1 (proj2 (late_close_event_drops_new_channel "a" "b" 7 8
                   [Some "b"]
                   (initiateAll "a" 0 [Some "b"] emptyHook).1 _ _ _ _))).
  - by left.
  - discriminate.
  - discriminate.
  - reflexivity.
Defined.

End PeersMoreProofs.

(** * Properties of the signaling client *)

Section PresenceProofs.
Import Relay Signaling SignalingProps.

Lemma elem_of_syncPeers localId ps dev :
  dev ∈ syncPeers localId ps
  ↔ dev ∈ ps ∧ deviceId dev ≠ EmptyString ∧ deviceId dev ≠ localId.
Proof.
  unfold syncPeers. rewrite list_elem_of_filter. split.
  - intros [[Ht Hne] Hin]. split; [done|]. split; [|done].
    by apply truthy_Some in Ht as (s & [= <-] & Hs).
  - intros (Hin & Hne & Hself). split; [|done]. split; [|done].
    by apply truthy_Some_ne.
Qed.

Lemma NoDup_ids_filter (P : Device → Prop) `{!∀ x, Decision (P x)}
    (ps : list Device) :
  NoDup (deviceId <$> ps) → NoDup (deviceId <$> filter P ps).
Proof.
  intros Hnd. eapply sublist_NoDup; [exact Hnd|].
  apply fmap_sublist, sublist_filter.
Qed.

Lemma elem_of_removePeer leftId prev dev :
  dev ∈ removePeer leftId prev ↔ dev ∈ prev ∧ deviceId dev ≠ leftId.
Proof. unfold removePeer. rewrite list_elem_of_filter. tauto. Qed.

Lemma upsertPeer_ids peer prev k :
  k ∈ deviceId <$> upsertPeer peer prev
  ↔ k = deviceId peer ∨ k ∈ deviceId <$> prev.
Proof.
  induction prev as [|p rest IH]; simpl.
  - rewrite list_elem_of_singleton. split; [by left|].
    intros [?|H]; [done|]. by apply elem_of_nil in H.
  - case_bool_decide as Heq; rewrite !fmap_cons, !elem_of_cons.
    + rewrite Heq. tauto.
    + rewrite IH. tauto.
Qed.

Lemma upsertPeer_NoDup peer prev :
  NoDup (deviceId <$> prev) → NoDup (deviceId <$> upsertPeer peer prev).
Proof.
  induction prev as [|p rest IH]; simpl; intros Hnd.
  - apply NoDup_singleton.
  - apply NoDup_cons in Hnd as [Hp Hrest].
    case_bool_decide as Heq; rewrite fmap_cons; apply NoDup_cons.
    + by rewrite <- Heq.
    + split; [|by apply IH]. rewrite upsertPeer_ids. tauto.
Qed.

Lemma elem_of_upsertPeer peer prev dev :
  NoDup (deviceId <$> prev) →
  dev ∈ upsertPeer peer prev
  ↔ dev = peer ∨ (dev ∈ prev ∧ deviceId dev ≠ deviceId peer).
Proof.
  induction prev as [|p rest IH]; simpl; intros Hnd.
  - rewrite list_elem_of_singleton. split; [by left|].
    intros [?|[H _]]; [done|]. by apply elem_of_nil in H.
  - apply NoDup_cons in Hnd as [Hp Hrest].
    case_bool_decide as Heq; rewrite !elem_of_cons.
    + split.
      * intros [->|Hin]; [by left|]. right. split; [by right|].
        intros Hid. apply Hp. rewrite Heq, <- Hid.
        by apply list_elem_of_fmap_2.
      * intros [->|[[->|Hin] Hid]]; [by left | done | by right].
    + rewrite (IH Hrest). split.
      * intros [->|[->|[Hin Hid]]]; [|by left|].
        -- right. split; [by left | done].
        -- right. split; [by right | done].
      * intros [->|[[->|Hin] Hid]]; [right; by left | by left|].
        right. right. done.
Qed.

Lemma peersAfter_snoc localId frames frame :
  peersAfter localId (frames ++ [frame])
  = (dispatch localId frame (peersAfter localId frames)).1.
Proof. unfold peersAfter. by rewrite foldl_app. Qed.

(** The presence list has no entry for the own id and no two entries with
    one id, as long as no [peers-sync] frame lists an id twice. *)
Lemma dispatch_keeps localId frame prev :
  (∀ r ps, frame = PeersSync r ps → NoDup (deviceId <$> ps)) →
  NoDup (deviceId <$> prev) → localId ∉ deviceId <$> prev →
  NoDup (deviceId <$> (dispatch localId frame prev).1)
  ∧ localId ∉ deviceId <$> (dispatch localId frame prev).1.
Proof.
  intros Hsync Hnd Hself. destruct frame as [r ps|r peer|leftId r| |]; simpl;
    try done.
  - split; [apply NoDup_ids_filter; by eapply Hsync|].
    intros Hin. apply list_elem_of_fmap in Hin as (dev & Hid & Hin).
    apply elem_of_syncPeers in Hin as (_ & _ & Hne). by rewrite Hid in Hne.
  - case_bool_decide as Heq; simpl; [done|].
    split; [by apply upsertPeer_NoDup|].
    rewrite upsertPeer_ids. intros [?|?]; [by apply Heq | by apply Hself].
  - split; [by apply NoDup_ids_filter|].
    intros Hin. apply Hself.
    apply list_elem_of_fmap in Hin as (dev & Hid & Hin).
    apply elem_of_removePeer in Hin as [Hin _].
    rewrite Hid. by apply list_elem_of_fmap_2.
Qed.

(** X21: whatever frames arrive, the presence list of a client never
    holds its own device id and never two entries with one id, provided
    no [peers-sync] frame itself lists an id twice. *)
Theorem presence_list_is_a_set_without_self (localId : string)
    (frames : list Frame)
    (Hsync : ∀ r ps, PeersSync r ps ∈ frames → NoDup (deviceId <$> ps)) :
  NoDup (deviceId <$> peersAfter localId frames)
  ∧ localId ∉ deviceId <$> peersAfter localId frames.
Proof.
  induction frames as [|frame frames IH] using rev_ind.
  - split; [constructor | by intros ?%elem_of_nil].
  - rewrite peersAfter_snoc.
    destruct IH as [Hnd Hself].
    { intros r ps Hin. apply (Hsync r). apply elem_of_app. by left. }
    apply dispatch_keeps; [|done|done].
    intros r ps ->. apply (Hsync r). apply elem_of_app. right. by left.
Qed.

Lemma presence_list_is_a_set_without_self_witness :
  let frames :=
    [PeersSync "R" [mkDevice "a" None None; mkDevice "me" None None];
     PeerJoined "R" (mkDevice "b" None None);
     PeerJoined "R" (mkDevice "a" (Some "Swift Fox") None);
     PeerJoined "R" (mkDevice "me" None None);
     PeerLeft "b" "R"] in
  NoDup (deviceId <$> peersAfter "me" frames)
  ∧ "me" ∉ deviceId <$> peersAfter "me" frames.
Proof.
  apply (presence_list_is_a_set_without_self "me").
  intros r ps Hin.
  repeat (apply elem_of_cons in Hin as [Heq|Hin];
          [try discriminate Heq|]).
  - injection Heq as -> ->. simpl.
    repeat (apply NoDup_cons; split;
            [rewrite ?elem_of_cons, ?elem_of_nil; intros H;
             repeat destruct H as [H|H]; discriminate || done|]).
    constructor.
  - by apply elem_of_nil in Hin.
Defined.

End PresenceProofs.

(** * The presence list of a client against the directory of the relay *)

Section MirrorProofs.
Import Relay RelayProps Signaling SignalingProps MirrorProps.

Lemma delivered_app ws (l1 l2 : list Sent) :
  delivered ws (l1 ++ l2) = delivered ws l1 ++ delivered ws l2.
Proof. unfold delivered. by rewrite filter_app, fmap_app. Qed.

Lemma delivered_cons ws s f (l : list Sent) :
  delivered ws ((s, f) :: l)
  = (if bool_decide (s = ws) then [f] else []) ++ delivered ws l.
Proof.
  unfold delivered. rewrite filter_cons. cbn [fst].
  destruct (decide (s = ws)) as [Heq|Hne].
  - by rewrite (bool_decide_eq_true_2 _ Heq).
  - by rewrite (bool_decide_eq_false_2 _ Hne).
Qed.

(** One frame sent to each socket of a duplicate-free list. *)
Lemma delivered_broadcast ws (f : Frame) (l : list Socket) :
  NoDup l →
  delivered ws ((λ client, (client, f)) <$> l)
  = if bool_decide (ws ∈ l) then [f] else [].
Proof.
  induction l as [|s l IH]; intros Hnd.
  - rewrite bool_decide_eq_false_2; [done | by intros ?%elem_of_nil].
  - apply NoDup_cons in Hnd as [Hs Hnd]. rewrite fmap_cons, delivered_cons.
    rewrite (IH Hnd). destruct (decide (s = ws)) as [->|Hne].
    + rewrite (bool_decide_eq_true_2 (ws = ws)) by done.
      rewrite (bool_decide_eq_false_2 (ws ∈ l)) by done.
      rewrite (bool_decide_eq_true_2 (ws ∈ ws :: l)); [done | by left].
    + rewrite (bool_decide_eq_false_2 (s = ws)) by done. cbn [app].
      destruct (decide (ws ∈ l)) as [Hin|Hnin].
      * rewrite (bool_decide_eq_true_2 _ Hin).
        rewrite bool_decide_eq_true_2; [done | by right].
      * rewrite (bool_decide_eq_false_2 _ Hnin).
        rewrite bool_decide_eq_false_2; [done|].
        intros [?|?]%elem_of_cons; [by apply Hne | done].
Qed.

Lemma peersAfter_app localId l1 l2 :
  peersAfter localId (l1 ++ l2)
  = foldl (λ ps frame, (dispatch localId frame ps).1)
          (peersAfter localId l1) l2.
Proof. unfold peersAfter. by rewrite foldl_app. Qed.

(** Frames that carry no presence leave the list as it is. *)
Lemma peersAfter_no_presence localId l1 l2 :
  Forall (λ f, isPresence f = false) l2 →
  peersAfter localId (l1 ++ l2) = peersAfter localId l1.
Proof.
  rewrite peersAfter_app. generalize (peersAfter localId l1).
  induction l2 as [|f l2 IH]; intros ps Hall; [done|].
  apply Forall_cons in Hall as [Hf Hall]. cbn [foldl].
  assert ((dispatch localId f ps).1 = ps) as -> by (by destruct f).
  by apply IH.
Qed.

Lemma onSignal_no_presence rs ws c m rms :
  Forall (λ f, isPresence f = false) ((onSignal rs ws c m rms).*2).
Proof.
  unfold onSignal.
  destruct (js_or (s_roomId m) c) as [r|]; [|constructor].
  destruct (s_to m) as [to|]; [|constructor].
  destruct (s_from m) as [from|]; [|constructor].
  match goal with |- context [if ?b then _ else _] => destruct b end;
    [constructor|].
  destruct (rms !! r) as [room|]; [|constructor].
  destruct (devices room !! to).
  - apply Forall_fmap, Forall_fmap, Forall_forall. by intros.
  - destruct (isOpen rs ws); repeat constructor.
Qed.

Lemma delivered_no_presence ws (out : list Sent) :
  Forall (λ f, isPresence f = false) (out.*2) →
  Forall (λ f, isPresence f = false) (delivered ws out).
Proof.
  unfold delivered. intros Hall. apply Forall_fmap.
  apply Forall_fmap in Hall. rewrite Forall_forall in Hall |- *.
  intros e [_ Hin]%list_elem_of_filter. by apply Hall.
Qed.

Lemma allOpen_filter (l : list Socket) :
  filter (λ client, isOpen allOpen client = true) l = l.
Proof.
  induction l as [|s l IH]; [done|].
  rewrite filter_cons_True by done. by rewrite IH.
Qed.

Lemma onJoin_dropped rs ws m rms :
  truthy (j_roomId m) = false → onJoin rs ws m rms = (j_roomId m, rms, []).
Proof.
  intros Hr. unfold onJoin. destruct (j_roomId m) as [r|]; [|done].
  by rewrite Hr.
Qed.

(** The directory entries of other devices, as [peers-sync] lists them. *)
Lemma sync_list (m : gmap string Device) (d : string) (jd : JsStr) :
  (∀ k dev, m !! k = Some dev → deviceId dev = k ∧ k ≠ EmptyString) →
  let l := filter (λ dev : Device, truthy (Some (deviceId dev)) = true
                                   ∧ Some (deviceId dev) ≠ jd)
                  ((map_to_list m).*2) in
  NoDup (deviceId <$> l)
  ∧ ∀ dev, dev ∈ l ↔ ∃ k, m !! k = Some dev ∧ Some k ≠ jd.
Proof.
  intros Hwf. cbv zeta. split.
  - apply NoDup_ids_filter.
    assert (Hkeys : deviceId <$> (map_to_list m).*2 = (map_to_list m).*1).
    { rewrite <- list_fmap_compose. apply Forall_fmap_ext_1.
      apply Forall_forall. intros [k dev] Hin%elem_of_map_to_list. cbn.
      by apply Hwf. }
    rewrite Hkeys. apply NoDup_fst_map_to_list.
  - intros dev. rewrite list_elem_of_filter, list_elem_of_fmap. split.
    + intros [[_ Hne] ([k dev'] & -> & Hin)].
      apply elem_of_map_to_list in Hin. cbn [snd] in *.
      exists k. split; [done|]. by destruct (Hwf k dev' Hin) as [<- _].
    + intros (k & Hk & Hne). destruct (Hwf k dev Hk) as [Hid Hkne].
      rewrite Hid. split; [split; [by apply truthy_Some_ne | done]|].
      exists (k, dev). split; [done|]. by apply elem_of_map_to_list.
Qed.

Lemma delivered_join ws ws1 (S : gset Socket) (F G : Frame) log :
  delivered ws1
    (log ++ (ws, F)
         :: ((λ client, (client, G))
               <$> filter (λ client, client ≠ ws ∧ isOpen allOpen client = true)
                     (elements S)))
  = delivered ws1 log
    ++ (if bool_decide (ws = ws1) then [F]
        else if bool_decide (ws1 ∈ S) then [G] else []).
Proof.
  rewrite delivered_app, delivered_cons. f_equal.
  rewrite delivered_broadcast by apply NoDup_filter, NoDup_elements.
  destruct (decide (ws = ws1)) as [->|Hne].
  - rewrite (bool_decide_eq_true_2 (ws1 = ws1)) by done.
    rewrite bool_decide_eq_false_2; [done|].
    intros [[Hne _] _]%list_elem_of_filter. done.
  - rewrite (bool_decide_eq_false_2 (ws = ws1)) by done. cbn [app].
    destruct (decide (ws1 ∈ S)) as [Hin|Hnin].
    + rewrite (bool_decide_eq_true_2 _ Hin).
      rewrite bool_decide_eq_true_2; [done|].
      apply list_elem_of_filter. split; [split; [congruence | done]|].
      by apply elem_of_elements.
    + rewrite (bool_decide_eq_false_2 _ Hnin).
      rewrite bool_decide_eq_false_2; [done|].
      intros [_ Hin%elem_of_elements]%list_elem_of_filter. done.
Qed.

Lemma delivered_leave ws1 (S : gset Socket) (G : Frame) log :
  delivered ws1
    (log ++ ((λ client, (client, G))
               <$> filter (λ client, isOpen allOpen client = true)
                     (elements S)))
  = delivered ws1 log ++ (if bool_decide (ws1 ∈ S) then [G] else []).
Proof.
  rewrite delivered_app, allOpen_filter. f_equal.
  rewrite delivered_broadcast by apply NoDup_elements.
  destruct (decide (ws1 ∈ S)) as [Hin|Hnin].
  - rewrite (bool_decide_eq_true_2 _ Hin).
    rewrite bool_decide_eq_true_2; [done | by apply elem_of_elements].
  - rewrite (bool_decide_eq_false_2 _ Hnin).
    rewrite bool_decide_eq_false_2; [done|].
    by intros Hin%elem_of_elements.
Qed.

(** A socket that has sent no join frame is in no room. *)
Lemma unjoined_socket st ws :
  Stated.socket_invariant st → homed st → connRoomId st !! ws = None →
  ∀ r room, rooms st !! r = Some room →
    (ws ∉ sockets room) ∧ socketToDeviceId room !! ws = None.
Proof.
  intros Hsock Hhome Hnew r room Hr.
  assert (Hnin : ws ∉ sockets room).
  { intros Hin. specialize (Hhome _ _ _ Hr Hin).
    rewrite Hnew in Hhome. discriminate. }
  split; [done|]. destruct (Hsock r room Hr) as [Hdom _].
  apply not_elem_of_dom. intros Hd. apply Hnin. by apply Hdom.
Qed.

(** The presence list after a [peers-sync] frame made from directory [m]. *)
Lemma mirrors_after_sync (m : gmap string Device) (d r : string) prev :
  (∀ k dev, m !! k = Some dev → deviceId dev = k ∧ k ≠ EmptyString) →
  let l := filter (λ dev : Device, truthy (Some (deviceId dev)) = true
                                   ∧ Some (deviceId dev) ≠ Some d)
                  ((map_to_list m).*2) in
  let ps := (dispatch d (PeersSync r l) prev).1 in
  NoDup (deviceId <$> ps)
  ∧ ∀ dev, dev ∈ ps ↔ ∃ k, m !! k = Some dev ∧ k ≠ d.
Proof.
  intros Hwf. cbv zeta. cbn [dispatch fst].
  destruct (sync_list m d (Some d) Hwf) as [Hnd Hin]. cbv zeta in *.
  split; [by apply NoDup_ids_filter|].
  intros dev. rewrite elem_of_syncPeers, Hin. split.
  - intros ((k & Hk & Hne) & _). exists k. split; [done | congruence].
  - intros (k & Hk & Hne). destruct (Hwf k dev Hk) as [Hid Hkne].
    split; [exists k; split; [done | congruence]|]. by rewrite Hid.
Qed.

(** The presence list after a [peer-joined] frame for the device just
    stored in the directory. *)
Lemma mirrors_after_joined (m : gmap string Device) (d d1 r : string)
    (jd : Device) prev :
  (∀ k dev, m !! k = Some dev → deviceId dev = k ∧ k ≠ EmptyString) →
  deviceId jd = d →
  NoDup (deviceId <$> prev) →
  (∀ dev, dev ∈ prev ↔ ∃ k, m !! k = Some dev ∧ k ≠ d1) →
  let ps := (dispatch d1 (PeerJoined r jd) prev).1 in
  NoDup (deviceId <$> ps)
  ∧ ∀ dev, dev ∈ ps ↔ ∃ k, <[d := jd]> m !! k = Some dev ∧ k ≠ d1.
Proof.
  intros Hwf Hjd Hnd Hin. cbv zeta. cbn [dispatch]. rewrite Hjd.
  case_bool_decide as Heq; cbn [fst].
  - subst d1. split; [done|]. intros dev. rewrite Hin.
    split; intros (k & Hk & Hne); exists k; (split; [|done]).
    + by rewrite lookup_insert_ne.
    + by rewrite lookup_insert_ne in Hk.
  - split; [by apply upsertPeer_NoDup|]. intros dev.
    rewrite (elem_of_upsertPeer jd prev dev Hnd), Hin, Hjd. split.
    + intros [->|[(k & Hk & Hne) Hid]].
      * exists d. split; [apply lookup_insert_eq | done].
      * exists k. split; [|done]. rewrite lookup_insert_ne; [done|].
        destruct (Hwf k dev Hk) as [<- _]. congruence.
    + intros (k & Hk & Hne).
      apply lookup_insert_Some in Hk as [[<- <-]|[Hkd Hk]]; [by left|].
      right. split; [by exists k|]. destruct (Hwf k dev Hk) as [-> _].
      congruence.
Qed.

(** The presence list after a [peer-left] frame for the device just removed
    from the directory. *)
Lemma mirrors_after_left (m : gmap string Device) (d d1 r : string) prev :
  (∀ k dev, m !! k = Some dev → deviceId dev = k ∧ k ≠ EmptyString) →
  NoDup (deviceId <$> prev) →
  (∀ dev, dev ∈ prev ↔ ∃ k, m !! k = Some dev ∧ k ≠ d1) →
  let ps := (dispatch d1 (PeerLeft d r) prev).1 in
  NoDup (deviceId <$> ps)
  ∧ ∀ dev, dev ∈ ps ↔ ∃ k, delete d m !! k = Some dev ∧ k ≠ d1.
Proof.
  intros Hwf Hnd Hin. cbv zeta. cbn [dispatch fst].
  split; [by apply NoDup_ids_filter|]. intros dev.
  rewrite elem_of_removePeer, Hin. split.
  - intros [(k & Hk & Hne) Hid]. exists k. split; [|done].
    rewrite lookup_delete_ne; [done|].
    destruct (Hwf k dev Hk) as [<- _]. congruence.
  - intros (k & Hk & Hne). apply lookup_delete_Some in Hk as [Hkd Hk].
    split; [by exists k|]. destruct (Hwf k dev Hk) as [-> _]. congruence.
Qed.

Lemma mirror_join ws m st log :
  Stated.socket_invariant st → directory_wf st → homed st →
  mirrored st log → connRoomId st !! ws = None →
  let res := Relay.step allOpen (Message ws (Join m)) st in
  homed res.1 ∧ mirrored res.1 (log ++ res.2).
Proof.
  intros Hsock Hwf Hhome Hmir Hnew. cbv zeta. rewrite step_join.
  pose proof (unjoined_socket st ws Hsock Hhome Hnew) as Hout.
  destruct (truthy (j_roomId m)) eqn:Ht.
  2: { rewrite onJoin_dropped by done. cbn [fst snd]. rewrite app_nil_r.
       split; [|exact Hmir].
       intros r room ws1 Hr Hin. cbn [rooms connRoomId] in *.
       rewrite lookup_insert_ne; [by eapply Hhome|].
       intros ->. by destruct (Hout r room Hr). }
  apply truthy_Some in Ht as (r & Hr & Hrne).
  destruct (getOrCreateRoom_lookup r (rooms st)) as (_ & Hother & Hold).
  set (room0 := (getOrCreateRoom r (rooms st)).2) in *.
  assert (H0 : (ws ∉ sockets room0)
               ∧ socketToDeviceId room0 !! ws = None
               ∧ (∀ k dev, devices room0 !! k = Some dev →
                    deviceId dev = k ∧ k ≠ EmptyString)
               ∧ (∀ ws1 d1, socketToDeviceId room0 !! ws1 = Some d1 →
                    ws1 ∈ sockets room0)
               ∧ (∀ ws1, ws1 ∈ sockets room0 →
                    rooms st !! r = Some room0)).
  { destruct Hold as [Hold|Hemp].
    - destruct (Hout r room0 Hold) as [? ?].
      destruct (Hwf r room0 Hold) as (_ & ? & _).
      destruct (Hsock r room0 Hold) as [Hdom _].
      split; [done|]. split; [done|]. split; [done|]. split; [|done].
      intros ws1 d1 Hws1. apply Hdom, elem_of_dom. by exists d1.
    - rewrite Hemp. cbn [emptyRoom sockets devices socketToDeviceId].
      split; [by intros ?%elem_of_empty|]. split; [apply lookup_empty|].
      split; [intros k dev H; by rewrite lookup_empty in H|].
      split; [intros ws1 d1 H; by rewrite lookup_empty in H|].
      by intros ws1 ?%elem_of_empty. }
  destruct H0 as (Hnin0 & Hs2d0 & Hwf0 & Hdom0 & Hold0).
  (* sockets of other rooms hear nothing of this join *)
  assert (Helse : ∀ r1 room1 ws1,
            r1 ≠ r → rooms st !! r1 = Some room1 → ws1 ∈ sockets room1 →
            ws1 ≠ ws ∧ (ws1 ∉ sockets room0)).
  { intros r1 room1 ws1 Hne Hr1 Hin1. split.
    - intros ->. by destruct (Hout r1 room1 Hr1).
    - intros Hin0. pose proof (Hhome _ _ _ (Hold0 _ Hin0) Hin0) as E1.
      pose proof (Hhome _ _ _ Hr1 Hin1) as E2.
      rewrite E1 in E2. by injection E2 as ->. }
  destruct (truthy (j_deviceId m)) eqn:Htd.
  - apply truthy_Some in Htd as (d & Hd & Hdne).
    rewrite (onJoin_with_device allOpen ws m (rooms st) r d) by done.
    cbv zeta. cbn [fst snd]. fold room0. split.
    + intros r1 room1 ws1. cbn [rooms connRoomId].
      destruct (decide (r1 = r)) as [->|Hne].
      * rewrite lookup_insert_eq. intros [= <-]. cbn [sockets].
        intros [->%elem_of_singleton|Hin]%elem_of_union.
        -- by rewrite lookup_insert_eq.
        -- rewrite lookup_insert_ne by (by intros ->).
           apply (Hhome r room0); [apply (Hold0 ws1 Hin) | exact Hin].
      * rewrite lookup_insert_ne, Hother by done. intros Hr1 Hin1.
        destruct (Helse r1 room1 ws1 Hne Hr1 Hin1) as [Hws _].
        rewrite lookup_insert_ne by done. by eapply Hhome.
    + intros r1 room1 ws1 d1. cbn [rooms].
      assert (Hwf1 : ∀ k dev,
                <[d := joinedDevice m d]> (devices room0) !! k = Some dev →
                deviceId dev = k ∧ k ≠ EmptyString).
      { intros k dev [[<- <-]|[_ Hk]]%lookup_insert_Some; [done|].
        by apply Hwf0. }
      unfold mirrors. rewrite delivered_join.
      destruct (decide (r1 = r)) as [->|Hne].
      * rewrite lookup_insert_eq. intros [= <-].
        cbn [socketToDeviceId devices].
        destruct (decide (ws = ws1)) as [<-|Hws].
        -- rewrite lookup_insert_eq. intros [= <-].
           rewrite (bool_decide_eq_true_2 (ws = ws)) by done.
           rewrite peersAfter_snoc.
           by apply mirrors_after_sync.
        -- rewrite lookup_insert_ne by done. intros Hs1.
           pose proof (Hdom0 ws1 d1 Hs1) as Hin1.
           rewrite (bool_decide_eq_false_2 (ws = ws1)) by done.
           rewrite bool_decide_eq_true_2
             by (apply elem_of_union; by right).
           rewrite peersAfter_snoc.
           destruct (Hmir r room0 ws1 d1 (Hold0 ws1 Hin1) Hs1)
             as [Hnd Hin].
           by apply mirrors_after_joined.
      * rewrite lookup_insert_ne, Hother by done. intros Hr1 Hs1.
        destruct (Hsock r1 room1 Hr1) as [Hdom1 _].
        assert (Hin1 : ws1 ∈ sockets room1).
        { apply Hdom1, elem_of_dom. by exists d1. }
        destruct (Helse r1 room1 ws1 Hne Hr1 Hin1) as [Hws Hnin].
        rewrite (bool_decide_eq_false_2 (ws = ws1)) by done.
        rewrite bool_decide_eq_false_2.
        2: { intros [->%elem_of_singleton|?]%elem_of_union; done. }
        rewrite app_nil_r. by apply (Hmir r1 room1).
  - rewrite (onJoin_without_device allOpen ws m (rooms st) r) by done.
    cbv zeta. cbn [fst snd]. fold room0. split.
    + intros r1 room1 ws1. cbn [rooms connRoomId].
      destruct (decide (r1 = r)) as [->|Hne].
      * rewrite lookup_insert_eq. intros [= <-]. cbn [sockets].
        intros [->%elem_of_singleton|Hin]%elem_of_union.
        -- by rewrite lookup_insert_eq.
        -- rewrite lookup_insert_ne by (by intros ->).
           apply (Hhome r room0); [apply (Hold0 ws1 Hin) | exact Hin].
      * rewrite lookup_insert_ne, Hother by done. intros Hr1 Hin1.
        destruct (Helse r1 room1 ws1 Hne Hr1 Hin1) as [Hws _].
        rewrite lookup_insert_ne by done. by eapply Hhome.
    + intros r1 room1 ws1 d1. cbn [rooms].
      unfold mirrors. rewrite delivered_app, delivered_cons.
      change (delivered ws1 []) with (@nil Frame). rewrite app_nil_r.
      destruct (decide (r1 = r)) as [->|Hne].
      * rewrite lookup_insert_eq. intros [= <-].
        cbn [socketToDeviceId devices]. intros Hs1.
        pose proof (Hdom0 ws1 d1 Hs1) as Hin1.
        rewrite bool_decide_eq_false_2 by (by intros ->).
        rewrite app_nil_r.
        by apply (Hmir r room0 ws1 d1 (Hold0 ws1 Hin1)).
      * rewrite lookup_insert_ne, Hother by done. intros Hr1 Hs1.
        destruct (Hsock r1 room1 Hr1) as [Hdom1 _].
        assert (Hin1 : ws1 ∈ sockets room1).
        { apply Hdom1, elem_of_dom. by exists d1. }
        destruct (Helse r1 room1 ws1 Hne Hr1 Hin1) as [Hws _].
        rewrite bool_decide_eq_false_2 by done.
        rewrite app_nil_r. by apply (Hmir r1 room1).
Qed.

Lemma mirror_close ws st log :
  Stated.socket_invariant st → directory_wf st → homed st →
  mirrored st log →
  let res := Relay.step allOpen (Close ws) st in
  homed res.1 ∧ mirrored res.1 (log ++ res.2).
Proof.
  intros Hsock Hwf Hhome Hmir. cbv zeta. rewrite step_close.
  assert (Hidle : cleanupSocket allOpen ws (roomIdOf st ws) (rooms st)
                  = (rooms st, []) →
          homed (mkServer
                   (cleanupSocket allOpen ws (roomIdOf st ws) (rooms st)).1
                   (connRoomId st))
          ∧ mirrored
              (mkServer
                 (cleanupSocket allOpen ws (roomIdOf st ws) (rooms st)).1
                 (connRoomId st))
              (log ++ (cleanupSocket allOpen ws (roomIdOf st ws)
                         (rooms st)).2)).
  { intros ->. cbn [fst snd]. rewrite app_nil_r. by split. }
  cbn [fst snd].
  destruct (roomIdOf st ws) as [r|] eqn:Hc; [|by apply Hidle].
  destruct (decide (r = EmptyString)) as [->|Hrne]; [by apply Hidle|].
  destruct (rooms st !! r) as [room|] eqn:Hroom.
  2: { apply Hidle. unfold cleanupSocket.
       by rewrite (truthy_Some_ne r Hrne), Hroom. }
  clear Hidle.
  rewrite (cleanupSocket_registered allOpen ws r room) by done.
  cbv zeta. cbn [fst snd].
  destruct (Hsock r room Hroom) as [Hdom _].
  destruct (Hwf r room Hroom) as (_ & Hwfd & _).
  split.
  - intros r1 room1 ws1. cbn [rooms connRoomId].
    case_bool_decide as Hsz.
    + intros [_ Hr1]%lookup_delete_Some. by apply (Hhome r1 room1).
    + destruct (decide (r1 = r)) as [->|Hne].
      * rewrite lookup_insert_eq. intros [= <-]. cbn [sockets].
        intros [Hin _]%elem_of_difference. by apply (Hhome r room).
      * rewrite lookup_insert_ne by done. by apply (Hhome r1 room1).
  - intros r1 room1 ws1 d1. cbn [rooms]. unfold mirrors.
    destruct (decide (r1 = r)) as [->|Hne].
    + case_bool_decide as Hsz; [by rewrite lookup_delete_eq|].
      rewrite lookup_insert_eq. intros [= <-].
      cbn [socketToDeviceId devices].
      intros [Hws Hs1]%lookup_delete_Some.
      assert (Hin1 : ws1 ∈ sockets room ∖ {[ws]}).
      { apply elem_of_difference. split.
        - apply Hdom, elem_of_dom. by exists d1.
        - intros ->%elem_of_singleton. done. }
      destruct (Hmir r room ws1 d1 Hroom Hs1) as [Hnd Hin].
      destruct (socketToDeviceId room !! ws) as [d|];
        [change (truthy (Some d))
           with (negb (bool_decide (d = EmptyString)));
         destruct (negb (bool_decide (d = EmptyString))
                   && bool_decide (is_Some (devices room !! d)))|].
      * rewrite delivered_leave, (bool_decide_eq_true_2 _ Hin1).
        rewrite peersAfter_snoc. by apply mirrors_after_left.
      * by rewrite app_nil_r.
      * by rewrite app_nil_r.
    + intros Hr1 Hs1.
      assert (Hr1' : rooms st !! r1 = Some room1).
      { case_bool_decide.
        - by apply lookup_delete_Some in Hr1 as [_ ?].
        - by rewrite lookup_insert_ne in Hr1. }
      destruct (Hsock r1 room1 Hr1') as [Hdom1 _].
      assert (Hnin : ws1 ∉ sockets room ∖ {[ws]}).
      { intros [Hin _]%elem_of_difference.
        pose proof (Hhome _ _ _ Hroom Hin) as E1.
        assert (Hin1 : ws1 ∈ sockets room1).
        { apply Hdom1, elem_of_dom. by exists d1. }
        pose proof (Hhome _ _ _ Hr1' Hin1) as E2.
        rewrite E1 in E2. by injection E2 as ->. }
      assert (Hsame : ∀ out : list Sent,
                out = [] ∨ (∃ G, out = (λ client, (client, G))
                   <$> filter (λ client, isOpen allOpen client = true)
                         (elements (sockets room ∖ {[ws]}))) →
                delivered ws1 (log ++ out) = delivered ws1 log).
      { intros out [->|[G ->]]; [by rewrite app_nil_r|].
        rewrite delivered_leave, (bool_decide_eq_false_2 _ Hnin).
        by rewrite app_nil_r. }
      rewrite Hsame; [by apply (Hmir r1 room1)|].
      destruct (socketToDeviceId room !! ws) as [d|]; [|by left].
      change (truthy (Some d)) with (negb (bool_decide (d = EmptyString))).
      destruct (negb (bool_decide (d = EmptyString))
                && bool_decide (is_Some (devices room !! d)));
        [right; by eexists | by left].
Qed.

Lemma mirror_step ev st log :
  Stated.socket_invariant st → directory_wf st → homed st →
  mirrored st log →
  (∀ ws, ws ∈ joiners [ev] → connRoomId st !! ws = None) →
  let res := Relay.step allOpen ev st in
  homed res.1 ∧ mirrored res.1 (log ++ res.2).
Proof.
  intros Hsock Hwf Hhome Hmir Hnew.
  destruct ev as [ws [m| m | |]|ws].
  - apply mirror_join; try done. apply Hnew. by left.
  - cbv zeta. cbn [Relay.step fst snd]. split; [done|].
    intros r room ws1 d1 Hr Hs1. unfold mirrors.
    rewrite delivered_app, peersAfter_no_presence;
      [by apply (Hmir r room)|].
    apply delivered_no_presence, onSignal_no_presence.
  - cbv zeta. cbn [Relay.step fst snd]. rewrite app_nil_r. by split.
  - (* the process is gone, and its rooms with it *)
    cbv zeta. cbn [Relay.step fst snd]. split.
    + intros r room ws1 Hr. simpl in Hr. by rewrite lookup_empty in Hr.
    + intros r room ws1 d1 Hr. simpl in Hr. by rewrite lookup_empty in Hr.
  - by apply mirror_close.
Qed.

Lemma run_cons rs ev evs st :
  Relay.run rs (ev :: evs) st
  = ((Relay.run rs evs (Relay.step rs ev st).1).1,
     (Relay.step rs ev st).2 ++ (Relay.run rs evs (Relay.step rs ev st).1).2).
Proof.
  simpl. destruct (Relay.step rs ev st) as [st1 out1]. simpl.
  by destruct (Relay.run rs evs st1).
Qed.

Lemma step_keeps_unjoined rs ev st ws :
  ws ∉ joiners [ev] → connRoomId st !! ws = None →
  connRoomId (Relay.step rs ev st).1 !! ws = None.
Proof.
  intros Hnot Hnew. destruct ev as [ws0 [m| m | |]|ws0]; try done.
  - rewrite step_join. cbn [fst connRoomId].
    rewrite lookup_insert_ne; [done|]. intros ->. apply Hnot. by left.
  - by rewrite step_close.
Qed.

Lemma joiners_cons ev evs : joiners (ev :: evs) = joiners [ev] ++ joiners evs.
Proof. unfold joiners. simpl. by destruct ev as [? [| | |]|]. Qed.

Lemma mirror_run (evs : list Relay.Event) :
  ∀ st log,
    Stated.socket_invariant st → directory_wf st → homed st →
    mirrored st log →
    NoDup (joiners evs) →
    (∀ ws, ws ∈ joiners evs → connRoomId st !! ws = None) →
    mirrored (Relay.run allOpen evs st).1
             (log ++ (Relay.run allOpen evs st).2).
Proof.
  induction evs as [|ev evs IH];
    intros st log Hsock Hwf Hhome Hmir Hnd Hnew.
  - cbn [Relay.run fst snd]. by rewrite app_nil_r.
  - rewrite run_cons. cbn [fst snd]. rewrite app_assoc.
    rewrite joiners_cons in Hnd, Hnew.
    apply NoDup_app in Hnd as (_ & Hdisj & Hnd).
    destruct (mirror_step ev st log Hsock Hwf Hhome Hmir) as [Hhome1 Hmir1].
    { intros ws Hin. apply Hnew, elem_of_app. by left. }
    apply IH; try done.
    + by apply socket_invariant_step.
    + by apply directory_wf_step.
    + intros ws Hin. apply step_keeps_unjoined.
      * intros Hev. by apply (Hdisj ws).
      * apply Hnew, elem_of_app. by right.
Qed.

(** X22: what a client shows is what the relay holds.  Let every socket be
    open and send at most one join frame, as the client does.  Then, after
    any sequence of joins, signals and disconnects, the presence list a
    client builds from the frames the relay sent to its socket has no two
    entries with one id and holds exactly the records of the directory of
    its room, without the client's own id. *)
Theorem presence_list_mirrors_directory (evs : list Relay.Event)
    (Honce : NoDup (joiners evs)) :
  let res := Relay.run allOpen evs init in
  ∀ r room ws d,
    rooms res.1 !! r = Some room →
    socketToDeviceId room !! ws = Some d →
    let ps := peersAfter d (delivered ws res.2) in
    NoDup (deviceId <$> ps)
    ∧ ∀ dev, dev ∈ ps ↔ ∃ k, devices room !! k = Some dev ∧ k ≠ d.
Proof.
  cbv zeta. intros r room ws d Hr Hs.
  assert (Hinit : ∀ r' room', rooms init !! r' = Some room' → False).
  { intros r' room' H. simpl in H. by rewrite lookup_empty in H. }
  refine (mirror_run evs init [] _ _ _ _ Honce _ r room ws d Hr Hs).
  - apply socket_invariant_init.
  - intros r' room' H. by destruct (Hinit r' room').
  - intros r' room' ws' H. by destruct (Hinit r' room').
  - intros r' room' ws' d' H. by destruct (Hinit r' room').
  - intros ws' _. apply lookup_empty.
Qed.

Lemma presence_list_mirrors_directory_witness :
  let evs := Samples.sharedDevice ++ [Close 1] in
  let res := Relay.run allOpen evs init in
  let ps := peersAfter "e" (delivered 3 res.2) in
  NoDup (joiners evs)
  ∧ rooms res.1 !! "R" = Some Samples.roomAfterFirstLeft
  ∧ socketToDeviceId Samples.roomAfterFirstLeft !! 3 = Some "e"
  ∧ NoDup (deviceId <$> ps)
  ∧ ∀ dev, dev ∈ ps
      ↔ ∃ k, devices Samples.roomAfterFirstLeft !! k = Some dev ∧ k ≠ "e".
Proof.
  assert (Hnd : NoDup (joiners (Samples.sharedDevice ++ [Close 1]))).
  { refine (bool_decide_unpack _ _). vm_compute. exact I. }
  assert (Hr : rooms (Relay.run allOpen (Samples.sharedDevice ++ [Close 1])
                        init).1 !! "R"
               = Some Samples.roomAfterFirstLeft).
  { vm_compute. reflexivity. }
  assert (Hs : socketToDeviceId Samples.roomAfterFirstLeft !! 3 = Some "e").
  { vm_compute. reflexivity. }
  split; [exact Hnd|]. split; [exact Hr|]. split; [exact Hs|].
  exact (presence_list_mirrors_directory
           (Samples.sharedDevice ++ [Close 1]) Hnd
           "R" Samples.roomAfterFirstLeft 3 "e" Hr Hs).
Defined.

End MirrorProofs.


(** * The connection of the signaling client *)

Section ClientProofs.
Import Relay Signaling SignalingProps.

Ltac client_simpl :=
  cbn [fst snd state peers socketRef reconnectTimeoutRef reconnectDelayRef
       isIntentionallyClosingRef identityKeyRef created timersSet pending
       withSocket withState withPeers withClosing openSocket] in *.

Lemma run_client_cons i rs ev evs c :
  Signaling.run i ((rs, ev) :: evs) c
  = ((Signaling.run i evs (Signaling.step rs i ev c).1).1,
     (Signaling.step rs i ev c).2
     ++ (Signaling.run i evs (Signaling.step rs i ev c).1).2).
Proof.
  simpl. destruct (Signaling.step rs i ev c) as [c1 out1]. simpl.
  by destruct (Signaling.run i evs c1).
Qed.

Lemma openSocket_coherent c :
  pending c = [] → (RECONNECT_DELAY_INITIAL <= reconnectDelayRef c)%Q →
  coherent (openSocket c).1 ∧ pending (openSocket c).1 = []
  ∧ delaysOf (openSocket c).2 = [].
Proof.
  intros Hnone Hdelay. unfold openSocket, coherent.
  cbn [fst snd socketRef created pending reconnectDelayRef].
  split; [|done]. split; [by intros s' [= <-]|]. split; [by left | done].
Qed.

Lemma connect_coherent rs c :
  coherent c → pending c = [] →
  coherent (connect rs c).1 ∧ pending (connect rs c).1 = []
  ∧ delaysOf (connect rs c).2 = [].
Proof.
  intros Hc Hnone. pose proof Hc as (Hlast & Hpend & Hdelay).
  unfold connect.
  destruct (socketRef c) as [s|] eqn:Hs; [destruct (rs s)|];
    try (cbn [fst snd]; by split; [|split]);
    by apply openSocket_coherent.
Qed.

Lemma cleanup_coherent rs c :
  coherent c →
  coherent (lifecycleCleanup rs c).1
  ∧ pending (lifecycleCleanup rs c).1 = []
  ∧ socketRef (lifecycleCleanup rs c).1 = None
  ∧ delaysOf (lifecycleCleanup rs c).2 = [].
Proof.
  intros (Hlast & Hpend & Hdelay).
  assert (Hcleared :
    match reconnectTimeoutRef c with
    | Some t => filter (λ t', t' ≠ t) (pending c)
    | None => pending c
    end = []).
  { destruct Hpend as [->|(_ & t & -> & ->)].
    - by destruct (reconnectTimeoutRef c).
    - rewrite filter_cons_False, filter_nil; [done|]. by intros ?. }
  unfold lifecycleCleanup, coherent.
  destruct c as [st ps sr tr dr ic ik cr ts pd]. client_simpl.
  destruct tr as [t|], sr as [s|]; client_simpl;
    (split; [split; [by intros ? [=]
                    | split; [left; exact Hcleared | exact Hdelay]]|]);
    (split; [exact Hcleared|]); (split; [done|]);
    try done; unfold closeIfOpen; by destruct (rs s).
Qed.

Lemma effect_coherent rs i c :
  coherent c → pending c = [] →
  coherent (lifecycleEffect rs i c).1
  ∧ delaysOf (lifecycleEffect rs i c).2 = [].
Proof.
  intros Hc Hnone. unfold lifecycleEffect.
  set (changed := negb (bool_decide
                          (identityKeyRef c = Some (identityKey i)))).
  set (c0 := mkClient _ _ _ _ _ _ _ _ _ _).
  assert (Hc0 : coherent c0 ∧ pending c0 = []).
  { subst c0. destruct c. by split. }
  clearbody c0 changed. clear Hc Hnone. destruct Hc0 as [Hc0 Hp0].
  set (first := match socketRef c0 with
                | Some oldSocket =>
                  if changed
                  then (withSocket (withClosing c0 true) None,
                        closeIfOpen rs oldSocket)
                  else (c0, [])
                | None => (c0, [])
                end).
  assert (H1 : coherent (withClosing first.1 false)
               ∧ pending (withClosing first.1 false) = []
               ∧ delaysOf first.2 = []).
  { subst first. destruct Hc0 as (Hlast & Hpend & Hdelay).
    unfold coherent. destruct c0 as [st ps sr tr dr ic ik cr ts pd].
    client_simpl. subst pd.
    destruct sr as [s|]; [destruct changed|]; client_simpl.
    - split; [split; [by intros ? [=] | split; [by left | exact Hdelay]]|].
      split; [done|]. unfold closeIfOpen. by destruct (rs s).
    - split; [|done]. split; [exact Hlast|]. split; [by left | exact Hdelay].
    - split; [|done]. split; [exact Hlast|]. split; [by left | exact Hdelay]. }
  destruct first as [c1 out1]. cbn [fst snd] in H1.
  destruct H1 as (Hc1 & Hp1 & Hd1).
  destruct (connect_coherent rs (withClosing c1 false) Hc1 Hp1)
    as (Hc2 & _ & Hd2).
  destruct (connect rs (withClosing c1 false)) as [c2 out2].
  cbn [fst snd] in *. split; [done|].
  unfold delaysOf in *. by rewrite omap_app, Hd1, Hd2.
Qed.

(** One event keeps the hook coherent, and any timer it sets has a delay
    between the initial and the maximal one. *)
Lemma coherent_step rs i ev c :
  coherent c →
  coherent (Signaling.step rs i ev c).1
  ∧ Forall inRange (delaysOf (Signaling.step rs i ev c).2).
Proof.
  intros Hc. pose proof Hc as (Hlast & Hpend & Hdelay).
  destruct ev as [s|s wasClean|s|s frame|t| |]; cbn [Signaling.step].
  - unfold handleOpen. case_bool_decide as Hcur; cbn [fst snd];
      [by split; [|constructor]|].
    split; [|constructor]. split; [exact Hlast|]. split; [exact Hpend|].
    cbn [reconnectDelayRef]. apply Qle_refl.
  - unfold handleClose. case_bool_decide as Hcur; cbn [fst snd];
      [by split; [|constructor]|].
    assert (Hs : socketRef c = Some s).
    { destruct (decide (socketRef c = Some s)); [done|]. by destruct Hcur. }
    assert (Hnone : pending c = []).
    { destruct Hpend as [?|[Hn _]]; [done|]. rewrite Hn in Hs. discriminate. }
    destruct (negb (isIntentionallyClosingRef c) && negb wasClean);
      cbn [fst snd].
    + split.
      * split; [by intros ? [=]|]. split.
        -- right. split; [done|]. exists (timersSet c).
           cbn [pending reconnectTimeoutRef]. by rewrite Hnone.
        -- cbn [reconnectDelayRef]. unfold RECONNECT_DELAY_INITIAL in *. lra.
      * cbn [delaysOf omap]. constructor; [|constructor]. split.
        -- apply Q.min_glb; [exact Hdelay|].
           unfold RECONNECT_DELAY_INITIAL, RECONNECT_DELAY_MAX. lra.
        -- apply Q.le_min_r.
    + split; [|constructor]. split; [by intros ? [=]|].
      split; [by left | exact Hdelay].
  - unfold handleError. case_bool_decide as Hcur; cbn [fst snd];
      [by split; [|constructor]|].
    destruct (negb (isIntentionallyClosingRef c)); cbn [fst snd];
      by split; [|constructor].
  - unfold handleMessage. case_bool_decide as Hcur; cbn [fst snd];
      [by split; [|constructor]|].
    destruct (dispatch (id_deviceId i) frame (peers c)) as [next out] eqn:Hd.
    cbn [fst snd]. split; [done|].
    assert (delaysOf out = []) as ->; [|constructor].
    destruct frame; cbn [dispatch] in Hd;
      try case_bool_decide; by injection Hd as <- <-.
  - unfold onTimeout. case_bool_decide as Hin; cbn [fst snd];
      [|by split; [|constructor]].
    match goal with |- context [connect rs ?c0] => set (c' := c0) end.
    assert (Hp' : pending c' = []).
    { subst c'. cbn [pending].
      destruct Hpend as [->|(_ & t0 & Ht0 & _)]; [done|].
      rewrite Ht0 in Hin |- *. apply list_elem_of_singleton in Hin as ->.
      by rewrite filter_cons_False, filter_nil by (by intros ?). }
    destruct (connect_coherent rs c') as (Hc' & _ & Hd'); [|done|].
    { split; [exact Hlast|]. split; [by left | exact Hdelay]. }
    split; [done|]. rewrite Hd'. constructor.
  - destruct (cleanup_coherent rs c Hc) as (Hc1 & Hp1 & _ & Hd1).
    destruct (lifecycleCleanup rs c) as [c1 out1]. cbn [fst snd] in *.
    destruct (effect_coherent rs i c1 Hc1 Hp1) as (Hc2 & Hd2).
    destruct (lifecycleEffect rs i c1) as [c2 out2]. cbn [fst snd] in *.
    split; [done|]. unfold delaysOf in *. rewrite omap_app, Hd1, Hd2.
    constructor.
  - destruct (cleanup_coherent rs c Hc) as (Hc1 & _ & _ & Hd1).
    split; [done|]. rewrite Hd1. constructor.
Qed.

Lemma coherent_initial : coherent initial.
Proof.
  split; [by intros ? [=]|]. split; [by left|]. apply Qle_refl.
Qed.

Lemma coherent_mounted i : coherent (mounted i).
Proof.
  unfold mounted.
  by destruct (effect_coherent (λ _, WS_CONNECTING) i initial
                 coherent_initial eq_refl).
Qed.

Lemma coherent_run i evs :
  ∀ c, coherent c →
       coherent (Signaling.run i evs c).1
       ∧ Forall inRange (delaysOf (Signaling.run i evs c).2).
Proof.
  induction evs as [|[rs ev] evs IH]; intros c Hc.
  - cbn [Signaling.run fst snd]. by split; [|constructor].
  - rewrite run_client_cons. cbn [fst snd].
    destruct (coherent_step rs i ev c Hc) as [Hc1 Hd1].
    destruct (IH _ Hc1) as [Hc2 Hd2]. split; [done|].
    unfold delaysOf in *. rewrite omap_app. by apply Forall_app.
Qed.

(** X23: whatever happens to a mounted hook, every reconnect timer it sets
    has a delay of at least one second and at most ten. *)
Theorem reconnect_delay_is_bounded (i : Identity)
    (evs : list ((Socket → WsState) * Signaling.Event)) :
  Forall (λ d, (1000 <= d)%Q ∧ (d <= 10000)%Q)
         (delaysOf (Signaling.run i evs (mounted i)).2).
Proof.
  by destruct (coherent_run i evs (mounted i) (coherent_mounted i)).
Qed.

(** X24: at any time at most one reconnect timer is pending; while one is
    pending there is no current socket, and [reconnectTimeoutRef] names
    that timer, so the cleanup clears it. *)
Theorem single_reconnect_timer (i : Identity)
    (evs : list ((Socket → WsState) * Signaling.Event)) :
  let c := (Signaling.run i evs (mounted i)).1 in
  length (pending c) ≤ 1
  ∧ (∀ t, t ∈ pending c →
          socketRef c = None ∧ reconnectTimeoutRef c = Some t)
  ∧ (∀ rs, pending (lifecycleCleanup rs c).1 = []).
Proof.
  cbv zeta.
  destruct (coherent_run i evs (mounted i) (coherent_mounted i))
    as [Hc _].
  split; [|split].
  - destruct Hc as (_ & [->|(_ & t & -> & _)] & _); simpl; lia.
  - intros t Hin. destruct Hc as (_ & [Hp|(Hs & t0 & Hp & Ht)] & _);
      rewrite Hp in Hin.
    + by apply elem_of_nil in Hin.
    + by apply list_elem_of_singleton in Hin as ->.
  - intros rs. by destruct (cleanup_coherent rs _ Hc) as (_ & ? & _).
Qed.

(** X25: only the socket made last is ever heard: an event of any other
    socket changes nothing and has no effect, whatever happened before. *)
Theorem only_latest_socket_is_heard (i : Identity)
    (evs : list ((Socket → WsState) * Signaling.Event))
    (rs : Socket → WsState) (ev : Signaling.Event) (s : Socket)
    (Hev : eventSocket ev = Some s)
    (Hold : S s ≠ created (Signaling.run i evs (mounted i)).1) :
  Signaling.step rs i ev (Signaling.run i evs (mounted i)).1
  = ((Signaling.run i evs (mounted i)).1, []).
Proof.
  destruct (coherent_run i evs (mounted i) (coherent_mounted i))
    as [(Hlast & _) _].
  assert (Hcur : socketRef (Signaling.run i evs (mounted i)).1 ≠ Some s).
  { intros Hs. by apply Hold, Hlast. }
  destruct ev as [s'|s' wasClean|s'|s' frame|t| |]; try discriminate Hev;
    injection Hev as ->; cbn [Signaling.step];
    unfold handleOpen, handleClose, handleError, handleMessage;
    by rewrite bool_decide_eq_true_2.
Qed.

Lemma only_latest_socket_is_heard_witness :
  let i := mkIdentity "a" "Swift Fox" "hsl(1 70% 55%)" "room-1" in
  let evs := [((λ _, WS_OPEN), Opened 0); ((λ _, WS_OPEN), EffectRerun)] in
  Signaling.step (λ _, WS_OPEN) i (Closed 0 false)
                 (Signaling.run i evs (mounted i)).1
  = ((Signaling.run i evs (mounted i)).1, []).
Proof.
  apply (only_latest_socket_is_heard
           (mkIdentity "a" "Swift Fox" "hsl(1 70% 55%)" "room-1")
           [((λ _, WS_OPEN), Opened 0); ((λ _, WS_OPEN), EffectRerun)]
           (λ _, WS_OPEN) (Closed 0 false) 0).
  - reflexivity.
  - vm_compute. discriminate.
Defined.

Lemma dropAndRetry_round rs c s :
  socketRef c = Some s → isIntentionallyClosingRef c = false →
  is_Some (socketRef (dropAndRetry rs c).1)
  ∧ isIntentionallyClosingRef (dropAndRetry rs c).1 = false
  ∧ reconnectDelayRef (dropAndRetry rs c).1 = (reconnectDelayRef c * 1.5)%Q
  ∧ delaysOf (dropAndRetry rs c).2
    = [Qmin (reconnectDelayRef c) RECONNECT_DELAY_MAX].
Proof.
  intros Hs Hint. unfold dropAndRetry, handleClose, onTimeout, connect.
  destruct c as [st ps sr tr dr ic ik cr ts pd]. client_simpl. subst sr ic.
  rewrite bool_decide_eq_false_2 by (by intros H; apply H).
  client_simpl. cbn [negb andb]. client_simpl.
  rewrite bool_decide_eq_true_2
    by (apply elem_of_app; right; by apply list_elem_of_singleton).
  client_simpl. by repeat split.
Qed.

Lemma afterFailures_state rs c k :
  is_Some (socketRef c) → isIntentionallyClosingRef c = false →
  (reconnectDelayRef c == RECONNECT_DELAY_INITIAL)%Q →
  is_Some (socketRef (afterFailures rs k c))
  ∧ isIntentionallyClosingRef (afterFailures rs k c) = false
  ∧ (reconnectDelayRef (afterFailures rs k c)
     == 1000 * (3 # 2) ^ Z.of_nat k)%Q.
Proof.
  intros Hs Hint Hdelay. induction k as [|k (IHs & IHi & IHd)].
  - change (afterFailures rs 0 c) with c. split; [done|]. split; [done|].
    rewrite Hdelay. unfold RECONNECT_DELAY_INITIAL.
    change ((3 # 2) ^ Z.of_nat 0)%Q with 1%Q. lra.
  - change (afterFailures rs (S k) c)
      with (dropAndRetry rs (afterFailures rs k c)).1.
    destruct IHs as [s IHs].
    destruct (dropAndRetry_round rs _ s IHs IHi) as (H1 & H2 & H3 & _).
    split; [done|]. split; [done|]. rewrite H3, IHd.
    rewrite Nat2Z.inj_succ, <- Z.add_1_r, Qpower_plus by discriminate.
    change ((3 # 2) ^ 1)%Q with (3 # 2)%Q. lra.
Qed.

Lemma power_passes_ten k :
  6 ≤ k → (10 <= (3 # 2) ^ Z.of_nat k)%Q.
Proof.
  induction 1 as [|k Hk IH].
  - vm_compute. discriminate.
  - rewrite Nat2Z.inj_succ, <- Z.add_1_r, Qpower_plus by discriminate.
    change ((3 # 2) ^ 1)%Q with (3 # 2)%Q. lra.
Qed.

(** X26: the reconnect backoff.  Start with a current socket and the
    initial delay, as [handleOpen] leaves them.  If the socket drops
    uncleanly, the timer fires and the next socket drops again, and so on,
    the timer of round [k] (counting from zero) is set to
    min(1000 * 1.5^k, 10000) milliseconds, which is ten seconds from the
    seventh round on. *)
Theorem reconnect_backoff_schedule (rs : Socket → WsState) (c : Client)
    (k : nat)
    (Hcur : is_Some (socketRef c))
    (Hint : isIntentionallyClosingRef c = false)
    (Hdelay : (reconnectDelayRef c == RECONNECT_DELAY_INITIAL)%Q) :
  ∃ d, delaysOf (dropAndRetry rs (afterFailures rs k c)).2 = [d]
       ∧ (d == retryDelay k)%Q
       ∧ (6 ≤ k → (d == 10000)%Q).
Proof.
  destruct (afterFailures_state rs c k Hcur Hint Hdelay)
    as ([s Hs] & Hi & Hd).
  destruct (dropAndRetry_round rs _ s Hs Hi) as (_ & _ & _ & Hout).
  eexists. split; [exact Hout|].
  assert (Heq : (Qmin (reconnectDelayRef (afterFailures rs k c))
                      RECONNECT_DELAY_MAX == retryDelay k)%Q).
  { unfold retryDelay, RECONNECT_DELAY_MAX. by rewrite Hd. }
  split; [exact Heq|]. intros Hk. rewrite Heq. unfold retryDelay.
  apply Q.min_r. pose proof (power_passes_ten k Hk). lra.
Qed.

Lemma reconnect_backoff_schedule_witness :
  let i := mkIdentity "a" "Swift Fox" "hsl(1 70% 55%)" "room-1" in
  let c := (handleOpen i 0 (mounted i)).1 in
  ∃ d, delaysOf (dropAndRetry (λ _, WS_CLOSED)
                   (afterFailures (λ _, WS_CLOSED) 2 c)).2 = [d]
       ∧ (d == retryDelay 2)%Q
       ∧ (6 ≤ 2 → (d == 10000)%Q).
Proof.
  apply (reconnect_backoff_schedule (λ _, WS_CLOSED)
           (handleOpen (mkIdentity "a" "Swift Fox" "hsl(1 70% 55%)" "room-1")
              0 (mounted (mkIdentity "a" "Swift Fox" "hsl(1 70% 55%)"
                                     "room-1"))).1 2).
  - vm_compute. by eexists.
  - reflexivity.
  - vm_compute. reflexivity.
Defined.

End ClientProofs.


(** * The room id *)

Section AppProofs.
Import App AppProps.

Lemma toInt32_shift (z k : Z) : toInt32 (z + k * 4294967296) = toInt32 z.
Proof.
  unfold toInt32. f_equal.
  replace (z + k * 4294967296 + 2147483648)%Z
    with (z + 2147483648 + k * 4294967296)%Z by lia.
  apply Z_mod_plus_full.
Qed.

Lemma toInt32_offset (z : Z) : ∃ k, toInt32 z = (z + k * 4294967296)%Z.
Proof.
  exists (- ((z + 2147483648) / 4294967296))%Z. unfold toInt32.
  pose proof (Z_div_mod_eq_full (z + 2147483648) 4294967296). lia.
Qed.

Lemma toInt32_range (z : Z) :
  (-2147483648 ≤ toInt32 z < 2147483648)%Z.
Proof.
  unfold toInt32.
  pose proof (Z.mod_pos_bound (z + 2147483648) 4294967296). lia.
Qed.

(** One round of the loop on a wrapped value is one Horner step, wrapped. *)
Lemma hashStep_horner (p code : Z) :
  hashStep (toInt32 p) code = toInt32 (31 * p + code).
Proof.
  unfold hashStep. rewrite Z.shiftl_mul_pow2 by lia.
  destruct (toInt32_offset p) as [j Hj].
  destruct (toInt32_offset (toInt32 p * 2 ^ 5)) as [k Hk].
  rewrite Hk, Hj.
  replace ((p + j * 4294967296) * 2 ^ 5 + k * 4294967296
           - (p + j * 4294967296) + code)%Z
    with (31 * p + code + (31 * j + k) * 4294967296)%Z by lia.
  apply toInt32_shift.
Qed.

Lemma hash_fold (codes : list Z) (p : Z) :
  foldl hashStep (toInt32 p) codes
  = toInt32 (foldl (λ acc code, 31 * acc + code)%Z p codes).
Proof.
  revert p. induction codes as [|code codes IH]; intros p; [done|].
  cbn [foldl]. rewrite hashStep_horner. apply IH.
Qed.

Lemma hashOf_horner (key : string) :
  hashOf key = toInt32 (horner31 (charCodes key)).
Proof.
  unfold hashOf, horner31. change 0%Z with (toInt32 0) at 1.
  apply hash_fold.
Qed.

(** X27: the hash of [deriveRoomId] is the polynomial hash with base 31:
    the 32-bit wrap of the sum of the character codes times decreasing
    powers of 31.  The shift, the subtraction and the wrap of every round
    add up to one wrap at the end. *)
Theorem room_hash_is_polynomial (key : string) :
  hashOf key = toInt32 (horner31 (charCodes key))
  ∧ (-2147483648 ≤ hashOf key < 2147483648)%Z.
Proof.
  split; [apply hashOf_horner|]. rewrite hashOf_horner.
  apply toInt32_range.
Qed.

Lemma charCodes_app (s t : string) :
  charCodes (s +:+ t) = charCodes s ++ charCodes t.
Proof. induction s as [|a s IH]; simpl; [done | by rewrite IH]. Qed.

(** X28: rooms are keyed by the magnitude of the hash, so pages with
    different addresses can share a room: two pages get the same room id
    exactly when their hashes agree up to sign, and the room id does not
    tell [Aa] from [BB] anywhere in the address. *)
Theorem different_pages_can_share_a_room (key1 key2 s t : string) :
  (deriveRoomId key1 = deriveRoomId key2
   ↔ Z.abs (hashOf key1) = Z.abs (hashOf key2))
  ∧ s +:+ "Aa" +:+ t ≠ s +:+ "BB" +:+ t
  ∧ deriveRoomId (s +:+ "Aa" +:+ t) = deriveRoomId (s +:+ "BB" +:+ t).
Proof.
  split; [|split].
  - unfold deriveRoomId. split.
    + intros H. simpl in H. injection H as H. by apply pretty_Z_inj in H.
    + by intros ->.
  - induction s as [|a s IH]; simpl; [discriminate|].
    intros H. injection H as H. by apply IH.
  - unfold deriveRoomId. do 2 f_equal.
    rewrite !hashOf_horner.
    f_equal. unfold horner31. rewrite !charCodes_app, !foldl_app.
    change (charCodes "Aa") with [65; 97]%Z.
    change (charCodes "BB") with [66; 66]%Z. cbn [foldl].
    set (X := foldl _ 0%Z (charCodes s)).
    by replace (31 * (31 * X + 66) + 66)%Z
      with (31 * (31 * X + 65) + 97)%Z by lia.
Qed.

(** X29: the join frame of a client is accepted by the relay.  With the
    room id [deriveRoomId] computes and a device id that is not empty, the
    frame [handleOpen] sends on the current socket passes the guards of the
    relay's join branch: the relay registers the connection in the room of
    that id and stores the device under its id, with the name and colour
    the client sent. *)
Theorem client_join_is_accepted (key deviceId deviceName color : string)
    (s ws : Relay.Socket) (c : Signaling.Client) (rs : Relay.ReadyStates)
    (st : Relay.Server)
    (Hid : deviceId ≠ EmptyString)
    (Hcur : Signaling.socketRef c = Some s) :
  let i := identityOf key deviceId deviceName color in
  ∃ m, (Signaling.handleOpen i s c).2
       = [Signaling.SocketSend s (Relay.Join m)]
    ∧ let res := Relay.step rs (Relay.Message ws (Relay.Join m)) st in
      ∃ room,
        Relay.rooms res.1 !! deriveRoomId key = Some room
        ∧ Relay.roomIdOf res.1 ws = Some (deriveRoomId key)
        ∧ ws ∈ Relay.sockets room
        ∧ Relay.socketToDeviceId room !! ws = Some deviceId
        ∧ Relay.devices room !! deviceId
          = Some (Relay.mkDevice deviceId (Some deviceName) (Some color)).
Proof.
  cbv zeta. exists (Signaling.joinFrame
                      (identityOf key deviceId deviceName color)).
  split.
  - unfold Signaling.handleOpen.
    rewrite bool_decide_eq_false_2; [done|]. intros H. by apply H.
  - cbv zeta. rewrite step_join.
    rewrite (onJoin_with_device rs ws _ (Relay.rooms st)
               (deriveRoomId key) deviceId);
      [|reflexivity | discriminate | reflexivity | exact Hid].
    cbv zeta. cbn [fst snd]. eexists.
    split; [apply lookup_insert_eq|].
    split; [unfold Relay.roomIdOf; cbn [Relay.connRoomId];
            by rewrite lookup_insert_eq|].
    cbn [Relay.sockets Relay.socketToDeviceId Relay.devices].
    split; [apply elem_of_union_l; by apply elem_of_singleton|].
    split; apply lookup_insert_eq.
Qed.

Lemma client_join_is_accepted_witness :
  let i := identityOf "http://x/" "a" "Swift Fox" "hsl(1 70% 55%)" in
  ∃ m, (Signaling.handleOpen i 0 (Signaling.mounted i)).2
       = [Signaling.SocketSend 0 (Relay.Join m)]
    ∧ let res := Relay.step Relay.allOpen
                   (Relay.Message 7 (Relay.Join m)) Relay.init in
      ∃ room,
        Relay.rooms res.1 !! deriveRoomId "http://x/" = Some room
        ∧ Relay.roomIdOf res.1 7 = Some (deriveRoomId "http://x/")
        ∧ 7 ∈ Relay.sockets room
        ∧ Relay.socketToDeviceId room !! 7 = Some "a"
        ∧ Relay.devices room !! "a"
          = Some (Relay.mkDevice "a" (Some "Swift Fox")
                                 (Some "hsl(1 70% 55%)")).
Proof.
  apply (client_join_is_accepted "http://x/" "a" "Swift Fox" "hsl(1 70% 55%)"
           0 7 (Signaling.mounted
                  (identityOf "http://x/" "a" "Swift Fox" "hsl(1 70% 55%)"))
           Relay.allOpen Relay.init).
  - discriminate.
  - reflexivity.
Defined.

(** X30: a signal travels from client to client.  A client with an open
    current socket and a non-empty device id sends one [signal] frame that
    names its room and itself as the sender.  If the relay has that room
    and the target is in its directory, the relay changes no state and
    forwards the frame, once, to exactly the open sockets mapped to the
    target, with the sender's id as [from]; and a client that receives it
    on its current socket hands it to [onSignal] and leaves its presence
    list alone. *)
Theorem signal_travels_from_client_to_client (i : Signaling.Identity)
    (to : string) (signalType payload : JsStr)
    (readyState : Relay.Socket → Signaling.WsState) (c : Signaling.Client)
    (s ws : Relay.Socket) (rs : Relay.ReadyStates) (st : Relay.Server)
    (room : Relay.Room) (dev : Relay.Device)
    (Hcur : Signaling.socketRef c = Some s)
    (Hopen : readyState s = Signaling.WS_OPEN)
    (Hdev : Signaling.id_deviceId i ≠ EmptyString)
    (Hroom : Signaling.id_roomId i ≠ EmptyString)
    (Hto : to ≠ EmptyString)
    (Hreg : Relay.rooms st !! Signaling.id_roomId i = Some room)
    (Htarget : Relay.devices room !! to = Some dev) :
  let fwd := Relay.SignalFwd (Signaling.id_roomId i)
                             (Signaling.id_deviceId i) to signalType payload in
  ∃ m,
    Signaling.sendSignal readyState i (Some to) signalType payload c
    = [Signaling.SocketSend s (Relay.Signal m)]
    ∧ (Relay.step rs (Relay.Message ws (Relay.Signal m)) st).1 = st
    ∧ NoDup (Relay.step rs (Relay.Message ws (Relay.Signal m)) st).2
    ∧ (∀ s' f,
         (s', f) ∈ (Relay.step rs (Relay.Message ws (Relay.Signal m)) st).2
         ↔ Relay.socketToDeviceId room !! s' = Some to
           ∧ Relay.isOpen rs s' = true ∧ f = fwd)
    ∧ ∀ i' s' c', Signaling.socketRef c' = Some s' →
        Signaling.handleMessage i' s' fwd c' = (c', [Signaling.OnSignal fwd]).
Proof.
  cbv zeta.
  exists (Relay.mkSignal (Some (Signaling.id_roomId i))
                         (Some (Signaling.id_deviceId i))
                         (Some to) signalType payload).
  split; [unfold Signaling.sendSignal; by rewrite Hcur, Hopen|].
  split; [reflexivity|].
  cbn [Relay.step fst snd].
  rewrite (onSignal_guarded rs ws _ _ (Relay.rooms st)
             (Signaling.id_roomId i) room to (Signaling.id_deviceId i));
    [|reflexivity | exact Hdev | reflexivity | exact Hto
     | cbn [Relay.s_roomId]; unfold js_or;
       by rewrite (truthy_Some_ne _ Hroom)
     | exact Hroom | exact Hreg].
  rewrite Htarget. cbn [Relay.s_signalType Relay.s_payload].
  split; [apply NoDup_forward|]. split.
  - intros s' f. rewrite list_elem_of_fmap. split.
    + intros ([s0 d0] & [= -> ->] & Hin).
      apply list_elem_of_filter in Hin as [[Hd Ho] Hin].
      apply elem_of_map_to_list in Hin. cbn [fst snd] in *. by subst d0.
    + intros (Hs' & Ho & ->). exists (s', to). split; [done|].
      apply list_elem_of_filter. split; [done|].
      by apply elem_of_map_to_list.
  - intros i' s' c' Hs'. unfold Signaling.handleMessage.
    rewrite bool_decide_eq_false_2 by (by intros H; apply H).
    cbn [Signaling.dispatch]. by destruct c'.
Qed.

Lemma signal_travels_from_client_to_client_witness :
  let i := Signaling.mkIdentity "a" "Swift Fox" "hsl(1 70% 55%)" "R" in
  let fwd := Relay.SignalFwd "R" "a" "b" (Some "offer") (Some "sdp") in
  ∃ m,
    Signaling.sendSignal (λ _, Signaling.WS_OPEN) i (Some "b") (Some "offer")
                         (Some "sdp") (Signaling.mounted i)
    = [Signaling.SocketSend 0 (Relay.Signal m)]
    ∧ (Relay.step Relay.allOpen (Relay.Message 1 (Relay.Signal m))
                  Samples.twoPeers).1 = Samples.twoPeers
    ∧ NoDup (Relay.step Relay.allOpen (Relay.Message 1 (Relay.Signal m))
                        Samples.twoPeers).2
    ∧ (∀ s' f,
         (s', f) ∈ (Relay.step Relay.allOpen
                      (Relay.Message 1 (Relay.Signal m)) Samples.twoPeers).2
         ↔ Relay.socketToDeviceId Samples.roomR !! s' = Some "b"
           ∧ Relay.isOpen Relay.allOpen s' = true ∧ f = fwd)
    ∧ ∀ i' s' c', Signaling.socketRef c' = Some s' →
        Signaling.handleMessage i' s' fwd c' = (c', [Signaling.OnSignal fwd]).
Proof.
  apply (signal_travels_from_client_to_client
           (Signaling.mkIdentity "a" "Swift Fox" "hsl(1 70% 55%)" "R")
           "b" (Some "offer") (Some "sdp") (λ _, Signaling.WS_OPEN)
           (Signaling.mounted
              (Signaling.mkIdentity "a" "Swift Fox" "hsl(1 70% 55%)" "R"))
           0 1 Relay.allOpen Samples.twoPeers Samples.roomR
           (Relay.mkDevice "b" None None));
    first [reflexivity | discriminate | (vm_compute; reflexivity)].
Defined.

End AppProofs.
